(** * slsa: the simple log structure analyzer of liblognorm

    A shallow embedding of [tools/slsa.c] and the properties of its
    pattern tree, tokenizer and refinement pass.

    Conventions of the embedding.
    - A C string is a [string]; the terminating NUL is implicit, [strlen]
      is [String.length], and reading [s[strlen s]] yields the NUL.
    - [struct wordinfo] objects are owned by exactly one slot of one
      node's [words] array (or by the word stack), so they are kept by
      value inside the array.  [struct logrec_node] objects are linked by
      [parent]/[sibling]/[child] pointers and mutated in place, so they
      live in an arena addressed by index; [NULL] is [None].
    - [int] counters ([occurs], [nterm]) are integers of [Z], and the
      arithmetic on them ([occurs++], [++nterm], [occurs += ...]) is
      written with the wrap-around of a 32-bit [int]: signed overflow is
      undefined in C, and the compiled program goes from [INT_MAX] to
      [INT_MIN].  Lengths and array indices are natural numbers.
    - The model does not tell the two string literals that
      [wordDetectSyntax] puts on the word stack from allocated strings:
      a word is its text.  Where [disjoinCommon] writes into such a word
      or [squashDuplicateValues] frees it, the C program writes to or
      frees read-only storage; the model goes on.
    - Undefined behaviour of the C program (a NULL dereference, an access
      outside a buffer) and [exit(1)] are explicit faults; loops over
      pointer chains carry fuel.
    - [printf]/[fprintf] output does not influence the tree.  The trace
      of [printPrefixes] and the "squashing:" line are left out; what
      [reportProgress] and [treePrint] write is modelled on its own, as
      a string, and the traversal of [treePrint] is also kept as
      [treeView], the read-out of the tree. *)

From Stdlib Require Import ZArith Ascii String DecimalString Lia Permutation.
From stdpp Require Import base option list strings.

Open Scope string_scope.
Open Scope Z_scope.
Open Scope nat_scope.

(** ** Data model *)

Record wordflags := mkFlags {
  isSubword : bool;
  isSpecial : bool  (* indicates this is a special parser *)
}.

Record wordinfo := mkWord {
  word : string;
  occurs : Z;
  flags : wordflags
}.

Definition addr := nat.

(** [ntype] and [val] of the C struct are written once ([val.ltext = NULL])
    and never read; [nwords] is the length of [words]. *)
Record logrec_node := mkNode {
  parent : option addr;
  sibling : option addr;
  child : option addr;   (* None: end of record *)
  nterm : Z;             (* number of times this was the terminal node *)
  words : list wordinfo
}.

Definition nwords (n : logrec_node) : nat := length (words n).

Definition noflags : wordflags := mkFlags false false.

Definition set_word (w : string) (wi : wordinfo) : wordinfo :=
  mkWord w (occurs wi) (flags wi).
Definition set_occurs (o : Z) (wi : wordinfo) : wordinfo :=
  mkWord (word wi) o (flags wi).
Definition set_isSubword (wi : wordinfo) : wordinfo :=
  mkWord (word wi) (occurs wi) (mkFlags true (isSpecial (flags wi))).
Definition set_isSpecial (wi : wordinfo) : wordinfo :=
  mkWord (word wi) (occurs wi) (mkFlags (isSubword (flags wi)) true).

Definition set_parent (p : option addr) (n : logrec_node) : logrec_node :=
  mkNode p (sibling n) (child n) (nterm n) (words n).
Definition set_sibling (p : option addr) (n : logrec_node) : logrec_node :=
  mkNode (parent n) p (child n) (nterm n) (words n).
Definition set_child (p : option addr) (n : logrec_node) : logrec_node :=
  mkNode (parent n) (sibling n) p (nterm n) (words n).
Definition set_nterm (t : Z) (n : logrec_node) : logrec_node :=
  mkNode (parent n) (sibling n) (child n) t (words n).
Definition set_words (ws : list wordinfo) (n : logrec_node) : logrec_node :=
  mkNode (parent n) (sibling n) (child n) (nterm n) ws.

(** The range of [int], and the value that 32 bits keep of an integer:
    the result of [int] arithmetic as the compiled program computes it. *)
Definition INT_MAX : Z := 2147483647.
Definition INT_MIN : Z := -2147483648.

Definition int_wrap (z : Z) : Z := ((z - INT_MIN) mod 2 ^ 32 + INT_MIN)%Z.

(** [p != NULL]. *)
Definition notNull (p : option addr) : bool :=
  match p with Some _ => true | None => false end.

(** [wordinfoNew]: [calloc] clears the flags, [occurs] starts at 1. *)
Definition wordinfoNew (w : string) : wordinfo := mkWord w 1%Z noflags.

(** ** C strings *)

Definition NUL : ascii := Ascii.zero.

(** [s[i]]; the byte at [strlen s] is the terminator. *)
Definition char_at (s : string) (i : nat) : ascii :=
  match String.get i s with
  | Some c => c
  | None => NUL
  end.

Definition strlen (s : string) : nat := String.length s.

(** [strcmp] compares bytes as unsigned chars. *)
Definition strcmp (a b : string) : comparison := String.compare a b.

Definition streq (a b : string) : bool :=
  match strcmp a b with Eq => true | _ => false end.

(** [word + k]: the string that starts [k] bytes into [s]. *)
Fixpoint str_drop (k : nat) (s : string) : string :=
  match k, s with
  | O, _ => s
  | S k', String _ s' => str_drop k' s'
  | S _, EmptyString => EmptyString
  end.

(** The first [k] bytes of [s] followed by a NUL. *)
Fixpoint str_take (k : nat) (s : string) : string :=
  match k, s with
  | O, _ => EmptyString
  | S k', String c s' => String c (str_take k' s')
  | S _, EmptyString => EmptyString
  end.

(** [isspace] in the C locale. *)
Definition isspace (c : ascii) : bool :=
  let n := nat_of_ascii c in
  Nat.eqb n 32 || (Nat.leb 9 n && Nat.leb n 13).

(** ** Outcomes and the session state *)

Inductive fault := NullDeref | OutOfBounds | ExitFailure.

Inductive outcome (A : Type) :=
| Done (a : A)
| Fault (f : fault)
| OutOfFuel.
Arguments Done {A} a.
Arguments Fault {A} f.
Arguments OutOfFuel {A}.

(** The arena of nodes (a freed node leaves [None] behind) and the global
    word stack, top first. *)
Record session := mkSession {
  heap : list (option logrec_node);
  wordStack : list wordinfo
}.

Definition M (A : Type) : Type := session -> outcome (A * session).

Definition ret {A} (a : A) : M A := fun s => Done (a, s).
Definition bind {A B} (m : M A) (k : A -> M B) : M B :=
  fun s => match m s with
           | Done (a, s') => k a s'
           | Fault f => Fault f
           | OutOfFuel => OutOfFuel
           end.
Definition raise {A} (f : fault) : M A := fun _ => Fault f.
Definition timeout {A} : M A := fun _ => OutOfFuel.

Notation "'let*' x ':=' m 'in' k" := (bind m (fun x => k))
  (at level 10, x pattern, m at level 100, k at level 200).
Notation "m ';;;' k" := (bind m (fun _ => k))
  (at level 100, k at level 200, right associativity).

(** [*p] for a node pointer. *)
Definition load (p : option addr) : M logrec_node :=
  fun s => match p with
           | None => Fault NullDeref
           | Some a => match heap s !! a with
                       | Some (Some n) => Done (n, s)
                       | _ => Fault OutOfBounds
                       end
           end.

Definition store (a : addr) (n : logrec_node) : M unit :=
  fun s => match heap s !! a with
           | Some (Some _) => Done (tt, mkSession (<[a := Some n]> (heap s)) (wordStack s))
           | _ => Fault OutOfBounds
           end.

(** [calloc] of a node: a fresh address at the end of the arena. *)
Definition alloc (n : logrec_node) : M addr :=
  fun s => Done (length (heap s), mkSession (heap s ++ [Some n]) (wordStack s)).

Definition free (a : addr) : M unit :=
  fun s => match heap s !! a with
           | Some (Some _) => Done (tt, mkSession (<[a := None]> (heap s)) (wordStack s))
           | _ => Fault OutOfBounds
           end.

(** [words[i]] of an array that holds [ws]. *)
Definition word_at (ws : list wordinfo) (i : nat) : M wordinfo :=
  match ws !! i with
  | Some w => ret w
  | None => raise (match ws with [] => NullDeref | _ => OutOfBounds end)
  end.

(** ** The word stack *)

Definition SIZE_WORDSTACK : nat := 8.

Definition wordstackPush (wi : wordinfo) : M unit :=
  fun s => if SIZE_WORDSTACK <=? length (wordStack s)
           then Fault ExitFailure
           else Done (tt, mkSession (heap s) (wi :: wordStack s)).

(** Returns the top word, or [None] if the stack is empty. *)
Definition wordstackPop : M (option wordinfo) :=
  fun s => match wordStack s with
           | [] => Done (None, s)
           | wi :: st => Done (Some wi, mkSession (heap s) st)
           end.

(** ** Nodes *)

(** Add an additional word to an existing node ([occurs] is reset to 1). *)
Definition logrec_addWord (node : addr) (wi : wordinfo) : M unit :=
  let* n := load (Some node) in
  store node (set_words (words n ++ [set_occurs 1%Z wi]) n).

Definition logrec_newNode (wi : wordinfo) (parent : option addr) : M addr :=
  let* a := alloc (mkNode parent None None 0%Z []) in
  logrec_addWord a wi ;;;
  ret a.

Definition logrec_delNode (node : addr) : M unit := free node.

(** Index of the first value whose text is [w]. *)
Fixpoint hasWord_from (i : nat) (ws : list wordinfo) (w : string) : option nat :=
  match ws with
  | [] => None
  | wi :: ws' => if streq (word wi) w then Some i else hasWord_from (S i) ws' w
  end.

Definition logrec_hasWord (n : logrec_node) (w : string) : option nat :=
  hasWord_from 0 (words n) w.

(** ** Duplicate squashing *)

(** [qs_compmi]: order by [strcmp] of the texts. *)
Definition qs_compmi (w1 w2 : wordinfo) : comparison := strcmp (word w1) (word w2).

(** [qsort] as an insertion sort; C leaves the relative order of entries
    that compare equal unspecified, this model keeps it. *)
Fixpoint qs_insert (w : wordinfo) (l : list wordinfo) : list wordinfo :=
  match l with
  | [] => [w]
  | x :: l' => match qs_compmi w x with
               | Gt => x :: qs_insert w l'
               | _ => w :: l
               end
  end.

Definition qsort (l : list wordinfo) : list wordinfo := foldr qs_insert [] l.

(** One iteration of the [for] loop of [squashDuplicateValues]; the state
    is the array, [iPrev] and [nsquashed].  [wordinfoDelete] frees the
    entry at [iNext], whose slot is never read again. *)
Definition squash_step (iNext : nat) (st : list wordinfo * nat * nat)
  : option (list wordinfo * nat * nat) :=
  let '(ws, iPrev, nsquashed) := st in
  wp ← ws !! iPrev;
  wn ← ws !! iNext;
  if streq (word wp) (word wn) then
    Some (ws, iPrev, S nsquashed)
  else if Nat.eqb (iPrev + 1) iNext then
    Some (ws, iNext, nsquashed)
  else
    let wp' :=
      set_occurs (int_wrap (occurs wp + (Z.of_nat iNext - Z.of_nat iPrev - 1))) wp in
    Some (<[S iPrev := wn]> (<[iPrev := wp']> ws), S iPrev, nsquashed).

(** [for(iNext = from ; iNext < from + count ; ++iNext)]. *)
Fixpoint squash_for (count : nat) (iNext : nat) (st : list wordinfo * nat * nat)
  : option (list wordinfo * nat * nat) :=
  match count with
  | O => Some st
  | S c => st' ← squash_step iNext st; squash_for c (S iNext) st'
  end.

(** The effect of [squashDuplicateValues] on the [words] array. *)
Definition squash_words (ws : list wordinfo) : option (list wordinfo) :=
  if Nat.eqb (length ws) 1 then Some ws
  else
    let sorted := qsort ws in
    '(ws', _, nsquashed) ← squash_for (length sorted - 1) 1 (sorted, 0, 0);
    Some (take (length ws' - nsquashed) ws').

Definition squashDuplicateValues (node : addr) : M unit :=
  let* n := load (Some node) in
  match squash_words (words n) with
  | Some ws => store node (set_words ws n)
  | None => raise OutOfBounds
  end.

(** The sum of the occurrence counts of a value set. *)
Definition total_occurs (ws : list wordinfo) : Z :=
  foldr (fun w acc => (occurs w + acc)%Z) 0%Z ws.

(** ** Syntax recognizers *)

(** The recognizers are declared in [syntaxes.h] and [parser.h] and
    defined outside [slsa.c]; the analyzer is parametrised by them.  Each
    takes the buffer and its length (the date parsers also the offset)
    and yields [Some nproc], the number of bytes it consumed, when it
    matches: a nonzero result of [syntax_*], a zero result of
    [ln_parse*]. *)
Class Syntaxes := {
  syntax_posint : string -> nat -> option nat;
  ln_parseTime24hr : string -> nat -> option nat;
  ln_parseDuration : string -> nat -> option nat;
  syntax_ipv4 : string -> nat -> option nat;
  ln_parseRFC3164Date : string -> nat -> nat -> option nat;
  ln_parseRFC5424Date : string -> nat -> nat -> option nat
}.

(** A recognizer matched and consumed the whole span. *)
Definition full_match (r : option nat) (wordlen : nat) : bool :=
  match r with
  | Some nproc => Nat.eqb nproc wordlen
  | None => false
  end.

Definition special (w : string) (wi : wordinfo) : wordinfo :=
  set_isSpecial (set_word w wi).

Section Analyzer.
Context `{Syntaxes}.

(** [bDetectStacked] permits the decomposition of one word into several,
    the additional ones going to the word stack. *)
Definition wordDetectSyntax (wi : wordinfo) (wordlen : nat) (bDetectStacked : bool)
  : M wordinfo :=
  if full_match (syntax_posint (word wi) wordlen) wordlen then
    ret (special "%posint%" wi)
  else if full_match (ln_parseTime24hr (word wi) wordlen) wordlen then
    ret (special "%time-24hr%" wi)
  else if full_match (ln_parseDuration (word wi) wordlen) wordlen then
    ret (special "%duration%" wi)
  else
    match syntax_ipv4 (word wi) wordlen with
    | Some nproc =>
        if Nat.eqb nproc wordlen then ret (special "%ipv4%" wi)
        else if bDetectStacked && Ascii.eqb (char_at (word wi) nproc) "/" then
          let strtnxt := nproc + 1 in
          match syntax_posint (str_drop strtnxt (word wi)) (wordlen - strtnxt) with
          | Some nproc' =>
              if Nat.eqb (strtnxt + nproc') wordlen then
                wordstackPush (special "%posint%" (set_isSubword (wordinfoNew "%posint%"))) ;;;
                wordstackPush (set_isSubword (wordinfoNew "/")) ;;;
                ret (special "%ipv4%" (set_isSubword wi))
              else ret wi
          | None => ret wi
          end
        else ret wi
    | None => ret wi
    end.

(** Length of the leading run of bytes on which [p] holds. *)
Fixpoint span_while (p : ascii -> bool) (s : string) : nat :=
  match s with
  | EmptyString => 0
  | String c s' => if p c then S (span_while p s') else 0
  end.

(** [getWord(&line)]: the next word and the advanced line pointer. *)
Definition getWord (ln : string) : M (option wordinfo * string) :=
  let* top := wordstackPop in
  match top with
  | Some wi => ret (Some wi, ln)
  | None =>
      if Nat.eqb (strlen ln) 0 then ret (None, ln)
      else
        let begin_word := span_while isspace ln in
        let i := begin_word + span_while (fun c => negb (isspace c)) (str_drop begin_word ln) in
        if Nat.eqb begin_word i then ret (None, ln)   (* only trailing spaces *)
        else
          let wordlen := i - begin_word in
          let wi := wordinfoNew (str_take wordlen (str_drop begin_word ln)) in
          if Ascii.eqb (char_at (word wi) 0) "%" then   (* assume already token *)
            ret (Some wi, str_drop i ln)
          else
            let* wi' := wordDetectSyntax wi wordlen true in
            ret (Some wi', str_drop i ln)
  end.

(** ** Insertion *)

(** First loop of [treeAddToLevel]: the node of the chain that already
    has the word (its count is incremented), and [prev]. *)
Fixpoint findExisting (fuel : nat) (existing prev : option addr) (w : string)
  : M (option addr * option addr) :=
  match fuel with
  | O => timeout
  | S fuel' =>
      match existing with
      | None => ret (None, prev)
      | Some e =>
          let* n := load (Some e) in
          match logrec_hasWord n w with
          | Some i =>
              let* wi_val := word_at (words n) i in
              store e (set_words (<[i := set_occurs (int_wrap (occurs wi_val + 1)) wi_val]>
                                    (words n)) n) ;;;
              ret (Some e, prev)
          | None => findExisting fuel' (sibling n) (Some e) w
          end
      end
  end.

(** Second loop: the first node of the chain whose child starts with the
    lookahead word. *)
Fixpoint findByNext (fuel : nat) (child_ : option addr) (nextword : string)
  : M (option addr) :=
  match fuel with
  | O => timeout
  | S fuel' =>
      match child_ with
      | None => ret None
      | Some c =>
          let* n := load (Some c) in
          match child n with
          | None => findByNext fuel' (sibling n) nextword
          | Some _ =>
              let* cn := load (child n) in
              let* w0 := word_at (words cn) 0 in
              if streq (word w0) nextword then ret (Some c)
              else findByNext fuel' (sibling n) nextword
          end
      end
  end.

Definition treeAddToLevel (fuel : nat) (level : addr) (wi : wordinfo)
  (nextwi : option wordinfo) : M addr :=
  let* lv := load (Some level) in
  let* (existing, prev) := findExisting fuel (child lv) None (word wi) in
  let* existing :=
    match existing, nextwi with
    | None, Some nwi =>
        (* if the next word is the same, add this as a different value *)
        let* lv := load (Some level) in
        let* c := findByNext fuel (child lv) (word nwi) in
        match c with
        | Some c => logrec_addWord c wi ;;; ret (Some c)
        | None => ret None
        end
    | _, _ => ret existing
    end in
  match existing with
  | Some e => ret e
  | None =>
      let* e := logrec_newNode wi (Some level) in
      match prev with
      | None =>   (* first child of parent node *)
          let* lv := load (Some level) in
          store level (set_child (Some e) lv)
      | Some p =>  (* new sibling *)
          let* pn := load (Some p) in
          store p (set_sibling (Some e) pn)
      end ;;;
      ret e
  end.

(** The [while(1)] loop of [treeAddLine]. *)
Fixpoint treeAddLine_loop (fuel : nat) (level : addr) (nextwi : option wordinfo)
  (ln : string) : M unit :=
  match fuel with
  | O => timeout
  | S fuel' =>
      match nextwi with
      | None =>
          let* lv := load (Some level) in
          store level (set_nterm (int_wrap (nterm lv + 1)) lv)
      | Some wi =>
          let* (nextwi', ln') := getWord ln in
          let* level' := treeAddToLevel fuel level wi nextwi' in
          treeAddLine_loop fuel' level' nextwi' ln'
      end
  end.

Definition root : addr := 0.

Definition treeAddLine (fuel : nat) (ln : string) : M unit :=
  let* (nextwi, ln') := getWord ln in
  treeAddLine_loop fuel root nextwi ln'.

(** ** Prefix and suffix detection *)

Definition DQUOTE : ascii := ascii_of_nat 34.

(** The search loop of [findMatchingTerm]: [i] runs over the suffix area. *)
Fixpoint findTerm_from (count i : nat) (w : string) (lenWord : nat) (term : ascii)
  : option nat :=
  match count with
  | O => None
  | S c => if Ascii.eqb (char_at w (lenWord - i - 1)) term then Some (i + 1)
           else findTerm_from c (S i) w lenWord term
  end.

(** Returns whether a terminator was found, and the updated [lenPrefix]
    and [lenSuffix]. *)
Definition findMatchingTerm (w : string) (lenWord potentialNewPrefix : nat)
  (lenPrefix lenSuffix : nat) (term : ascii) : bool * nat * nat :=
  match findTerm_from lenSuffix 0 w lenWord term with
  | Some newSuffix => (true, potentialNewPrefix, newSuffix)
  | None => (false, lenPrefix, lenSuffix)
  end.

(** [for(j = 0; j < bound && a[j] == b[j]; ++j)], the value of [j] after
    the loop. *)
Fixpoint scan_common (count j bound : nat) (ca cb : nat -> ascii) : nat :=
  match count with
  | O => j
  | S c => if (j <? bound) && Ascii.eqb (ca j) (cb j)
           then scan_common c (S j) bound ca cb
           else j
  end.

(** One iteration of the loop over [words[1..]] of [checkPrefixes]. *)
Definition affix_step (baseword : string) (lenBaseword : nat)
  (st : nat * nat) (wi : wordinfo) : nat * nat :=
  let '(lenPrefix, lenSuffix) := st in
  let lenPrefix' :=
    if 0 <? lenPrefix then
      let j := scan_common lenPrefix 0 lenPrefix (char_at (word wi)) (char_at baseword) in
      if j <? lenPrefix then j else lenPrefix
    else lenPrefix in
  let lenSuffix' :=
    if 0 <? lenSuffix then
      let lenWord := strlen (word wi) in
      let jmax := if lenWord <? lenSuffix then lenWord else lenSuffix in
      let j := scan_common jmax 0 jmax
                 (fun j => char_at (word wi) (lenWord - j - 1))
                 (fun j => char_at baseword (lenBaseword - j - 1)) in
      if j <? lenSuffix then j else lenSuffix
    else lenSuffix in
  (lenPrefix', lenSuffix').

Definition is_separator (c : ascii) : bool :=
  Ascii.eqb c "=" || Ascii.eqb c ":".

(** The closing character that the [switch] pairs with an opener. *)
Definition closer_of (c : ascii) : option ascii :=
  if Ascii.eqb c DQUOTE then Some DQUOTE
  else if Ascii.eqb c "'" then Some "'"%char
  else if Ascii.eqb c "[" then Some "]"%char
  else if Ascii.eqb c "(" then Some ")"%char
  else if Ascii.eqb c "<" then Some ">"%char
  else None.

(** [for(j = lenPrefix-1 ; j >= 0 ; --j) switch(baseword[j])]; the first
    argument is [j+1].  Leaving the function is the [goto done_prefixes];
    a [break] leaves the [switch] only. *)
Fixpoint delim_scan (j1 : nat) (baseword : string) (lenBaseword : nat)
  (lenPrefix lenSuffix : nat) : nat * nat :=
  match j1 with
  | O => (lenPrefix, lenSuffix)
  | S j =>
      let c := char_at baseword j in
      match closer_of c with
      | Some term =>
          match findMatchingTerm baseword lenBaseword (j + 1) lenPrefix lenSuffix term with
          | (true, lp, ls) => (lp, ls)
          | (false, lp, ls) => delim_scan j baseword lenBaseword lp ls
          end
      | None =>
          if is_separator c then delim_scan j baseword lenBaseword (j + 1) lenSuffix
          else delim_scan j baseword lenBaseword lenPrefix lenSuffix
      end
  end.

(** The lengths [checkPrefixes] hands to [disjoinCommon]. *)
Definition prefix_suffix_lengths (ws : list wordinfo) (baseword : string) : nat * nat :=
  let lenBaseword := strlen baseword in
  let '(lenPrefix, lenSuffix) :=
    fold_left (affix_step baseword lenBaseword) (drop 1 ws) (lenBaseword, lenBaseword) in
  delim_scan lenPrefix baseword lenBaseword lenPrefix lenSuffix.

Fixpoint mapM {A B} (f : A -> M B) (l : list A) : M (list B) :=
  match l with
  | [] => ret []
  | x :: l' => let* y := f x in let* ys := mapM f l' in ret (y :: ys)
  end.

(** [memmove(w, w+lenPrefix, strlen(w)-lenPrefix+1)]: with
    [lenPrefix = strlen(w)+1] nothing moves, beyond that the size wraps. *)
Definition remove_prefix (lenPrefix : nat) (wi : wordinfo) : M wordinfo :=
  let l := strlen (word wi) in
  if lenPrefix <=? l then ret (set_word (str_drop lenPrefix (word wi)) wi)
  else if Nat.eqb lenPrefix (l + 1) then ret wi
  else raise OutOfBounds.

(** [w[strlen(w)-lenSuffix] = '\0'].  Like [remove_prefix] this writes
    into the word; a word that is one of the string literals of
    [wordDetectSyntax] is not told apart here (see the conventions). *)
Definition remove_suffix (lenSuffix : nat) (wi : wordinfo) : M wordinfo :=
  let l := strlen (word wi) in
  if lenSuffix <=? l then ret (set_word (str_take (l - lenSuffix) (word wi)) wi)
  else raise OutOfBounds.

(** The block [if(lenPrefix > 0)] of [disjoinCommon]: the prefix stays in
    [node], a new node takes over its values and its child; the result is
    the new node, to which the C code switches.  [w0] is the first value
    on entry. *)
Definition disjoin_prefix (node : addr) (lenPrefix : nat) (w0 : wordinfo) : M addr :=
  (if strlen (word w0) + 1 <? lenPrefix then raise OutOfBounds else ret tt) ;;;
  let newwi := set_isSubword (wordinfoNew (str_take lenPrefix (word w0))) in
  let* newnode := logrec_newNode newwi (Some node) in
  let* nn := load (Some newnode) in
  let* n := load (Some node) in
  store newnode (set_words (words n) nn) ;;;
  store node (set_words [] n) ;;;
  logrec_addWord node newwi ;;;
  let* nn := load (Some newnode) in
  let* n := load (Some node) in
  store newnode (set_child (child n) nn) ;;;
  store node (set_parent (Some newnode) (set_child (Some newnode) n)) ;;;
  (* switch node *)
  let* nn := load (Some newnode) in
  let* ws := mapM (remove_prefix lenPrefix) (words nn) in
  store newnode (set_words ws nn) ;;;
  ret newnode.

(** The block [if(lenSuffix > 0)]: a new node with the suffix goes between
    [node] and its child.  The C variable [word] points into the buffer of
    the first value, which the prefix removal has shifted in place: here
    it reads the first value of the node now current. *)
Definition disjoin_suffix (node : addr) (lenSuffix : nat) : M unit :=
  let* n := load (Some node) in
  let* w0 := word_at (words n) 0 in
  let lenword := strlen (word w0) in
  (if lenword <? lenSuffix then raise OutOfBounds else ret tt) ;;;
  let iSuffix := lenword - lenSuffix in
  let newwi := set_isSubword (wordinfoNew (str_drop iSuffix (word w0))) in
  let* newnode := logrec_newNode newwi (Some node) in
  let* nn := load (Some newnode) in
  let* n := load (Some node) in
  store newnode (set_child (child n) nn) ;;;
  let* nn := load (Some newnode) in
  let* cn := load (child nn) in   (* newnode->child->parent = newnode *)
  (match child nn with
   | Some c => store c (set_parent (Some newnode) cn)
   | None => raise NullDeref
   end) ;;;
  let* n := load (Some node) in
  store node (set_child (Some newnode) n) ;;;
  let* n := load (Some node) in
  let* ws := mapM (remove_suffix lenSuffix) (words n) in
  store node (set_words ws n).

(** Disjoin common prefixes and suffixes, and detect syntaxes anew on the
    remaining variable part. *)
Definition disjoinCommon (node : addr) (lenPrefix lenSuffix : nat) : M unit :=
  let* n := load (Some node) in
  let* w0 := word_at (words n) 0 in
  let* node :=
    if 0 <? lenPrefix then disjoin_prefix node lenPrefix w0 else ret node in
  (if 0 <? lenSuffix then disjoin_suffix node lenSuffix else ret tt) ;;;
  let* n := load (Some node) in
  let* ws := mapM (fun wi => wordDetectSyntax (set_isSubword wi) (strlen (word wi)) false)
                  (words n) in
  let* n := load (Some node) in
  store node (set_words ws n) ;;;
  squashDuplicateValues node.

(** Check if there are common prefixes and suffixes and, if so, extract
    them. *)
Definition checkPrefixes (node : addr) : M unit :=
  let* n := load (Some node) in
  if Nat.eqb (nwords n) 1 then ret tt
  else
    let* w0 := word_at (words n) 0 in
    if isSubword (flags w0) then ret tt
    else
      let '(lenPrefix, lenSuffix) := prefix_suffix_lengths (words n) (word w0) in
      if negb (Nat.eqb lenPrefix 0) || negb (Nat.eqb lenSuffix 0)
      then disjoinCommon node lenPrefix lenSuffix
      else ret tt.

(** ** Tree squashing *)

(** The condition under which [treeSquash] combines [node] with its
    child, evaluated left to right with the short circuit of [&&]. *)
Definition squash_guard (hasSibling : bool) (node : addr) : M bool :=
  let* n := load (Some node) in
  if hasSibling then ret false
  else match child n with
  | None => ret false
  | Some _ =>
  if negb (Nat.eqb (nwords n) 0) then ret false
  else
    let* cn := load (child n) in
    if notNull (sibling cn) then ret false
    else if negb (Nat.eqb (nwords cn) 0) then ret false
    else
      let* w0 := word_at (words n) 0 in
      if Ascii.eqb (char_at (word w0) 0) "%" then ret false  (* do not combine syntaxes *)
      else
        let* cw0 := word_at (words cn) 0 in
        ret (negb (Ascii.eqb (char_at (word cw0) 0) "%"))
  end.

(** The body of the [if]: combine [node] and its child. *)
Definition squash_combine (node : addr) : M unit :=
  let* n := load (Some node) in
  let* cn := load (child n) in
  let* w0 := word_at (words n) 0 in
  let* cw0 := word_at (words cn) 0 in
  let newword := word w0 ++ " " ++ word cw0 in
  let n1 := set_nterm (nterm cn) (set_words (<[0 := set_word newword w0]> (words n)) n) in
  store node n1 ;;;
  let toDel := child n in
  store node (set_child (child cn) n1) ;;;
  match toDel with
  | Some d => logrec_delNode d
  | None => raise NullDeref
  end.

(** Squash a tree, that is combine nodes that point to nodes without
    siblings to a single node.  [treeSquash_while] is the [while] loop,
    with [hasSibling] computed once on entry. *)
Fixpoint treeSquash (fuel : nat) (node : option addr) : M unit :=
  match fuel with
  | O => timeout
  | S fuel' =>
      match node with
      | None => ret tt
      | Some a =>
          let* n := load (Some a) in
          treeSquash_while fuel' (notNull (sibling n)) node
      end
  end
with treeSquash_while (fuel : nat) (hasSibling : bool) (node : option addr) : M unit :=
  match fuel with
  | O => timeout
  | S fuel' =>
      match node with
      | None => ret tt
      | Some a =>
          let* g := squash_guard hasSibling a in
          if g then
            squash_combine a ;;;
            treeSquash_while fuel' hasSibling node   (* see if we can squash more *)
          else
            checkPrefixes a ;;;
            let* n := load (Some a) in
            treeSquash fuel' (child n) ;;;
            let* n := load (Some a) in
            treeSquash_while fuel' hasSibling (sibling n)
      end
  end.

(** ** Line preprocessing *)

(** The loop of [preprocessLine]; [bufout] grows at its end.  Both date
    parsers store into the same [tocopy] and [nproc], the second after the
    first.  The loop makes no progress when a parser reports a match of
    zero bytes, which is the only way to run out of fuel. *)
Fixpoint preprocess_loop (fuel : nat) (buf : string) (buflen i : nat) (bufout : string)
  : outcome string :=
  if buflen <=? i then Done bufout
  else match fuel with
  | O => OutOfFuel
  | S fuel' =>
      let '(tocopy, nproc) :=
        match ln_parseRFC3164Date buf buflen i with
        | Some n => (Some "%date-rfc3164%", n)
        | None => (None, 1)
        end in
      let '(tocopy, nproc) :=
        match ln_parseRFC5424Date buf buflen i with
        | Some n => (Some "%date-rfc5424%", n)
        | None => (None, 1)
        end in
      let bufout' :=
        match tocopy with
        | None => bufout ++ String (char_at buf i) EmptyString
        | Some t => bufout ++ t
        end in
      preprocess_loop fuel' buf buflen (i + nproc) bufout'
  end.

Definition preprocessLine (buf : string) (buflen : nat) : outcome string :=
  preprocess_loop buflen buf buflen 0 "".

(** ** Reading the input *)

Definition MAXLINE : nat := 32 * 1024.

(** A [FILE]: the bytes not yet read and the end-of-file indicator. *)
Record FILE := mkFile {
  pending : string;
  at_eof : bool
}.

Definition feof (fp : FILE) : bool := at_eof fp.

(** [fgetc]: [None] is [EOF]. *)
Definition fgetc (fp : FILE) : option ascii * FILE :=
  match pending fp with
  | EmptyString => (None, mkFile EmptyString true)
  | String c rest => (Some c, mkFile rest (at_eof fp))
  end.

Definition NEWLINE : ascii := ascii_of_nat 10.

(** [for(i = 0 ; i < sizeof(lnbuf)-1 ; ++i)]: the bytes stored in [lnbuf]
    and the file afterwards; [count] is [sizeof(lnbuf)-1-i]. *)
Fixpoint readLine (count : nat) (fp : FILE) : string * FILE :=
  match count with
  | O => (EmptyString, fp)
  | S c =>
      match fgetc fp with
      | (None, fp') => (EmptyString, fp')
      | (Some ch, fp') =>
          if Ascii.eqb ch NEWLINE then (EmptyString, fp')
          else let '(rest, fp'') := readLine c fp' in (String ch rest, fp'')
      end
  end.

(** A buffer read as a C string ends at its first NUL. *)
Fixpoint c_str (buf : string) : string :=
  match buf with
  | EmptyString => EmptyString
  | String c rest => if Ascii.eqb c NUL then EmptyString else String c (c_str rest)
  end.

Definition lift {A} (o : outcome A) : M A :=
  fun s => match o with
           | Done a => Done (a, s)
           | Fault f => Fault f
           | OutOfFuel => OutOfFuel
           end.

(** The reading loop of [processFile]. *)
Fixpoint processFile_loop (fuel : nat) (fp : FILE) : M FILE :=
  if feof fp then ret fp
  else match fuel with
  | O => timeout
  | S fuel' =>
      let '(lnbuf, fp') := readLine (MAXLINE - 1) fp in
      (if 0 <? String.length lnbuf then
         let* lnpreproc := lift (preprocessLine lnbuf (String.length lnbuf)) in
         treeAddLine fuel (c_str lnpreproc)
       else ret tt) ;;;
      processFile_loop fuel' fp'
  end.

Definition processFile (fuel : nat) (fp : FILE) : M unit :=
  processFile_loop fuel fp ;;;
  treeSquash fuel (Some root).

(** [main]: the root node, then the file. *)
Definition initial : session := mkSession [] [].

Definition main (fuel : nat) (fp : FILE) : M unit :=
  let* r := logrec_newNode (wordinfoNew "[ROOT]") None in
  processFile fuel fp.

End Analyzer.

(** ** Reading a tree out of the arena *)

(** What [treePrint] visits, kept as a tree: for each node its values and
    terminal count, then the child's chain, then the sibling. *)
Inductive tree :=
| TNil
| TNode (ws : list wordinfo) (nt : Z) (tchild tsibling : tree).

Fixpoint treeView (fuel : nat) (h : list (option logrec_node)) (node : option addr)
  : option tree :=
  match fuel with
  | O => None
  | S fuel' =>
      match node with
      | None => Some TNil
      | Some a =>
          n ← mjoin (h !! a);
          c ← treeView fuel' h (child n);
          s ← treeView fuel' h (sibling n);
          Some (TNode (words n) (nterm n) c s)
      end
  end.

(** ** Printing the tree *)

(** [%d]. *)
Definition itoa (z : Z) : string := NilZero.string_of_int (Z.to_int z).

(** [%2d]: at least two columns, filled with blanks on the left. *)
Definition pad2 (s : string) : string :=
  (String.concat "" (repeat " " (2 - String.length s)) ++ s)%string.

Definition treePrintIndent (level : nat) (indicator : ascii) : string :=
  (pad2 (itoa (Z.of_nat level)) ++ String indicator ":" ++
   String.concat "" (repeat "   " level))%string.

Definition treePrintWordinfo (wi : wordinfo) : string :=
  (word wi ++
   (if isSubword (flags wi) then " {subword}" else "") ++
   (if (1 <? occurs wi)%Z then " {" ++ itoa (occurs wi) ++ "}" else ""))%string.

(** The lines that [treePrint] writes for one node: the first value on an
    [l] line with the terminal count, every other value on a [v] line. *)
Definition print_values (level : nat) (nt : Z) (w0 : wordinfo) (ws : list wordinfo)
  : string :=
  (treePrintIndent level "l" ++ treePrintWordinfo w0 ++
   (if (nt =? 0)%Z then "" else " [nterm " ++ itoa nt ++ "]") ++
   String NEWLINE "" ++
   String.concat ""
     (map (fun wi => treePrintIndent level "v" ++ treePrintWordinfo wi ++ String NEWLINE "")
          ws))%string.

(** What [treePrint] writes to [stdout]; the child is printed by the
    recursive call, the [while] loop over the siblings is the second
    call.  A node without values has no [words[0]].  The call of
    [reportProgress] at its head writes to [stderr] and has its own
    model below. *)
Fixpoint treePrint (fuel : nat) (h : list (option logrec_node)) (node : option addr)
  (level : nat) : outcome string :=
  match fuel with
  | O => OutOfFuel
  | S fuel' =>
      match node with
      | None => Done EmptyString
      | Some a =>
          match h !! a with
          | Some (Some n) =>
              match words n with
              | [] => Fault NullDeref
              | w0 :: ws =>
                  match treePrint fuel' h (child n) (level + 1) with
                  | Done below =>
                      match treePrint fuel' h (sibling n) level with
                      | Done beside =>
                          Done (print_values level (nterm n) w0 ws ++ below ++ beside)%string
                      | Fault f => Fault f
                      | OutOfFuel => OutOfFuel
                      end
                  | Fault f => Fault f
                  | OutOfFuel => OutOfFuel
                  end
              end
          | _ => Fault OutOfBounds
          end
      end
  end.

(** ** Progress reports *)

(** The command line option [displayProgress] and the two static
    variables of [reportProgress]. *)
Record progress := mkProgress {
  displayProgress : bool;
  cnt : N;                      (* unsigned *)
  lastlabel : option string
}.

(** [unsigned] arithmetic wraps at 2^32. *)
Definition UINT_WRAP : N := 2 ^ 32.

(** [%u]. *)
Definition utoa (n : N) : string := NilZero.string_of_uint (N.to_uint n).

Definition CR : string := String (ascii_of_nat 13) EmptyString.

(** The line that closes a phase, [\r%s: %u - done\n]. *)
Definition done_line (label : string) (c : N) : string :=
  (CR ++ label ++ ": " ++ utoa c ++ " - done" ++ String NEWLINE "")%string.

(** The running display of every hundredth call, [\r%s: %u]. *)
Definition tick_line (label : string) (c : N) : string :=
  if (c mod 100 =? 0)%N then (CR ++ label ++ ": " ++ utoa c)%string else EmptyString.

(** [reportProgress(label)]: the state afterwards and what goes to
    [stderr]; [None] is the NULL label that ends the run.  [strdup(NULL)]
    is a NULL dereference. *)
Definition reportProgress (label : option string) (st : progress)
  : outcome (progress * string) :=
  if negb (displayProgress st) then Done (st, EmptyString)
  else
    match (match lastlabel st with
           | Some l => Some l
           | None => label
           end) with
    | None => Fault NullDeref
    | Some last =>
        match label with
        | Some l =>
            if streq l last then
              let c := ((cnt st + 1) mod UINT_WRAP)%N in
              Done (mkProgress (displayProgress st) c (Some last), tick_line l c)
            else
              Done (mkProgress (displayProgress st) 0%N (Some l), done_line last (cnt st))
        | None =>
            Done (mkProgress (displayProgress st) 0%N None, done_line last (cnt st))
        end
    end.

(** ** A reference set of recognizers *)

Definition isdigit (c : ascii) : bool :=
  let n := nat_of_ascii c in (48 <=? n) && (n <=? 57).

Definition digit_val (c : ascii) : nat := nat_of_ascii c - 48.

(** Modelled from the spec: [syntax_posint] of [syntaxes.h], the positive
    integer recognizer: a non-empty run of decimal digits at the start of
    the span. *)
Definition ref_posint (str : string) (strLen : nat) : option nat :=
  let i := span_while isdigit (str_take strLen str) in
  if 0 <? i then Some i else None.

(** Two digits at [i] that form a number of at most [bound]. *)
Definition two_digits (s : string) (i bound : nat) : bool :=
  isdigit (char_at s i) && isdigit (char_at s (i + 1)) &&
  (10 * digit_val (char_at s i) + digit_val (char_at s (i + 1)) <=? bound).

(** [hh:mm:ss] at offset [i]. *)
Definition hms_at (s : string) (i : nat) : bool :=
  two_digits s i 23 && Ascii.eqb (char_at s (i + 2)) ":" &&
  two_digits s (i + 3) 59 && Ascii.eqb (char_at s (i + 5)) ":" &&
  two_digits s (i + 6) 59.

(** Modelled from the spec: [ln_parseTime24hr] of [parser.h], the 24-hour
    time recognizer: [hh:mm:ss]. *)
Definition ref_time24hr (str : string) (strLen : nat) : option nat :=
  let s := str_take strLen str in
  if (8 <=? strLen) && hms_at s 0 then Some 8 else None.

(** Modelled from the spec: [ln_parseDuration] of [parser.h], the duration
    recognizer: one or two digits of hours, then [:mm:ss]. *)
Definition ref_duration (str : string) (strLen : nat) : option nat :=
  let s := str_take strLen str in
  let h := span_while isdigit s in
  if ((h =? 1) || (h =? 2)) && Ascii.eqb (char_at s h) ":" &&
     two_digits s (h + 1) 59 && Ascii.eqb (char_at s (h + 3)) ":" &&
     two_digits s (h + 4) 59
  then Some (h + 6) else None.

(** A decimal octet at the start of [s]: its length, if it has one to
    three digits and a value of at most 255. *)
Definition octet (s : string) : option nat :=
  let n := span_while isdigit s in
  let v := fold_left (fun acc c => 10 * acc + digit_val c)
             (list_ascii_of_string (str_take n s)) 0 in
  if (1 <=? n) && (n <=? 3) && (v <=? 255) then Some n else None.

(** Modelled from the spec: [syntax_ipv4] of [syntaxes.h], the IPv4
    recognizer: four decimal octets separated by dots; what follows the
    address is not consumed. *)
Definition ref_ipv4 (str : string) (strLen : nat) : option nat :=
  let s := str_take strLen str in
  a ← octet s;
  if negb (Ascii.eqb (char_at s a) ".") then None else
  b ← octet (str_drop (a + 1) s);
  if negb (Ascii.eqb (char_at s (a + 1 + b)) ".") then None else
  c ← octet (str_drop (a + b + 2) s);
  if negb (Ascii.eqb (char_at s (a + b + 2 + c)) ".") then None else
  d ← octet (str_drop (a + b + c + 3) s);
  Some (a + b + c + d + 3).

Definition months : list string :=
  ["Jan"; "Feb"; "Mar"; "Apr"; "May"; "Jun"; "Jul"; "Aug"; "Sep"; "Oct"; "Nov"; "Dec"].

(** Modelled from the spec: [ln_parseRFC3164Date] of [parser.h], the first
    multi-word timestamp format: [Mmm dd hh:mm:ss] with a day padded by a
    space. *)
Definition ref_rfc3164 (str : string) (strLen offs : nat) : option nat :=
  let s := str_drop offs (str_take strLen str) in
  if existsb (String.eqb (str_take 3 s)) months &&
     Ascii.eqb (char_at s 3) " " &&
     (Ascii.eqb (char_at s 4) " " || isdigit (char_at s 4)) && isdigit (char_at s 5) &&
     Ascii.eqb (char_at s 6) " " && hms_at s 7
  then Some 15 else None.

(** Modelled from the spec: [ln_parseRFC5424Date] of [parser.h], the
    second multi-word timestamp format: [YYYY-MM-DDThh:mm:ss] followed by
    [Z] or a numeric offset [+hh:mm] / [-hh:mm]. *)
Definition ref_rfc5424 (str : string) (strLen offs : nat) : option nat :=
  let s := str_drop offs (str_take strLen str) in
  if two_digits s 0 99 && two_digits s 2 99 && Ascii.eqb (char_at s 4) "-" &&
     two_digits s 5 12 && Ascii.eqb (char_at s 7) "-" && two_digits s 8 31 &&
     Ascii.eqb (char_at s 10) "T" && hms_at s 11
  then
    if Ascii.eqb (char_at s 19) "Z" then Some 20
    else if (Ascii.eqb (char_at s 19) "+" || Ascii.eqb (char_at s 19) "-") &&
            two_digits s 20 23 && Ascii.eqb (char_at s 22) ":" && two_digits s 23 59
    then Some 25 else None
  else None.

Definition ref_syntaxes : Syntaxes :=
  Build_Syntaxes ref_posint ref_time24hr ref_duration ref_ipv4 ref_rfc3164 ref_rfc5424.

(** * Vocabulary of the properties

    The notions the statements use, and the inputs on which they are
    tried. *)

(** ** Trees and arenas *)

(** The session a run starts with: the root node alone. *)
Definition with_root : session :=
  mkSession [Some (mkNode None None None 0%Z [wordinfoNew "[ROOT]"])] [].

Definition root_node (c : option addr) : logrec_node :=
  mkNode None None c 0%Z [wordinfoNew "[ROOT]"].

(** A live node at an address. *)
Definition is_node (h : list (option logrec_node)) (a : addr) : Prop :=
  exists n, h !! a = Some (Some n).

(** A pointer that is NULL or leads to a live node. *)
Definition ptr_node (h : list (option logrec_node)) (p : option addr) : Prop :=
  forall c, p = Some c -> is_node h c.

(** A pointer held by the node at [a]: NULL, or a live node at a higher
    address. *)
Definition ptr_ok (h : list (option logrec_node)) (a : addr) (p : option addr) : Prop :=
  match p with
  | None => True
  | Some c => a < c /\ is_node h c
  end.

Definition node_ok (h : list (option logrec_node)) (a : addr) (n : logrec_node) : Prop :=
  words n <> [] /\ ptr_ok h a (child n) /\ ptr_ok h a (sibling n).

(** The arena while lines are inserted: every node has a value, and the
    child and sibling pointers lead upward to live nodes (nodes are
    appended, and linked from older ones). *)
Definition wf (h : list (option logrec_node)) : Prop :=
  forall a n, h !! a = Some (Some n) -> node_ok h a n.

(** Sessions that differ by counts and values only: same size, same
    nodes, same stack. *)
Definition same_shape (s s' : session) : Prop :=
  wf (heap s') /\ length (heap s') = length (heap s) /\
  (forall c, is_node (heap s) c -> is_node (heap s') c) /\
  wordStack s' = wordStack s.

(** The sibling chain that starts at a pointer. *)
Inductive chain (h : list (option logrec_node)) : option addr -> list addr -> Prop :=
| chain_nil : chain h None []
| chain_cons a n l :
    h !! a = Some (Some n) -> chain h (sibling n) l -> chain h (Some a) (a :: l).

(** The fuel a walk along a chain needs: pointers go upward, so a chain
    that starts at [e] has at most [length h - e] nodes. *)
Definition chain_fuel (h : list (option logrec_node)) (p : option addr) : nat :=
  match p with
  | Some e => S (length h - e)
  | None => 1
  end.

(** The text of the first value of the child of [n]. *)
Definition child_first_word (h : list (option logrec_node)) (n : logrec_node)
  : option string :=
  c ← child n; cn ← mjoin (h !! c); w0 ← head (words cn); Some (word w0).

(** No value of the node at [a] has the text [w]. *)
Definition lacks_word (h : list (option logrec_node)) (w : string) (a : addr) : Prop :=
  forall na, h !! a = Some (Some na) -> logrec_hasWord na w = None.

(** The node at [a] has no child, or its child starts with another word
    than [w]. *)
Definition not_followed_by (h : list (option logrec_node)) (w : string) (a : addr) : Prop :=
  forall na, h !! a = Some (Some na) ->
    child na = None \/ exists w', child_first_word h na = Some w' /\ w' <> w.

(** Trees that differ in the order of siblings (and of the values inside
    a node) only. *)
Inductive sib_equiv : tree -> tree -> Prop :=
| se_nil : sib_equiv TNil TNil
| se_node ws ws' nt c c' sb sb' :
    Permutation ws ws' -> sib_equiv c c' -> sib_equiv sb sb' ->
    sib_equiv (TNode ws nt c sb) (TNode ws' nt c' sb')
| se_swap ws1 nt1 c1 ws2 nt2 c2 sb :
    sib_equiv (TNode ws1 nt1 c1 (TNode ws2 nt2 c2 sb))
              (TNode ws2 nt2 c2 (TNode ws1 nt1 c1 sb))
| se_trans t1 t2 t3 : sib_equiv t1 t2 -> sib_equiv t2 t3 -> sib_equiv t1 t3.

(** The number of nodes. *)
Fixpoint tree_size (t : tree) : nat :=
  match t with
  | TNil => 0
  | TNode _ _ c sb => S (tree_size c + tree_size sb)
  end.

(** The sum of the terminal counts of all nodes. *)
Definition total_nterm (h : list (option logrec_node)) : Z :=
  foldr (fun o acc => match o with Some n => (nterm n + acc)%Z | None => acc end) 0%Z h.

(** The sum of the occurrence counts of all values of all nodes. *)
Definition heap_occurs (h : list (option logrec_node)) : Z :=
  foldr (fun o acc => match o with
                      | Some n => (total_occurs (words n) + acc)%Z
                      | None => acc
                      end) 0%Z h.

(** No count of the node, or of the arena, is negative. *)
Definition node_nonneg (n : logrec_node) : Prop :=
  (0 <= nterm n)%Z /\ Forall (fun w => (0 <= occurs w)%Z) (words n).

Definition nonneg (h : list (option logrec_node)) : Prop :=
  forall (a : addr) n, h !! a = Some (Some n) -> node_nonneg n.

(** [grows k s s']: from [s] to [s'] the terminal counts keep their sum,
    the occurrence counts gain [k], the word stack is untouched, and no
    count is negative afterwards. *)
Definition grows (k : Z) (s s' : session) : Prop :=
  total_nterm (heap s') = total_nterm (heap s) /\
  heap_occurs (heap s') = (heap_occurs (heap s) + k)%Z /\
  wordStack s' = wordStack s /\
  nonneg (heap s').

(** ** Lines and words *)

Fixpoint str_forall (p : ascii -> bool) (s : string) : bool :=
  match s with
  | EmptyString => true
  | String c s' => p c && str_forall p s'
  end.

Definition nonspace (c : ascii) : bool := negb (isspace c).

Fixpoint no_newline (s : string) : bool :=
  match s with
  | EmptyString => true
  | String c s' => negb (Ascii.eqb c NEWLINE) && no_newline s'
  end.

(** What follows the first newline of [s]. *)
Fixpoint after_newline (s : string) : string :=
  match s with
  | EmptyString => EmptyString
  | String c s' => if Ascii.eqb c NEWLINE then s' else after_newline s'
  end.

(** The words the stacked detection makes of an address with a mask. *)
Definition ipv4_token : wordinfo := mkWord "%ipv4%" 1%Z (mkFlags true true).
Definition slash_token : wordinfo := mkWord "/" 1%Z (mkFlags true false).
Definition posint_token : wordinfo := mkWord "%posint%" 1%Z (mkFlags true true).

(** The lines of an input, inserted one after the other. *)
Fixpoint treeAddLines `{Syntaxes} (fuel : nat) (lines : list string) : M unit :=
  match lines with
  | [] => ret tt
  | ln :: lines' => treeAddLine fuel ln ;;; treeAddLines fuel lines'
  end.

(** The number of words that the loop of [treeAddLine] inserts, from the
    word [nextwi] on: what [getWord] delivers from the line and the word
    stack alone. *)
Fixpoint line_words `{Syntaxes} (fuel : nat) (nextwi : option wordinfo) (ln : string)
  (stack : list wordinfo) : option Z :=
  match fuel with
  | O => None
  | S fuel' =>
      match nextwi with
      | None => Some 0%Z
      | Some _ =>
          match getWord ln (mkSession [] stack) with
          | Done ((nextwi', ln'), s') =>
              option_map Z.succ (line_words fuel' nextwi' ln' (wordStack s'))
          | _ => None
          end
      end
  end.

(** The number of words of a line (0 where the tokenizer does not
    return), and of a list of lines. *)
Definition words_of_line `{Syntaxes} (fuel : nat) (ln : string) : Z :=
  default 0%Z
    match getWord ln (mkSession [] []) with
    | Done ((nextwi, ln'), s') => line_words fuel nextwi ln' (wordStack s')
    | _ => None
    end.

Definition words_of_lines `{Syntaxes} (fuel : nat) (lines : list string) : Z :=
  foldr (fun ln acc => (words_of_line fuel ln + acc)%Z) 0%Z lines.

(** The number of words the loop of [treeAddLine] can still insert. *)
Definition words_left (nextwi : option wordinfo) (ln : string) (s : session) : nat :=
  match nextwi with
  | None => 0
  | Some _ => 1 + 3 * strlen ln + length (wordStack s)
  end.

(** A bound on the words of a line of [n] bytes, and so on the nodes it
    adds: a raw word has at least one byte and gives at most three
    words. *)
Definition line_cost (ln : string) : nat := 1 + 3 * strlen ln.

Definition lines_cost (lines : list string) : nat :=
  foldr (fun ln acc => line_cost ln + acc) 0 lines.

(** An input file with the given lines, each ended by a newline. *)
Definition nl : string := String NEWLINE EmptyString.

Definition lines_file (lines : list string) : FILE :=
  mkFile (foldr (fun l acc => l ++ nl ++ acc)%string EmptyString lines) false.

(** The tree [main] leaves behind for the reference recognizers, after
    the squashing pass. *)
Definition tree_after_main (fuel : nat) (fp : FILE) : option tree :=
  match @main ref_syntaxes fuel fp initial with
  | Done (_, s) => treeView fuel (heap s) (Some root)
  | _ => None
  end.

(** The session after the lines alone, for the reference recognizers. *)
Definition after_lines (lines : list string) : session :=
  match @treeAddLines ref_syntaxes 8 lines with_root with
  | Done (_, s) => s
  | _ => with_root
  end.

(** ** Readings of the specification that the code does not follow *)

(** The delimiter scan as the specification reads it: the first separator
    met pins the prefix and ends the scan. *)
Definition separator_ends_scan : Prop :=
  forall bw lenPrefix lenSuffix j,
    j < lenPrefix <= strlen bw ->
    is_separator (char_at bw j) = true ->
    (forall k, j < k < lenPrefix ->
       closer_of (char_at bw k) = None /\ is_separator (char_at bw k) = false) ->
    delim_scan lenPrefix bw (strlen bw) lenPrefix lenSuffix = (j + 1, lenSuffix).

(** The reading of lines as the specification has it: what exceeds the
    buffer is dropped, the next read starts after the newline of the long
    line. *)
Definition excess_is_dropped : Prop :=
  forall fp, pending (snd (readLine (MAXLINE - 1) fp)) = after_newline (pending fp).

(** Order independence as the specification states it, for the
    recognizers [syn]: two orders of the same lines give trees that agree
    up to the order of siblings. *)
Definition order_independent (syn : Syntaxes) : Prop :=
  forall fuel ls1 ls2 s1 s2 t1 t2,
    Permutation ls1 ls2 ->
    treeAddLines fuel ls1 with_root = Done (tt, s1) ->
    treeAddLines fuel ls2 with_root = Done (tt, s2) ->
    treeView fuel (heap s1) (Some root) = Some t1 ->
    treeView fuel (heap s2) (Some root) = Some t2 ->
    sib_equiv t1 t2.

(** ** Inputs *)

(** The value set that [disjoinCommon] hands to the squashing when two
    residual values, say "1" and "22", have both been detected as
    positive integers. *)
Definition twice_posint : list wordinfo := [posint_token; posint_token].

(** Residual values of two addresses, one integer and one literal. *)
Definition literal_subword : wordinfo := mkWord "x" 1%Z (mkFlags true false).

Definition mixed_values : list wordinfo :=
  [ipv4_token; literal_subword; posint_token; ipv4_token].

(** root -> "connection" -> "closed", the tree of the one line
    "connection closed". *)
Definition connection_closed : session :=
  mkSession
    [Some (mkNode None None (Some 1) 0%Z [wordinfoNew "[ROOT]"]);
     Some (mkNode (Some 0) None (Some 2) 0%Z [wordinfoNew "connection"]);
     Some (mkNode (Some 1) None None 1%Z [wordinfoNew "closed"])]
    [].

Definition a_values : list wordinfo :=
  [wordinfoNew "a=1"; wordinfoNew "a=22"; wordinfoNew "a=333"].

(** root -> "k" -> node 2 with the three values -> "e": the tree of the
    lines "k a=1 e", "k a=22 e" and "k a=333 e". *)
Definition a_lines : list string := ["k a=1 e"; "k a=22 e"; "k a=333 e"].

Definition a_session : session :=
  mkSession
    [Some (root_node (Some 1));
     Some (mkNode (Some 0) None (Some 2) 0%Z [set_occurs 3%Z (wordinfoNew "k")]);
     Some (mkNode (Some 1) None (Some 3) 0%Z a_values);
     Some (mkNode (Some 2) None None 3%Z [set_occurs 3%Z (wordinfoNew "e")])]
    [].

(** The same tree after the factoring of node 2: the node keeps the
    prefix, the new node 4 has the residual values, squashed. *)
Definition a_factored : session :=
  mkSession
    [Some (root_node (Some 1));
     Some (mkNode (Some 0) None (Some 2) 0%Z [set_occurs 3%Z (wordinfoNew "k")]);
     Some (mkNode (Some 4) None (Some 4) 0%Z [set_isSubword (wordinfoNew "a=")]);
     Some (mkNode (Some 2) None None 3%Z [set_occurs 3%Z (wordinfoNew "e")]);
     Some (mkNode (Some 2) None (Some 3) 0%Z [posint_token])]
    [].

(** A line that starts with an RFC3164 timestamp. *)
Definition rfc3164_line : string := "Oct 30 12:33:01 host sshd: session opened".

(** A line of [MAXLINE] bytes, the last one a "b", and a second line. *)
Definition long_line : string :=
  string_of_list_ascii (repeat "a"%char (MAXLINE - 1)).

Definition excess : string := String "b" (String NEWLINE (String "c" (String NEWLINE ""))).

Definition long_file : FILE := mkFile (long_line ++ excess) false.

Definition user_lines : list string := ["user bob login"; "user alice login"].

(** root -> "user" -> {"bob", "alice"} -> "login". *)
Definition user_tree : tree :=
  TNode [wordinfoNew "[ROOT]"] 0%Z
    (TNode [set_occurs 2%Z (wordinfoNew "user")] 0%Z
       (TNode [wordinfoNew "bob"; wordinfoNew "alice"] 0%Z
          (TNode [set_occurs 2%Z (wordinfoNew "login")] 2%Z TNil TNil)
          TNil)
       TNil)
    TNil.

(** The state after "user bob login" and the word "user" of the second
    line. *)
Definition after_user : session :=
  mkSession
    [Some (mkNode None None (Some 1) 0%Z [wordinfoNew "[ROOT]"]);
     Some (mkNode (Some 0) None (Some 2) 0%Z [set_occurs 2%Z (wordinfoNew "user")]);
     Some (mkNode (Some 1) None (Some 3) 0%Z [wordinfoNew "bob"]);
     Some (mkNode (Some 2) None None 1%Z [wordinfoNew "login"])]
    [].

(** A node at the end of its lines whose two values end alike. *)
Definition childless : session :=
  mkSession
    [Some (mkNode None None (Some 1) 0%Z [wordinfoNew "[ROOT]"]);
     Some (mkNode (Some 0) None None 2%Z [wordinfoNew "xa"; wordinfoNew "ya"])]
    [].

(** Three lines whose tree depends on their order. *)
Definition three_lines : list string := ["a x"; "b y"; "a y"].

(** ** Values and their common ends *)

(** A C string has no NUL before its end. *)
Definition no_nul (s : string) : bool :=
  str_forall (fun c => negb (Ascii.eqb c NUL)) s.

(** The first [k] bytes of [a] and of [b] are the same. *)
Definition common_prefix (k : nat) (a b : string) : Prop :=
  k <= strlen a /\ k <= strlen b /\ str_take k a = str_take k b.

(** The last [k] bytes of [a] and of [b] are the same. *)
Definition common_suffix (k : nat) (a b : string) : Prop :=
  k <= strlen a /\ k <= strlen b /\
  str_drop (strlen a - k) a = str_drop (strlen b - k) b.

(** What the loop of [checkPrefixes] over the values keeps: every value
    it has seen agrees with the base word on the first [lp] and on the
    last [ls] bytes. *)
Definition agrees (base : string) (lp ls : nat) (wi : wordinfo) : Prop :=
  (forall i, i < lp -> char_at (word wi) i = char_at base i) /\
  ls <= strlen (word wi) /\
  (forall j, j < ls ->
     char_at (word wi) (strlen (word wi) - j - 1) = char_at base (strlen base - j - 1)).

(** Neighbours in the list are related. *)
Fixpoint adjacent {A} (R : A -> A -> Prop) (l : list A) : Prop :=
  match l with
  | [] => True
  | x :: l' => match l' with
               | [] => True
               | y :: _ => R x y /\ adjacent R l'
               end
  end.

(** Strictly ascending in the order of [strcmp]. *)
Definition ascending (l : list string) : Prop :=
  adjacent (fun a b => strcmp a b = Lt) l.

(** The texts of a sorted array with every run of equal texts reduced to
    one, [prev] being the text before the list. *)
Fixpoint uniq_from (prev : string) (l : list string) : list string :=
  match l with
  | [] => []
  | x :: l' => if streq prev x then uniq_from prev l' else x :: uniq_from x l'
  end.

Definition uniq (l : list string) : list string :=
  match l with
  | [] => []
  | x :: l' => x :: uniq_from x l'
  end.

(** The node at [a] is exempt from factoring: it has a first value, and
    this value is a subword. *)
Definition settled (h : list (option logrec_node)) (a : addr) : Prop :=
  exists n w0 ws, h !! a = Some (Some n) /\ words n = w0 :: ws /\
                  isSubword (flags w0) = true.

(** The node at [a] has a value. *)
Definition has_values (h : list (option logrec_node)) (a : addr) : Prop :=
  exists n, h !! a = Some (Some n) /\ words n <> [].

(** ** Arenas over time *)

(** Every node of [s] is a node of [s'], and the arena has not shrunk. *)
Definition keeps_nodes (s s' : session) : Prop :=
  length (heap s) <= length (heap s') /\
  forall a, is_node (heap s) a -> is_node (heap s') a.

(** An action that frees no node. *)
Definition frees_nothing {A} (m : M A) : Prop :=
  forall s a s', m s = Done (a, s') -> keeps_nodes s s'.

(** [m'] returns whatever [m] returns. *)
Definition at_least {A} (m m' : M A) : Prop :=
  forall s r, m s = Done r -> m' s = Done r.

(** A value at a later time of the insertion: the same text and flags,
    and a count that [Ro] relates to the earlier one. *)
Definition value_rel (Ro : Z -> Z -> Prop) (w w' : wordinfo) : Prop :=
  word w' = word w /\ flags w' = flags w /\ Ro (occurs w) (occurs w').

(** A node at a later time: the same parent, every link that was set, the
    values it had in their places, possibly more of them behind, and a
    terminal count that [Rn] relates to the earlier one. *)
Definition node_rel (Rn Ro : Z -> Z -> Prop) (n n' : logrec_node) : Prop :=
  parent n' = parent n /\
  (child n <> None -> child n' = child n) /\
  (sibling n <> None -> sibling n' = sibling n) /\
  Rn (nterm n) (nterm n') /\
  exists old more, words n' = (old ++ more)%list /\
                   Forall2 (value_rel Ro) (words n) old.

Definition heap_rel (Rn Ro : Z -> Z -> Prop) (h h' : list (option logrec_node)) : Prop :=
  length h <= length h' /\
  forall (a : addr) n, h !! a = Some (Some n) ->
    exists n', h' !! a = Some (Some n') /\ node_rel Rn Ro n n'.

(** Nothing is said of the counts. *)
Definition any_count : Z -> Z -> Prop := fun _ _ => True.

(** The later arena has all the earlier one had: the nodes, their links
    and their values. *)
Definition heap_keeps : list (option logrec_node) -> list (option logrec_node) -> Prop :=
  heap_rel any_count any_count.

(** And no count has gone down. *)
Definition heap_grows : list (option logrec_node) -> list (option logrec_node) -> Prop :=
  heap_rel Z.le Z.le.

(** Every occurrence count of the arena is related by [Ro] to its
    increment. *)
Definition bump_ok (Ro : Z -> Z -> Prop) (h : list (option logrec_node)) : Prop :=
  forall (a : addr) n i w, h !! a = Some (Some n) -> words n !! i = Some w ->
    Ro (occurs w) (int_wrap (occurs w + 1)).

(** The node [r] is on the sibling chain that starts at [p]. *)
Inductive on_chain (h : list (option logrec_node)) : option addr -> addr -> Prop :=
| on_chain_here a n : h !! a = Some (Some n) -> on_chain h (Some a) a
| on_chain_next a n r :
    h !! a = Some (Some n) -> on_chain h (sibling n) r -> on_chain h (Some a) r.

(** From the node [a] the texts lead to the node [t]: each one is a value
    of a child of the node reached before. *)
Inductive on_path (h : list (option logrec_node)) : addr -> list string -> addr -> Prop :=
| on_path_end a n : h !! a = Some (Some n) -> on_path h a [] a
| on_path_step a n r nr w ws t :
    h !! a = Some (Some n) -> on_chain h (child n) r ->
    h !! r = Some (Some nr) -> logrec_hasWord nr w <> None ->
    on_path h r ws t -> on_path h a (w :: ws) t.

(** ** Lines as lists of words *)

(** The words that the loop of [treeAddLine] inserts, from the word
    [nextwi] on: what [getWord] delivers from the line and the word stack
    alone. *)
Fixpoint line_tokens `{Syntaxes} (fuel : nat) (nextwi : option wordinfo) (ln : string)
  (stack : list wordinfo) : option (list wordinfo) :=
  match fuel with
  | O => None
  | S fuel' =>
      match nextwi with
      | None => Some []
      | Some wi =>
          match getWord ln (mkSession [] stack) with
          | Done ((nextwi', ln'), s') =>
              option_map (cons wi) (line_tokens fuel' nextwi' ln' (wordStack s'))
          | _ => None
          end
      end
  end.

Definition tokens_of_line `{Syntaxes} (fuel : nat) (ln : string) : option (list wordinfo) :=
  match getWord ln (mkSession [] []) with
  | Done ((nextwi, ln'), s') => line_tokens fuel nextwi ln' (wordStack s')
  | _ => None
  end.

(** The words of the line lead from the root to a node of the arena. *)
Definition line_on_path `{Syntaxes} (fuel : nat) (h : list (option logrec_node))
  (ln : string) : Prop :=
  exists ws t, tokens_of_line fuel ln = Some ws /\ on_path h root (map word ws) t.

(** And that node has been a terminal node. *)
Definition line_counted `{Syntaxes} (fuel : nat) (h : list (option logrec_node))
  (ln : string) : Prop :=
  exists ws t nt, tokens_of_line fuel ln = Some ws /\ on_path h root (map word ws) t /\
                  h !! t = Some (Some nt) /\ (1 <= nterm nt)%Z.

(** A word that the tokenizer hands on as it is: not empty, without white
    space, and either marked as a placeholder or left alone by the syntax
    detection. *)
Definition plain_word `{Syntaxes} (w : string) : Prop :=
  w <> EmptyString /\ str_forall nonspace w = true /\
  (Ascii.eqb (char_at w 0) "%" = true \/
   wordDetectSyntax (wordinfoNew w) (strlen w) true (mkSession [] []) =
     Done (wordinfoNew w, mkSession [] [])).

(** The line made of the words, each followed by one blank. *)
Definition join_words (ws : list string) : string :=
  foldr (fun w acc => w ++ " " ++ acc)%string EmptyString ws.

(** What the reading loop of [processFile] does with one line after the
    other: a line that is not empty is preprocessed and inserted. *)
Fixpoint feed_lines `{Syntaxes} (fuel : nat) (lines : list string) : M unit :=
  match lines with
  | [] => ret tt
  | ln :: lines' =>
      (if 0 <? String.length ln then
         let* lnpreproc := lift (preprocessLine ln (String.length ln)) in
         treeAddLine fuel (c_str lnpreproc)
       else ret tt) ;;;
      feed_lines fuel lines'
  end.

(** ** What is written *)

(** A sequence of calls of [reportProgress], with all it writes. *)
Fixpoint reports (labels : list (option string)) (st : progress)
  : outcome (progress * string) :=
  match labels with
  | [] => Done (st, EmptyString)
  | l :: labels' =>
      match reportProgress l st with
      | Done (st1, o1) =>
          match reports labels' st1 with
          | Done (st2, o2) => Done (st2, (o1 ++ o2)%string)
          | Fault f => Fault f
          | OutOfFuel => OutOfFuel
          end
      | Fault f => Fault f
      | OutOfFuel => OutOfFuel
      end
  end.

(** What [n] calls with the label of the running phase write, the count
    being [c] before them. *)
Fixpoint ticks (label : string) (c : N) (n : nat) : string :=
  match n with
  | O => EmptyString
  | S n' =>
      let c' := ((c + 1) mod UINT_WRAP)%N in
      (tick_line label c' ++ ticks label c' n')%string
  end.

(** One line of the printed tree: the level, whether the value is the
    first of its node, the value, and the terminal count of the node. *)
Record printed_line := mkLine {
  pl_level : nat;
  pl_first : bool;
  pl_value : wordinfo;
  pl_nterm : Z
}.

(** The lines of a tree that has been read out of the arena: the values
    of a node, then its child one level deeper, then its siblings. *)
Fixpoint tree_lines (level : nat) (t : tree) : list printed_line :=
  match t with
  | TNil => []
  | TNode ws nt c sb =>
      match ws with
      | [] => []
      | w0 :: ws' =>
          (mkLine level true w0 nt :: map (fun w => mkLine level false w nt) ws') ++
          tree_lines (level + 1) c ++ tree_lines level sb
      end
  end.

Fixpoint blanks (n : nat) : string :=
  match n with
  | O => EmptyString
  | S n' => String " " (blanks n')
  end.

(** An integer in decimal digits. *)
Definition decimal (z : Z) : string := NilZero.string_of_int (Z.to_int z).

(** The head of a line: the level in two columns, the letter, a colon
    and three blanks for each level. *)
Definition show_indent (level : nat) (letter : ascii) : string :=
  (blanks (2 - String.length (decimal (Z.of_nat level))) ++ decimal (Z.of_nat level) ++
   String letter ":" ++ blanks (3 * level))%string.

(** A value: its text, the mark of a subword, and the count if it is
    above 1. *)
Definition show_value (w : wordinfo) : string :=
  (word w ++
   (if isSubword (flags w) then " {subword}" else "") ++
   (if (1 <? occurs w)%Z then " {" ++ decimal (occurs w) ++ "}" else ""))%string.

Definition show_line (l : printed_line) : string :=
  (show_indent (pl_level l) (if pl_first l then "l" else "v") ++
   show_value (pl_value l) ++
   (if pl_first l && negb (pl_nterm l =? 0)%Z
    then " [nterm " ++ decimal (pl_nterm l) ++ "]" else "") ++
   nl)%string.

(** The strings one after the other. *)
Definition flatten (l : list string) : string := foldr append EmptyString l.

(** ** Further inputs *)

(** Two lines that share a slot, and an address with a mask. *)
Definition printed_lines : list string :=
  ["user bob login"; "user alice login"; "10.0.0.1/24"].

(** root -> node 1 with the values "end" and "eend" -> "x": the tree of
    the lines "end x" and "eend x", the case that the comment before
    [checkPrefixes] names. *)
Definition end_lines : list string := ["end x"; "eend x"].

Definition end_session : session :=
  mkSession
    [Some (root_node (Some 1));
     Some (mkNode (Some 0) None (Some 2) 0%Z [wordinfoNew "end"; wordinfoNew "eend"]);
     Some (mkNode (Some 1) None None 2%Z [set_occurs 2%Z (wordinfoNew "x")])]
    [].

(** * Properties *)

(** ** Reasoning about runs *)

Lemma bind_Done {A B} (m : M A) (k : A -> M B) s b s' :
  bind m k s = Done (b, s') ->
  exists a s1, m s = Done (a, s1) /\ k a s1 = Done (b, s').
Proof.
  unfold bind. destruct (m s) as [[a s1]| |]; intros Hk; try discriminate.
  exists a, s1. split; [reflexivity | exact Hk].
Qed.

Lemma bind_step {A B} (m : M A) (k : A -> M B) s a s1 :
  m s = Done (a, s1) -> bind m k s = k a s1.
Proof. unfold bind. intros ->. reflexivity. Qed.

Lemma bind_assoc {A B C} (m : M A) (f : A -> M B) (g : B -> M C) s :
  bind (bind m f) g s = bind m (fun x => bind (f x) g) s.
Proof. unfold bind. destruct (m s) as [[a s1]| |]; reflexivity. Qed.

Lemma bind_fault {A B} (m : M A) (k : A -> M B) s f :
  m s = Fault f -> bind m k s = Fault f.
Proof. unfold bind. intros ->. reflexivity. Qed.

Lemma load_ok a n s :
  heap s !! a = Some (Some n) -> load (Some a) s = Done (n, s).
Proof. unfold load. intros ->. reflexivity. Qed.

Lemma load_Done p n s s' :
  load p s = Done (n, s') ->
  s' = s /\ exists a, p = Some a /\ heap s !! a = Some (Some n).
Proof.
  unfold load. destruct p as [a|]; [|discriminate].
  destruct (heap s !! a) as [[m|]|] eqn:E; try discriminate.
  intros [= -> ->]. split; [reflexivity|]. exists a. split; [reflexivity | exact E].
Qed.

Lemma store_ok a n n0 s :
  heap s !! a = Some (Some n0) ->
  store a n s = Done (tt, mkSession (<[a := Some n]> (heap s)) (wordStack s)).
Proof. unfold store. intros ->. reflexivity. Qed.

Lemma store_Done a n s u s' :
  store a n s = Done (u, s') ->
  s' = mkSession (<[a := Some n]> (heap s)) (wordStack s) /\
  exists n0, heap s !! a = Some (Some n0).
Proof.
  unfold store. destruct (heap s !! a) as [[m|]|] eqn:E; try discriminate.
  intros [= <- <-]. split; [reflexivity | eauto].
Qed.

Ltac len := rewrite ?length_insert, ?length_app; simpl; lia.

(** Lookups in an arena built by stores and allocations. *)
Ltac lk :=
  cbn [heap wordStack];
  repeat first
    [ rewrite list_lookup_insert_eq by len
    | rewrite list_lookup_insert_ne by lia
    | rewrite lookup_app_l by len
    | rewrite lookup_app_r by len ];
  rewrite ?length_insert, ?length_app, ?Nat.sub_diag; try reflexivity; try eassumption.

(** One action of a run: a load or a store whose address is known. *)
Ltac mload := erewrite bind_step; [| apply load_ok; lk].
Ltac mstore := erewrite bind_step; [| eapply store_ok; lk].

Lemma logrec_addWord_ok a n wi s :
  heap s !! a = Some (Some n) ->
  logrec_addWord a wi s =
    Done (tt, mkSession (<[a := Some (set_words (words n ++ [set_occurs 1%Z wi]) n)]> (heap s))
                        (wordStack s)).
Proof.
  intros Ha. unfold logrec_addWord.
  rewrite (bind_step _ _ _ _ _ (load_ok a n s Ha)).
  apply (store_ok a _ n s Ha).
Qed.

Lemma logrec_newNode_ok wi p s :
  logrec_newNode wi p s =
    Done (length (heap s),
          mkSession (heap s ++ [Some (mkNode p None None 0%Z [set_occurs 1%Z wi])])
                    (wordStack s)).
Proof.
  unfold logrec_newNode, alloc, logrec_addWord.
  unfold bind at 1. rewrite bind_assoc.
  mload. mstore. unfold bind, ret. cbn [heap wordStack].
  f_equal. f_equal. f_equal.
  rewrite insert_app_r_alt by lia. rewrite Nat.sub_diag. reflexivity.
Qed.

Lemma strcmp_refl a : strcmp a a = Eq.
Proof.
  unfold strcmp. induction a as [|c a IH]; [reflexivity|].
  simpl. unfold Ascii.compare. rewrite N.compare_refl. exact IH.
Qed.

Lemma streq_eq a b : streq a b = true <-> a = b.
Proof.
  unfold streq. split.
  - destruct (strcmp a b) eqn:E; try discriminate.
    intros _. apply String.compare_eq_iff. exact E.
  - intros ->. rewrite strcmp_refl. reflexivity.
Qed.

Lemma streq_refl a : streq a a = true.
Proof. apply streq_eq. reflexivity. Qed.

Lemma streq_neq a b : a <> b -> streq a b = false.
Proof.
  intros Hne. destruct (streq a b) eqn:E; [|reflexivity].
  apply streq_eq in E. contradiction.
Qed.

(** ** Strings *)

Lemma char_at_cons c s i : char_at (String c s) (S i) = char_at s i.
Proof. reflexivity. Qed.

Lemma str_drop_step s : forall i,
  i < String.length s ->
  str_drop i s = String (char_at s i) (str_drop (S i) s).
Proof.
  induction s as [|c s IH]; intros i Hi; simpl in Hi; [lia|].
  destruct i as [|i]; [reflexivity|].
  rewrite char_at_cons. simpl. apply IH. lia.
Qed.

Lemma str_drop_all s : forall i, String.length s <= i -> str_drop i s = EmptyString.
Proof.
  induction s as [|c s IH]; intros i Hi.
  - destruct i; reflexivity.
  - destruct i as [|i]; simpl in Hi; [lia|]. simpl. apply IH. lia.
Qed.

Lemma str_append_cons c (a b : string) :
  (String c a ++ b)%string = String c (a ++ b)%string.
Proof. reflexivity. Qed.

Lemma str_append_nil (s : string) : (s ++ "")%string = s.
Proof. induction s as [|c s IH]; [reflexivity | rewrite !str_append_cons; simpl; f_equal; exact IH]. Qed.

Lemma str_append_assoc (a b c : string) :
  ((a ++ b) ++ c)%string = (a ++ (b ++ c))%string.
Proof. induction a as [|x a IH]; [reflexivity | rewrite !str_append_cons; simpl; f_equal; exact IH]. Qed.

Lemma str_drop_app (a b : string) : str_drop (String.length a) (a ++ b) = b.
Proof.
  induction a as [|x a IH]; [destruct b; reflexivity | rewrite str_append_cons; exact IH].
Qed.

Lemma str_take_app (a b : string) : str_take (String.length a) (a ++ b) = a.
Proof.
  induction a as [|x a IH]; [destruct b; reflexivity | rewrite str_append_cons; simpl; f_equal; exact IH].
Qed.

Lemma str_drop_length s : forall k, String.length (str_drop k s) = String.length s - k.
Proof.
  induction s as [|c s IH]; intros k; destruct k as [|k]; try reflexivity.
  simpl. apply IH.
Qed.

Lemma str_length_app (a b : string) :
  String.length (a ++ b) = String.length a + String.length b.
Proof. induction a as [|x a IH]; [reflexivity | rewrite !str_append_cons; simpl; f_equal; exact IH]. Qed.

(** Evaluation that leaves the recognizers alone, to rewrite with what is
    assumed of them. *)
Ltac run :=
  lazy -[syntax_posint ln_parseTime24hr ln_parseDuration syntax_ipv4
         ln_parseRFC3164Date ln_parseRFC5424Date int_wrap].

(** ** The range of [int] *)

Lemma int_wrap_small z : (INT_MIN <= z <= INT_MAX)%Z -> int_wrap z = z.
Proof.
  unfold int_wrap, INT_MIN, INT_MAX. intros Hz.
  rewrite Z.mod_small by lia. lia.
Qed.

Lemma int_wrap_INT_MAX : int_wrap (INT_MAX + 1) = INT_MIN.
Proof. reflexivity. Qed.

(** ** Duplicate squashing *)

Module Squash.

(** C1. Squashing does not keep the sum of the occurrence counts: for the
    value set that holds [%posint%] twice, each seen once,
    [squashDuplicateValues] leaves one [%posint%] whose count is still 1.
    The counts add up to 2 before and to 1 after; the run of equal
    entries that ends the array is dropped without being counted. *)
Theorem squash_drops_trailing_run :
  squash_words twice_posint = Some [posint_token] /\
  total_occurs twice_posint = 2%Z /\
  total_occurs [posint_token] = 1%Z.
Proof. repeat split. Qed.

(** The same through the node: the stored value set loses one count. *)
Lemma squash_node_drops_trailing_run :
  let n := mkNode None None None 0%Z twice_posint in
  squashDuplicateValues 0 (mkSession [Some n] []) =
    Done (tt, mkSession [Some (set_words [posint_token] n)] []).
Proof. reflexivity. Qed.

(** A run that is followed by other words is counted by the number of
    entries dropped, and after this first merge every later entry is
    credited with one occurrence it never had: sorted, the values are
    [%ipv4%] twice, [%posint%] and "x"; [%ipv4%] rightly counts 2, but
    [%posint%] counts 2 as well, and the sum grows from 4 to 5. *)
Lemma squash_credits_later_entries :
  squash_words mixed_values =
    Some [set_occurs 2%Z ipv4_token; set_occurs 2%Z posint_token; literal_subword] /\
  total_occurs mixed_values = 4%Z.
Proof. split; reflexivity. Qed.

End Squash.

(** ** Chain collapse *)

Module Collapse.
Section WithSyntaxes.
Context `{Syntaxes}.

(** The guard of the collapse asks for [nwords == 0] of the node; a node
    that has a value never passes it. *)
Lemma squash_guard_nonempty hasSibling a n s :
  heap s !! a = Some (Some n) -> words n <> [] ->
  squash_guard hasSibling a s = Done (false, s).
Proof.
  intros Ha Hw. unfold squash_guard.
  rewrite (bind_step _ _ _ _ _ (load_ok _ _ _ Ha)).
  destruct hasSibling; [reflexivity|].
  destruct (child n); [|reflexivity].
  unfold nwords. destruct (words n); [contradiction | reflexivity].
Qed.

(** C2. The sweep does not collapse a single-valued node with its
    single-valued child: on the tree root -> "connection" -> "closed",
    [treeSquash], started at the node "connection" or at the root, leaves
    every node as it was, and the read-out still has "connection" and
    "closed" in two nodes. *)
Theorem treeSquash_keeps_connection_closed :
  treeSquash 8 (Some 1) connection_closed = Done (tt, connection_closed) /\
  treeSquash 8 (Some root) connection_closed = Done (tt, connection_closed) /\
  treeView 8 (heap connection_closed) (Some 1) =
    Some (TNode [wordinfoNew "connection"] 0%Z
            (TNode [wordinfoNew "closed"] 1%Z TNil TNil) TNil).
Proof. repeat split. Qed.

End WithSyntaxes.

(** The same from the input: after [main] on the one line
    "connection closed" the two words are still two nodes. *)
Lemma main_keeps_connection_closed :
  tree_after_main 16 (lines_file ["connection closed"]) =
    Some (TNode [wordinfoNew "[ROOT]"] 0%Z
            (TNode [wordinfoNew "connection"] 0%Z
               (TNode [wordinfoNew "closed"] 1%Z TNil TNil) TNil) TNil).
Proof. vm_compute. reflexivity. Qed.

End Collapse.

(** ** Delimiter correction *)

Module Delimiters.

Lemma separator_no_closer c : is_separator c = true -> closer_of c = None.
Proof.
  unfold is_separator. intros Hc. apply orb_true_iff in Hc.
  destruct Hc as [Hc|Hc]; apply Ascii.eqb_eq in Hc; subst c; reflexivity.
Qed.

(** Characters that are neither openers nor separators are passed over. *)
Lemma delim_scan_skip d : forall j bw L lp ls,
  (forall k, j <= k < j + d ->
     closer_of (char_at bw k) = None /\ is_separator (char_at bw k) = false) ->
  delim_scan (j + d) bw L lp ls = delim_scan j bw L lp ls.
Proof.
  induction d as [|d IH]; intros j bw L lp ls Hk.
  - rewrite Nat.add_0_r. reflexivity.
  - replace (j + S d) with (S (j + d)) by lia. simpl.
    destruct (Hk (j + d)) as [Hc Hs]; [lia|]. rewrite Hc, Hs.
    apply IH. intros k Hlt. apply Hk. lia.
Qed.

Lemma delim_scan_plain j : forall bw L lp ls,
  (forall k, k < j ->
     closer_of (char_at bw k) = None /\ is_separator (char_at bw k) = false) ->
  delim_scan j bw L lp ls = (lp, ls).
Proof.
  intros bw L lp ls Hk.
  change j with (0 + j). rewrite delim_scan_skip; [reflexivity|].
  intros k Hlt. apply Hk. lia.
Qed.

(** Scanning the common prefix "a:b=" of "a:b=1" meets '=' first and then
    ':'; the prefix ends after the ':'. *)
Lemma separator_scan_goes_on : ~ separator_ends_scan.
Proof.
  intros Hclaim.
  specialize (Hclaim "a:b=1" 4 0 3).
  assert (Hscan : delim_scan 4 "a:b=1" 5 4 0 = (2, 0)) by reflexivity.
  change (strlen "a:b=1") with 5 in Hclaim.
  rewrite Hscan in Hclaim.
  assert (Hbad : (2, 0) = (3 + 1, 0)).
  { apply Hclaim.
    - lia.
    - reflexivity.
    - intros k Hk. lia. }
  discriminate Hbad.
Qed.

(** C4, amended. A separator at [j] met before any opener or separator
    sets the prefix length to [j+1] and leaves the suffix length alone,
    and the scan goes on below [j] with these lengths; they are final
    when no earlier character is a separator or an opener. *)
Theorem separator_pins_and_scan_continues bw L lenPrefix lenSuffix j :
  j < lenPrefix ->
  is_separator (char_at bw j) = true ->
  (forall k, j < k < lenPrefix ->
     closer_of (char_at bw k) = None /\ is_separator (char_at bw k) = false) ->
  delim_scan lenPrefix bw L lenPrefix lenSuffix = delim_scan j bw L (j + 1) lenSuffix /\
  ((forall k, k < j ->
      closer_of (char_at bw k) = None /\ is_separator (char_at bw k) = false) ->
   delim_scan lenPrefix bw L lenPrefix lenSuffix = (j + 1, lenSuffix)).
Proof.
  intros Hj Hsep Hplain.
  assert (Hgo : delim_scan lenPrefix bw L lenPrefix lenSuffix
                = delim_scan j bw L (j + 1) lenSuffix).
  { replace lenPrefix with (S j + (lenPrefix - S j)) at 1 by lia.
    rewrite delim_scan_skip.
    - simpl. rewrite (separator_no_closer _ Hsep), Hsep. reflexivity.
    - intros k Hk. apply Hplain. lia. }
  split; [exact Hgo|].
  intros Hbelow. rewrite Hgo. apply delim_scan_plain. exact Hbelow.
Qed.

Lemma separator_pins_and_scan_continues_witness :
  delim_scan 4 "a:b=1" 5 4 0 = delim_scan 3 "a:b=1" 5 4 0 /\
  delim_scan 2 "x=12" 4 2 0 = (2, 0).
Proof.
  split.
  - apply (proj1 (separator_pins_and_scan_continues "a:b=1" 5 4 0 3
                   ltac:(lia) eq_refl ltac:(intros k Hk; lia))).
  - apply (proj2 (separator_pins_and_scan_continues "x=12" 4 2 0 1
                   ltac:(lia) eq_refl ltac:(intros k Hk; lia))).
    intros k Hk. assert (k = 0) as -> by lia. split; reflexivity.
Defined.

(** The values "a:b=1" and "a:b=2" share the prefix "a:b="; factoring
    takes "a:" only. *)
Lemma two_separators_lengths :
  prefix_suffix_lengths [wordinfoNew "a:b=1"; wordinfoNew "a:b=2"] "a:b=1" = (2, 0).
Proof. reflexivity. Qed.

(** An opener further left than the separator, closed inside the suffix,
    takes both lengths over: for "(k=1)" and "(k=2)" the prefix is "(" and
    the suffix ")". *)
Lemma opener_left_of_separator :
  prefix_suffix_lengths [wordinfoNew "(k=1)"; wordinfoNew "(k=2)"] "(k=1)" = (1, 1).
Proof. reflexivity. Qed.

End Delimiters.

(** ** Line preprocessing *)

Module Preprocess.
Section WithSyntaxes.
Context `{Syntaxes}.

(** Where the second parser does not match, the loop copies byte by byte,
    whatever the first parser found. *)
Lemma preprocess_loop_copies buf : forall fuel i bufout,
  (forall k, k < strlen buf -> ln_parseRFC5424Date buf (strlen buf) k = None) ->
  strlen buf - i <= fuel ->
  preprocess_loop fuel buf (strlen buf) i bufout = Done (bufout ++ str_drop i buf)%string.
Proof.
  induction fuel as [|fuel IH]; intros i bufout H5424 Hfuel.
  - simpl. destruct (strlen buf <=? i) eqn:E.
    + apply Nat.leb_le in E. rewrite str_drop_all by exact E.
      rewrite str_append_nil. reflexivity.
    + apply Nat.leb_gt in E. lia.
  - simpl. destruct (strlen buf <=? i) eqn:E.
    + apply Nat.leb_le in E. rewrite str_drop_all by exact E.
      rewrite str_append_nil. reflexivity.
    + apply Nat.leb_gt in E.
      rewrite (H5424 i E).
      destruct (ln_parseRFC3164Date buf (strlen buf) i);
        (rewrite IH by (auto; lia);
         rewrite (str_drop_step buf i E), str_append_assoc;
         replace (i + 1) with (S i) by lia; reflexivity).
Qed.

(** C8. A match of the RFC3164 parser is never replaced: on a line in
    which the RFC5424 parser matches nowhere, [preprocessLine] returns the
    line unchanged, whatever the RFC3164 parser reports.  The outcome of
    the first parser is overwritten by the second one before it is used. *)
Theorem rfc3164_match_is_discarded buf :
  (forall k, k < strlen buf -> ln_parseRFC5424Date buf (strlen buf) k = None) ->
  preprocessLine buf (strlen buf) = Done buf.
Proof.
  intros H5424. unfold preprocessLine.
  rewrite preprocess_loop_copies by (auto; lia). reflexivity.
Qed.

End WithSyntaxes.

Lemma rfc3164_match_is_discarded_witness :
  @ln_parseRFC3164Date ref_syntaxes rfc3164_line (strlen rfc3164_line) 0 = Some 15 /\
  @preprocessLine ref_syntaxes rfc3164_line (strlen rfc3164_line) = Done rfc3164_line.
Proof.
  split; [reflexivity|].
  apply (@rfc3164_match_is_discarded ref_syntaxes rfc3164_line).
  intros k Hk. change (strlen rfc3164_line) with 41 in *.
  do 41 (destruct k as [|k]; [reflexivity|]). lia.
Defined.

(** The second parser is honoured. *)
Lemma rfc5424_match_is_replaced :
  @preprocessLine ref_syntaxes "at 2015-01-02T10:11:12Z up" 26 = Done "at %date-rfc5424% up".
Proof. reflexivity. Qed.

End Preprocess.

(** ** Reading lines *)

Module Reading.

(** A read that fills the buffer stops in the middle of the line. *)
Lemma readLine_full l : forall count fp rest,
  String.length l = count -> no_newline l = true ->
  pending fp = (l ++ rest)%string ->
  readLine count fp = (l, mkFile rest (at_eof fp)).
Proof.
  induction l as [|c l IH]; intros count fp rest Hlen Hnl Hp; simpl in Hlen; subst count.
  - simpl. destruct fp as [p e]. simpl in Hp. subst p. reflexivity.
  - simpl in Hnl. apply andb_true_iff in Hnl. destruct Hnl as [Hc Hnl].
    simpl. unfold fgetc. rewrite Hp. simpl.
    apply negb_true_iff in Hc. rewrite Hc.
    rewrite (IH (String.length l) (mkFile (l ++ rest) (at_eof fp)) rest eq_refl Hnl eq_refl).
    reflexivity.
Qed.

Lemma after_newline_app l : forall rest,
  no_newline l = true -> after_newline (l ++ rest) = after_newline rest.
Proof.
  induction l as [|c l IH]; intros rest Hnl; [reflexivity|].
  simpl in Hnl. apply andb_true_iff in Hnl. destruct Hnl as [Hc Hnl].
  apply negb_true_iff in Hc. rewrite str_append_cons. simpl. rewrite Hc.
  apply IH. exact Hnl.
Qed.

Lemma long_line_length n : String.length (string_of_list_ascii (repeat "a"%char n)) = n.
Proof. induction n as [|n IH]; [reflexivity | simpl; f_equal; exact IH]. Qed.

Lemma long_line_no_newline n : no_newline (string_of_list_ascii (repeat "a"%char n)) = true.
Proof. induction n as [|n IH]; [reflexivity | exact IH]. Qed.

Lemma long_file_read :
  readLine (MAXLINE - 1) long_file = (long_line, mkFile excess false).
Proof.
  apply (readLine_full long_line (MAXLINE - 1) long_file excess).
  - apply long_line_length.
  - apply long_line_no_newline.
  - reflexivity.
Qed.

(** A line of [MAXLINE] bytes: the last byte stays in the stream and is
    the next line that is read. *)
Lemma excess_is_next_line : ~ excess_is_dropped.
Proof.
  intros Hclaim. specialize (Hclaim long_file).
  rewrite long_file_read in Hclaim.
  unfold long_file in Hclaim.
  cbn [snd pending] in Hclaim.
  rewrite (after_newline_app long_line _ (long_line_no_newline _)) in Hclaim.
  discriminate Hclaim.
Qed.

Section WithSyntaxes.
Context `{Syntaxes}.

(** C9, amended. A line longer than the buffer is cut, not truncated: the
    read takes its first [MAXLINE - 1] bytes and leaves every later byte
    in the stream, and the next turn of the reading loop of [processFile]
    starts at the first byte that did not fit. *)
Theorem long_line_is_split fp l rest fuel :
  String.length l = MAXLINE - 1 -> no_newline l = true ->
  pending fp = (l ++ rest)%string -> at_eof fp = false ->
  readLine (MAXLINE - 1) fp = (l, mkFile rest false) /\
  processFile_loop (S fuel) fp =
    ((let* lnpreproc := lift (preprocessLine l (String.length l)) in
      treeAddLine (S fuel) (c_str lnpreproc)) ;;;
     processFile_loop fuel (mkFile rest false)).
Proof.
  intros Hlen Hnl Hp Heof.
  assert (Hread : readLine (MAXLINE - 1) fp = (l, mkFile rest false)).
  { rewrite <- Heof. apply readLine_full; assumption. }
  split; [exact Hread|].
  change (processFile_loop (S fuel) fp) with
    (if feof fp then ret fp
     else let '(lnbuf, fp') := readLine (MAXLINE - 1) fp in
          (if 0 <? String.length lnbuf then
             let* lnpreproc := lift (preprocessLine lnbuf (String.length lnbuf)) in
             treeAddLine (S fuel) (c_str lnpreproc)
           else ret tt) ;;;
          processFile_loop fuel fp').
  unfold feof. rewrite Heof, Hread, Hlen. reflexivity.
Qed.

End WithSyntaxes.

Lemma long_line_is_split_witness :
  readLine (MAXLINE - 1) long_file =
    (long_line, mkFile excess false).
Proof.
  refine (proj1 (@long_line_is_split ref_syntaxes long_file long_line excess 0 _ _ _ _)).
  - apply long_line_length.
  - apply long_line_no_newline.
  - reflexivity.
  - reflexivity.
Defined.

End Reading.

(** ** Prefix factoring *)

Module Factoring.

Section WithSyntaxes.
Context `{Syntaxes}.

(** C3. On the value set "a=1", "a=22", "a=333" the factoring finds the
    prefix "a=" (length 2) and no suffix, the node keeps "a=" and gets a
    new child with the residual values, each of them is detected as
    [%posint%], and squashing leaves one [%posint%] value; its count is
    1, not 3: the two entries merged into it are not added. *)
Theorem factoring_a_eq_counts_one :
  syntax_posint "1" 1 = Some 1 ->
  syntax_posint "22" 2 = Some 2 ->
  syntax_posint "333" 3 = Some 3 ->
  prefix_suffix_lengths a_values "a=1" = (2, 0) /\
  checkPrefixes 2 a_session = Done (tt, a_factored) /\
  occurs posint_token = 1%Z.
Proof.
  intros H1 H2 H3. split; [reflexivity|]. split; [|reflexivity].
  run. rewrite H1. run. rewrite H2. run. rewrite H3. reflexivity.
Qed.

End WithSyntaxes.

Lemma factoring_a_eq_counts_one_witness :
  prefix_suffix_lengths a_values "a=1" = (2, 0) /\
  @checkPrefixes ref_syntaxes 2 a_session = Done (tt, a_factored) /\
  occurs posint_token = 1%Z.
Proof.
  exact (@factoring_a_eq_counts_one ref_syntaxes eq_refl eq_refl eq_refl).
Defined.

(** The three lines build the tree of the theorem. *)
Lemma a_session_built :
  @treeAddLines ref_syntaxes 8 a_lines with_root = Done (tt, a_session).
Proof. vm_compute. reflexivity. Qed.

(** The same from the input: after [main] the slot between "k" and "e" is
    "a=" followed by one [%posint%] that counts 1, while "k" and "e"
    count 3. *)
Lemma main_a_eq_counts_one :
  tree_after_main 16 (lines_file a_lines) =
    Some (TNode [wordinfoNew "[ROOT]"] 0%Z
            (TNode [set_occurs 3%Z (wordinfoNew "k")] 0%Z
               (TNode [set_isSubword (wordinfoNew "a=")] 0%Z
                  (TNode [posint_token] 0%Z
                     (TNode [set_occurs 3%Z (wordinfoNew "e")] 3%Z TNil TNil) TNil)
                  TNil)
               TNil)
            TNil).
Proof. vm_compute. reflexivity. Qed.

End Factoring.

(** ** Tokenization *)

Module Tokens.

Lemma span_while_app p a : forall b,
  str_forall p a = true ->
  span_while p (a ++ b) = String.length a + span_while p b.
Proof.
  induction a as [|c a IH]; intros b Ha; [reflexivity|].
  simpl in Ha. apply andb_true_iff in Ha. destruct Ha as [Hc Ha].
  rewrite str_append_cons. simpl. rewrite Hc, IH by exact Ha. reflexivity.
Qed.

Lemma span_while_stop p q a b :
  (forall c, q c = true -> p c = false) ->
  a <> EmptyString -> str_forall q a = true ->
  span_while p (a ++ b) = 0.
Proof.
  intros Hpq Hne Ha. destruct a as [|c a]; [contradiction|].
  simpl in Ha. apply andb_true_iff in Ha. destruct Ha as [Hc _].
  rewrite str_append_cons. simpl. rewrite (Hpq c Hc). reflexivity.
Qed.

Lemma str_drop_add a : forall b s, str_drop (a + b) s = str_drop b (str_drop a s).
Proof.
  induction a as [|a IH]; intros b s; [reflexivity|].
  destruct s as [|c s]; simpl.
  - destruct b; reflexivity.
  - apply IH.
Qed.

Section WithSyntaxes.
Context `{Syntaxes}.

(** [getWord] on a line that starts with blanks [pre], then the word [w],
    then [rest], with nothing on the word stack: the word is cut out and,
    unless it starts with the placeholder marker, handed to the syntax
    detection. *)
Lemma getWord_raw pre w rest s :
  wordStack s = [] ->
  str_forall isspace pre = true ->
  w <> EmptyString -> str_forall nonspace w = true ->
  span_while nonspace rest = 0 ->
  getWord (pre ++ (w ++ rest)) s =
    (if Ascii.eqb (char_at w 0) "%" then ret (Some (wordinfoNew w), rest)
     else let* wi' := wordDetectSyntax (wordinfoNew w) (strlen w) true in
          ret (Some wi', rest)) s.
Proof.
  intros Hst Hpre Hne Hw Hrest.
  assert (Hlen : 0 < String.length w) by (destruct w; [contradiction | simpl; lia]).
  unfold getWord. unfold bind at 1. unfold wordstackPop. rewrite Hst.
  replace (Nat.eqb (strlen (pre ++ (w ++ rest))) 0) with false.
  2:{ symmetry. apply Nat.eqb_neq. unfold strlen. rewrite !str_length_app. lia. }
  assert (Hb : span_while isspace (pre ++ (w ++ rest)) = String.length pre).
  { rewrite span_while_app by exact Hpre.
    rewrite (span_while_stop isspace nonspace w rest); [lia | | exact Hne | exact Hw].
    intros c Hc. unfold nonspace in Hc. apply negb_true_iff in Hc. exact Hc. }
  cbv zeta. rewrite Hb. rewrite str_drop_app.
  change (fun c => negb (isspace c)) with nonspace.
  rewrite (span_while_app nonspace w rest Hw), Hrest, Nat.add_0_r.
  replace (Nat.eqb (String.length pre) (String.length pre + String.length w)) with false.
  2:{ symmetry. apply Nat.eqb_neq. lia. }
  replace (String.length pre + String.length w - String.length pre)
    with (String.length w) by lia.
  rewrite str_take_app.
  rewrite (str_drop_add (String.length pre) (String.length w)), !str_drop_app.
  reflexivity.
Qed.

(** C7. A raw word [w] that is an IPv4 address of [n] bytes, a '/', and a
    positive integer up to its end, and that no earlier recognizer takes
    as a whole, is rewritten to [%ipv4%] while [%posint%] and then "/" are
    pushed on the word stack; the next two calls of [getWord] pop "/" and
    then [%posint%], without reading further in the line.  The three
    words reach the insertion in the order [%ipv4%], "/", [%posint%]. *)
Theorem ipv4_mask_is_stacked pre w rest s n m :
  wordStack s = [] ->
  str_forall isspace pre = true ->
  str_forall nonspace w = true ->
  span_while nonspace rest = 0 ->
  Ascii.eqb (char_at w 0) "%" = false ->
  full_match (syntax_posint w (strlen w)) (strlen w) = false ->
  full_match (ln_parseTime24hr w (strlen w)) (strlen w) = false ->
  full_match (ln_parseDuration w (strlen w)) (strlen w) = false ->
  syntax_ipv4 w (strlen w) = Some n ->
  n < strlen w ->
  char_at w n = "/"%char ->
  syntax_posint (str_drop (n + 1) w) (strlen w - (n + 1)) = Some m ->
  n + 1 + m = strlen w ->
  let s1 := mkSession (heap s) [slash_token; posint_token] in
  let s2 := mkSession (heap s) [posint_token] in
  getWord (pre ++ (w ++ rest)) s = Done ((Some ipv4_token, rest), s1) /\
  getWord rest s1 = Done ((Some slash_token, rest), s2) /\
  getWord rest s2 = Done ((Some posint_token, rest), s).
Proof.
  intros Hst Hpre Hw Hrest Hpct Hpos Htime Hdur Hip Hn Hslash Hmask Hend s1 s2.
  assert (Hne : w <> EmptyString).
  { intros ->. simpl in Hn. lia. }
  split; [|split].
  - rewrite (getWord_raw pre w rest s Hst Hpre Hne Hw Hrest), Hpct.
    unfold wordDetectSyntax. cbn [word wordinfoNew].
    rewrite Hpos, Htime, Hdur, Hip.
    replace (Nat.eqb n (strlen w)) with false by (symmetry; apply Nat.eqb_neq; lia).
    rewrite Hslash. cbn [andb Ascii.eqb Bool.eqb]. rewrite Hmask.
    replace (Nat.eqb (n + 1 + m) (strlen w)) with true by (symmetry; apply Nat.eqb_eq; lia).
    unfold bind, wordstackPush, ret. rewrite Hst. reflexivity.
  - reflexivity.
  - unfold getWord, bind, wordstackPop, ret. cbn. destruct s as [h st].
    simpl in Hst. subst st. reflexivity.
Qed.

End WithSyntaxes.

Lemma ipv4_mask_is_stacked_witness :
  let s := mkSession [] [] in
  let s1 := mkSession [] [slash_token; posint_token] in
  let s2 := mkSession [] [posint_token] in
  @getWord ref_syntaxes " 10.0.0.1/24 up" s = Done ((Some ipv4_token, " up"), s1) /\
  @getWord ref_syntaxes " up" s1 = Done ((Some slash_token, " up"), s2) /\
  @getWord ref_syntaxes " up" s2 = Done ((Some posint_token, " up"), s).
Proof.
  exact (@ipv4_mask_is_stacked ref_syntaxes " " "10.0.0.1/24" " up" (mkSession [] []) 8 2
           eq_refl eq_refl eq_refl eq_refl eq_refl eq_refl eq_refl eq_refl eq_refl
           ltac:(unfold strlen; simpl; lia) eq_refl eq_refl eq_refl).
Defined.

(** The line "10.0.0.1/24" arrives in the tree as three nodes in a row. *)
Lemma ipv4_mask_line_tree :
  tree_after_main 16 (lines_file ["10.0.0.1/24"]) =
    Some (TNode [wordinfoNew "[ROOT]"] 0%Z
            (TNode [ipv4_token] 0%Z
               (TNode [slash_token] 0%Z
                  (TNode [posint_token] 1%Z TNil TNil) TNil) TNil) TNil).
Proof. vm_compute. reflexivity. Qed.

End Tokens.

(** ** Insertion *)

Module Insertion.

Lemma findExisting_none fuel : forall h start l prev w s,
  heap s = h -> chain h start l -> Forall (lacks_word h w) l -> length l < fuel ->
  exists prev', findExisting fuel start prev w s = Done ((None, prev'), s).
Proof.
  induction fuel as [|fuel IH]; intros h start l prev w s Hh Hch Hl Hf; [lia|].
  destruct Hch as [|a n l Ha Hch]; simpl.
  - eexists. reflexivity.
  - rewrite (bind_step _ _ _ _ _ (load_ok a n s ltac:(rewrite Hh; exact Ha))).
    inversion Hl as [|? ? Hla Hl']; subst.
    rewrite (Hla n Ha).
    apply (IH (heap s) (sibling n) l); auto. simpl in Hf. lia.
Qed.

Lemma findByNext_first fuel : forall h start l1 n l2 nn w s,
  heap s = h -> chain h start (l1 ++ n :: l2) ->
  Forall (not_followed_by h w) l1 ->
  h !! n = Some (Some nn) -> child_first_word h nn = Some w ->
  length l1 < fuel ->
  findByNext fuel start w s = Done (Some n, s).
Proof.
  induction fuel as [|fuel IH]; intros h start l1 n l2 nn w s Hh Hch Hl1 Hn Hw Hf; [lia|].
  destruct l1 as [|a l1]; simpl in Hch; inversion Hch as [|? n0 ? Ha Hch']; subst; simpl.
  - rewrite (bind_step _ _ _ _ _ (load_ok n n0 s Ha)).
    assert (n0 = nn) as -> by congruence.
    unfold child_first_word in Hw.
    destruct (child nn) as [c|] eqn:Hc; [|discriminate]. simpl in Hw.
    destruct (heap s !! c) as [[cn|]|] eqn:Hcn; try discriminate. simpl in Hw.
    destruct (words cn) as [|w0 ws] eqn:Hws; [discriminate|]. simpl in Hw.
    injection Hw as Hw.
    rewrite (bind_step _ _ _ _ _ (load_ok c cn s Hcn)).
    rewrite Hws. unfold word_at. simpl. unfold bind, ret.
    rewrite Hw, streq_refl. reflexivity.
  - rewrite (bind_step _ _ _ _ _ (load_ok a n0 s Ha)).
    inversion Hl1 as [|? ? Hnf Hl1']; subst.
    assert (Hrec : findByNext fuel (sibling n0) w s = Done (Some n, s)).
    { apply (IH (heap s) (sibling n0) l1 n l2 nn); auto. simpl in Hf. lia. }
    destruct (Hnf n0 Ha) as [Hnone | [w' [Hw' Hne]]].
    + rewrite Hnone. exact Hrec.
    + unfold child_first_word in Hw'.
      destruct (child n0) as [c|] eqn:Hc; [|discriminate]. simpl in Hw'.
      destruct (heap s !! c) as [[cn|]|] eqn:Hcn; try discriminate. simpl in Hw'.
      destruct (words cn) as [|w0 ws] eqn:Hws; [discriminate|]. simpl in Hw'.
      injection Hw' as Hw'.
      rewrite (bind_step _ _ _ _ _ (load_ok c cn s Hcn)).
      rewrite Hws. unfold word_at. simpl. unfold bind at 1, ret at 1.
      rewrite Hw', (streq_neq _ _ Hne). exact Hrec.
Qed.

(** The lookahead step of [treeAddToLevel]: no node of the chain under
    [level] has the word, [n] is the first node of the chain whose child
    starts with the lookahead word; the word becomes one more value of
    [n], and no node is created. *)
Lemma treeAddToLevel_lookahead fuel s level lv l1 n l2 nn wi nextwi :
  heap s !! level = Some (Some lv) ->
  chain (heap s) (child lv) (l1 ++ n :: l2) ->
  Forall (lacks_word (heap s) (word wi)) (l1 ++ n :: l2) ->
  Forall (not_followed_by (heap s) (word nextwi)) l1 ->
  heap s !! n = Some (Some nn) ->
  child_first_word (heap s) nn = Some (word nextwi) ->
  length (l1 ++ n :: l2) < fuel ->
  treeAddToLevel fuel level wi (Some nextwi) s =
    Done (n, mkSession (<[n := Some (set_words (words nn ++ [set_occurs 1%Z wi]) nn)]> (heap s))
                       (wordStack s)).
Proof.
  intros Hlv Hch Hlack Hnf Hn Hnext Hfuel.
  unfold treeAddToLevel.
  rewrite (bind_step _ _ _ _ _ (load_ok level lv s Hlv)).
  destruct (findExisting_none fuel (heap s) (child lv) _ None (word wi) s
              eq_refl Hch Hlack Hfuel) as [prev' Hfe].
  rewrite (bind_step _ _ _ _ _ Hfe).
  assert (Hfb : findByNext fuel (child lv) (word nextwi) s = Done (Some n, s)).
  { apply (findByNext_first fuel (heap s) (child lv) l1 n l2 nn); auto.
    rewrite length_app in Hfuel. simpl in Hfuel. lia. }
  rewrite bind_assoc, (bind_step _ _ _ _ _ (load_ok level lv s Hlv)).
  rewrite bind_assoc, (bind_step _ _ _ _ _ Hfb).
  rewrite bind_assoc, (bind_step _ _ _ _ _ (logrec_addWord_ok n nn wi s Hn)).
  reflexivity.
Qed.

(** C6. Insertion with lookahead: when no node of the chain under the
    level has the word, and [n] is the first node of that chain whose
    child starts with the lookahead word, [treeAddToLevel] returns [n]
    with the word appended to its values and creates no node.  So the
    lines "user bob login" and "user alice login" give one slot with
    "bob" and "alice" between a shared "user" and a shared "login". *)
Theorem lookahead_merges_values :
  (forall fuel s level lv l1 n l2 nn wi nextwi,
     heap s !! level = Some (Some lv) ->
     chain (heap s) (child lv) (l1 ++ n :: l2) ->
     Forall (lacks_word (heap s) (word wi)) (l1 ++ n :: l2) ->
     Forall (not_followed_by (heap s) (word nextwi)) l1 ->
     heap s !! n = Some (Some nn) ->
     child_first_word (heap s) nn = Some (word nextwi) ->
     length (l1 ++ n :: l2) < fuel ->
     treeAddToLevel fuel level wi (Some nextwi) s =
       Done (n, mkSession
                  (<[n := Some (set_words (words nn ++ [set_occurs 1%Z wi]) nn)]> (heap s))
                  (wordStack s))) /\
  (exists s, @treeAddLines ref_syntaxes 8 user_lines with_root = Done (tt, s) /\
             treeView 8 (heap s) (Some root) = Some user_tree).
Proof.
  split.
  - apply treeAddToLevel_lookahead.
  - eexists. split; [vm_compute; reflexivity | reflexivity].
Qed.

Lemma lookahead_merges_values_witness :
  treeAddToLevel 8 1 (wordinfoNew "alice") (Some (wordinfoNew "login")) after_user =
    Done (2, mkSession
               [Some (mkNode None None (Some 1) 0%Z [wordinfoNew "[ROOT]"]);
                Some (mkNode (Some 0) None (Some 2) 0%Z [set_occurs 2%Z (wordinfoNew "user")]);
                Some (mkNode (Some 1) None (Some 3) 0%Z [wordinfoNew "bob"; wordinfoNew "alice"]);
                Some (mkNode (Some 2) None None 1%Z [wordinfoNew "login"])]
               []).
Proof.
  apply (proj1 lookahead_merges_values 8 after_user 1
           (mkNode (Some 0) None (Some 2) 0%Z [set_occurs 2%Z (wordinfoNew "user")])
           [] 2 [] (mkNode (Some 1) None (Some 3) 0%Z [wordinfoNew "bob"])
           (wordinfoNew "alice") (wordinfoNew "login")).
  - reflexivity.
  - apply (chain_cons _ 2 (mkNode (Some 1) None (Some 3) 0%Z [wordinfoNew "bob"]) []);
      [reflexivity | apply chain_nil].
  - constructor; [|constructor].
    intros na Hna. injection Hna as <-. reflexivity.
  - constructor.
  - reflexivity.
  - reflexivity.
  - simpl. lia.
Defined.

End Insertion.

(** ** Suffix factoring *)

Module Suffix.

Section WithSyntaxes.
Context `{Syntaxes}.

Lemma remove_prefix_all lenPrefix ws s :
  Forall (fun wi => (lenPrefix <= strlen (word wi))%nat) ws ->
  mapM (remove_prefix lenPrefix) ws s =
    Done (map (fun wi => set_word (str_drop lenPrefix (word wi)) wi) ws, s).
Proof.
  induction 1 as [|wi ws Hwi _ IH]; [reflexivity|].
  simpl. unfold bind at 1. unfold remove_prefix at 1.
  replace (lenPrefix <=? strlen (word wi)) with true
    by (symmetry; apply Nat.leb_le; exact Hwi).
  unfold ret at 1. rewrite (bind_step _ _ _ _ _ IH). reflexivity.
Qed.

(** The suffix block on a node without child stops at the write to
    [newnode->child->parent]. *)
Lemma suffix_block_faults s node n w0 ws lenSuffix :
  heap s !! node = Some (Some n) ->
  child n = None ->
  words n = w0 :: ws ->
  lenSuffix <= strlen (word w0) ->
  disjoin_suffix node lenSuffix s = Fault NullDeref.
Proof.
  intros Hn Hc Hw Hle.
  assert (Hlt : node < length (heap s)) by (eapply lookup_lt_Some; exact Hn).
  unfold disjoin_suffix.
  mload. rewrite Hw. unfold word_at at 1. cbn [lookup list_lookup].
  unfold bind at 1. unfold ret at 1. cbv zeta.
  replace (strlen (word w0) <? lenSuffix) with false
    by (symmetry; apply Nat.ltb_ge; exact Hle).
  unfold bind at 1. unfold ret at 1.
  rewrite (bind_step _ _ _ _ _ (logrec_newNode_ok _ _ _)).
  mload. mload. mstore. mload.
  cbn [child set_child]. rewrite Hc. reflexivity.
Qed.

(** The prefix block: the new node takes the values, without the prefix,
    and the child of the node. *)
Lemma prefix_block_ok s node n w0 ws lenPrefix :
  heap s !! node = Some (Some n) ->
  words n = w0 :: ws ->
  Forall (fun wi => (lenPrefix <= strlen (word wi))%nat) (w0 :: ws) ->
  exists s',
    disjoin_prefix node lenPrefix w0 s = Done (length (heap s), s') /\
    heap s' !! length (heap s) =
      Some (Some (mkNode (Some node) None (child n) 0%Z
                    (map (fun wi => set_word (str_drop lenPrefix (word wi)) wi) (w0 :: ws)))).
Proof.
  intros Hn Hw Hall.
  assert (Hlt : node < length (heap s)) by (eapply lookup_lt_Some; exact Hn).
  assert (Hw0 : lenPrefix <= strlen (word w0)) by (inversion Hall; assumption).
  unfold disjoin_prefix.
  replace (strlen (word w0) + 1 <? lenPrefix) with false
    by (symmetry; apply Nat.ltb_ge; lia).
  unfold bind at 1. unfold ret at 1. cbv zeta.
  rewrite (bind_step _ _ _ _ _ (logrec_newNode_ok _ _ _)).
  mload. mload. mstore. mstore.
  erewrite bind_step; [| eapply logrec_addWord_ok; lk ].
  mload. mload. mstore. mstore. mload.
  cbn [words set_words set_child]. rewrite Hw.
  rewrite (bind_step _ _ _ _ _ (remove_prefix_all lenPrefix (w0 :: ws) _ Hall)).
  mstore. unfold ret. eexists. split; [reflexivity|].
  lk.
Qed.

(** C10. Suffix factoring needs a child: on a node without child, with
    values long enough for the two lengths and a suffix length that is
    not zero, [disjoinCommon] stops with a NULL dereference, at the
    back-reference it writes into the child of the new suffix node.  With
    a prefix the node then current is the new one, which has taken over
    the missing child. *)
Theorem suffix_needs_child s node n w0 ws lenPrefix lenSuffix :
  heap s !! node = Some (Some n) ->
  child n = None ->
  words n = w0 :: ws ->
  Forall (fun wi => (lenPrefix <= strlen (word wi))%nat) (w0 :: ws) ->
  0 < lenSuffix <= strlen (word w0) - lenPrefix ->
  disjoinCommon node lenPrefix lenSuffix s = Fault NullDeref.
Proof.
  intros Hn Hc Hw Hall [Hpos Hle].
  unfold disjoinCommon.
  rewrite (bind_step _ _ _ _ _ (load_ok node n s Hn)).
  rewrite Hw. unfold word_at at 1. cbn [lookup list_lookup].
  unfold bind at 1. unfold ret at 1.
  replace (0 <? lenSuffix) with true by (symmetry; apply Nat.ltb_lt; exact Hpos).
  destruct (0 <? lenPrefix) eqn:Hp.
  - destruct (prefix_block_ok s node n w0 ws lenPrefix Hn Hw Hall) as [s' [Hrun Hnew]].
    rewrite (bind_step _ _ _ _ _ Hrun).
    apply bind_fault.
    eapply suffix_block_faults.
    + exact Hnew.
    + exact Hc.
    + reflexivity.
    + cbn [word set_word]. unfold strlen. rewrite str_drop_length. unfold strlen in Hle. lia.
  - apply Nat.ltb_ge in Hp. assert (lenPrefix = 0) as -> by lia.
    unfold bind at 1. unfold ret at 1.
    apply bind_fault.
    eapply suffix_block_faults; eauto. lia.
Qed.

End WithSyntaxes.

Lemma suffix_needs_child_witness :
  @disjoinCommon ref_syntaxes 1 0 1 childless = Fault NullDeref.
Proof.
  apply (@suffix_needs_child ref_syntaxes childless 1
           (mkNode (Some 0) None None 2%Z [wordinfoNew "xa"; wordinfoNew "ya"])
           (wordinfoNew "xa") [wordinfoNew "ya"] 0 1).
  - reflexivity.
  - reflexivity.
  - reflexivity.
  - repeat constructor.
  - simpl. lia.
Defined.

(** [checkPrefixes] finds the common suffix "a" of these values and runs
    into the fault. *)
Lemma checkPrefixes_childless :
  prefix_suffix_lengths [wordinfoNew "xa"; wordinfoNew "ya"] "xa" = (0, 1) /\
  @checkPrefixes ref_syntaxes 1 childless = Fault NullDeref.
Proof. split; reflexivity. Qed.

End Suffix.

(** ** Insertion returns *)

Module Safety.

Lemma is_node_lt h a : is_node h a -> a < length h.
Proof. intros [n Hn]. eapply lookup_lt_Some. exact Hn. Qed.

Lemma is_node_store h a n' c : a < length h -> is_node h c -> is_node (<[a := Some n']> h) c.
Proof.
  intros Ha [n Hn]. destruct (decide (a = c)) as [->|Hne].
  - exists n'. apply list_lookup_insert_eq. exact Ha.
  - exists n. rewrite list_lookup_insert_ne by exact Hne. exact Hn.
Qed.

Lemma is_node_alloc h x c : is_node h c -> is_node (h ++ [x]) c.
Proof.
  intros [n Hn]. exists n. rewrite lookup_app_l; [exact Hn|].
  eapply lookup_lt_Some. exact Hn.
Qed.

Lemma ptr_ok_mono h h' a p :
  (forall c, is_node h c -> is_node h' c) -> ptr_ok h a p -> ptr_ok h' a p.
Proof. intros Hm. destruct p as [c|]; [|trivial]. intros [Hlt Hc]. split; auto. Qed.

Lemma node_ok_mono h h' a n :
  (forall c, is_node h c -> is_node h' c) -> node_ok h a n -> node_ok h' a n.
Proof.
  intros Hm (Hw & Hc & Hs). repeat split; [exact Hw | |]; eapply ptr_ok_mono; eauto.
Qed.

(** A store keeps the arena well formed when the new contents are. *)
Lemma wf_store h a n0 n' :
  wf h -> h !! a = Some (Some n0) -> node_ok h a n' -> wf (<[a := Some n']> h).
Proof.
  intros Hwf Ha Hok b m Hb.
  assert (Hlt : a < length h) by (eapply lookup_lt_Some; exact Ha).
  assert (Hm : forall c, is_node h c -> is_node (<[a := Some n']> h) c)
    by (intros c; apply is_node_store; exact Hlt).
  destruct (decide (a = b)) as [->|Hne].
  - rewrite list_lookup_insert_eq in Hb by exact Hlt. injection Hb as <-.
    eapply node_ok_mono; eauto.
  - rewrite list_lookup_insert_ne in Hb by exact Hne.
    eapply node_ok_mono; [exact Hm | apply Hwf; exact Hb].
Qed.

(** So does the allocation of a node that points nowhere. *)
Lemma wf_alloc h p nt ws :
  wf h -> ws <> [] -> wf (h ++ [Some (mkNode p None None nt ws)]).
Proof.
  intros Hwf Hws b m Hb.
  destruct (decide (b < length h)) as [Hlt|Hge].
  - rewrite lookup_app_l in Hb by exact Hlt.
    eapply node_ok_mono; [intros c; apply is_node_alloc | apply Hwf; exact Hb].
  - rewrite lookup_app_r in Hb by lia.
    destruct (b - length h) as [|k] eqn:Hk; simpl in Hb; [|destruct k; discriminate].
    injection Hb as <-. repeat split; simpl; auto.
Qed.

Lemma hasWord_from_lookup ws : forall k w i,
  hasWord_from k ws w = Some i -> exists wv, ws !! (i - k) = Some wv /\ k <= i.
Proof.
  induction ws as [|x ws IH]; intros k w i Hi; [discriminate|].
  simpl in Hi. destruct (streq (word x) w).
  - injection Hi as <-. exists x. rewrite Nat.sub_diag. split; [reflexivity | lia].
  - destruct (IH (S k) w i Hi) as (wv & Hwv & Hle).
    exists wv. split; [|lia].
    replace (i - k) with (S (i - S k)) by lia. exact Hwv.
Qed.

Lemma insert_nonempty (ws : list wordinfo) i w : ws <> [] -> <[i := w]> ws <> [].
Proof. destruct ws as [|x ws]; [contradiction|]. destruct i; discriminate. Qed.

Lemma chain_fuel_next h e n :
  wf h -> h !! e = Some (Some n) -> chain_fuel h (sibling n) < chain_fuel h (Some e).
Proof.
  intros Hwf He. destruct (Hwf e n He) as (_ & _ & Hs).
  assert (Hlt : e < length h) by (eapply lookup_lt_Some; exact He).
  destruct (sibling n) as [sb|]; simpl in *.
  - destruct Hs as [Hlt' Hsb]. apply is_node_lt in Hsb. lia.
  - lia.
Qed.

Lemma ptr_node_sibling h e n : wf h -> h !! e = Some (Some n) -> ptr_node h (sibling n).
Proof.
  intros Hwf He c Hc. destruct (Hwf e n He) as (_ & _ & Hs). rewrite Hc in Hs. apply Hs.
Qed.

Lemma ptr_node_child h e n : wf h -> h !! e = Some (Some n) -> ptr_node h (child n).
Proof.
  intros Hwf He c Hc. destruct (Hwf e n He) as (_ & Hs & _). rewrite Hc in Hs. apply Hs.
Qed.

Lemma findExisting_runs fuel : forall existing prev w s,
  wf (heap s) -> ptr_node (heap s) existing -> ptr_node (heap s) prev ->
  chain_fuel (heap s) existing <= fuel ->
  exists r prev' s',
    findExisting fuel existing prev w s = Done ((r, prev'), s') /\
    same_shape s s' /\ ptr_node (heap s') r /\ ptr_node (heap s') prev'.
Proof.
  induction fuel as [|fuel IH]; intros existing prev w s Hwf Hex Hprev Hfuel.
  { destruct existing; simpl in Hfuel; lia. }
  simpl. destruct existing as [e|].
  - destruct (Hex e eq_refl) as [n Hn].
    rewrite (bind_step _ _ _ _ _ (load_ok e n s Hn)).
    destruct (logrec_hasWord n w) as [i|] eqn:Hhas.
    + unfold logrec_hasWord in Hhas.
      destruct (hasWord_from_lookup _ _ _ _ Hhas) as (wv & Hwv & _).
      rewrite Nat.sub_0_r in Hwv.
      unfold word_at. rewrite Hwv. unfold bind at 1. unfold ret at 1.
      erewrite bind_step; [| eapply store_ok; exact Hn].
      unfold ret. do 3 eexists. split; [reflexivity|].
      assert (Hlt : e < length (heap s)) by (eapply lookup_lt_Some; exact Hn).
      assert (Hm : forall c, is_node (heap s) c ->
                     is_node (<[e := Some (set_words
                        (<[i := set_occurs (int_wrap (occurs wv + 1)) wv]> (words n)) n)]>
                        (heap s)) c)
        by (intros c; apply is_node_store; exact Hlt).
      split; [split; [|split; [|split]] | split]; cbn [heap wordStack].
      * apply (wf_store _ _ n _ Hwf Hn).
        destruct (Hwf e n Hn) as (Hne & Hc & Hs).
        repeat split; [apply insert_nonempty; exact Hne | exact Hc | exact Hs].
      * apply length_insert.
      * exact Hm.
      * reflexivity.
      * intros c [= <-]. apply Hm. exists n. exact Hn.
      * intros c Hc. apply Hm. apply Hprev. exact Hc.
    + destruct (IH (sibling n) (Some e) w s Hwf) as (r & prev' & s' & Hrun & Hsh);
        [eapply ptr_node_sibling; eauto | intros c [= <-]; exists n; exact Hn | |].
      { pose proof (chain_fuel_next _ _ _ Hwf Hn). lia. }
      exists r, prev', s'. split; [exact Hrun | exact Hsh].
  - unfold ret. exists None, prev, s. split; [reflexivity|].
    split; [split; [|split; [|split]] | split]; auto.
Qed.

Lemma findByNext_runs fuel : forall c w s,
  wf (heap s) -> ptr_node (heap s) c -> chain_fuel (heap s) c <= fuel ->
  exists r, findByNext fuel c w s = Done (r, s) /\ ptr_node (heap s) r.
Proof.
  induction fuel as [|fuel IH]; intros c w s Hwf Hc Hfuel.
  { destruct c; simpl in Hfuel; lia. }
  simpl. destruct c as [c|].
  - destruct (Hc c eq_refl) as [n Hn].
    rewrite (bind_step _ _ _ _ _ (load_ok c n s Hn)).
    assert (Hrec : exists r, findByNext fuel (sibling n) w s = Done (r, s) /\
                             ptr_node (heap s) r).
    { apply IH; [exact Hwf | eapply ptr_node_sibling; eauto |].
      pose proof (chain_fuel_next _ _ _ Hwf Hn). lia. }
    destruct (child n) as [cc|] eqn:Hcc; [|exact Hrec].
    destruct (ptr_node_child _ _ _ Hwf Hn cc Hcc) as [cn Hcn].
    rewrite (bind_step _ _ _ _ _ (load_ok cc cn s Hcn)).
    destruct (Hwf cc cn Hcn) as (Hne & _ & _).
    destruct (words cn) as [|w0 ws] eqn:Hws; [contradiction|].
    unfold word_at. cbn [lookup list_lookup]. unfold bind at 1. unfold ret at 1.
    destruct (streq (word w0) w); [|exact Hrec].
    unfold ret. exists (Some c). split; [reflexivity|].
    intros c' [= <-]. exists n. exact Hn.
  - unfold ret. exists None. split; [reflexivity|]. intros c Hc'. discriminate.
Qed.


Lemma logrec_addWord_runs c wi s :
  wf (heap s) -> is_node (heap s) c ->
  exists s', logrec_addWord c wi s = Done (tt, s') /\ same_shape s s'.
Proof.
  intros Hwf [n Hn]. rewrite (logrec_addWord_ok c n wi s Hn).
  eexists. split; [reflexivity|].
  assert (Hlt : c < length (heap s)) by (eapply lookup_lt_Some; exact Hn).
  split; [|split; [|split]]; cbn [heap wordStack].
  - apply (wf_store _ _ n _ Hwf Hn).
    destruct (Hwf c n Hn) as (Hne & Hc & Hs).
    split; [|split]; [|exact Hc | exact Hs].
    cbn [words set_words]. destruct (words n); discriminate.
  - apply length_insert.
  - intros a. apply is_node_store. exact Hlt.
  - reflexivity.
Qed.

(** The last block of [treeAddToLevel]: a new node, linked from [prev]
    or, for a first child, from the level. *)
Lemma new_node_runs level prev wi s :
  wf (heap s) -> is_node (heap s) level -> ptr_node (heap s) prev ->
  exists s',
    (let* e := logrec_newNode wi (Some level) in
     match prev with
     | None =>
         let* lv := load (Some level) in
         store level (set_child (Some e) lv)
     | Some p =>
         let* pn := load (Some p) in
         store p (set_sibling (Some e) pn)
     end ;;;
     ret e) s = Done (length (heap s), s') /\
    wf (heap s') /\ length (heap s') = S (length (heap s)) /\
    (forall c, is_node (heap s) c -> is_node (heap s') c) /\
    wordStack s' = wordStack s /\ is_node (heap s') (length (heap s)).
Proof.
  intros Hwf Hlevel Hprev.
  rewrite (bind_step _ _ _ _ _ (logrec_newNode_ok wi (Some level) s)).
  set (nw := mkNode (Some level) None None 0%Z [set_occurs 1%Z wi]).
  set (h1 := (heap s ++ [Some nw])%list).
  assert (Hwf1 : wf h1) by (apply wf_alloc; [exact Hwf | discriminate]).
  assert (Hm1 : forall c, is_node (heap s) c -> is_node h1 c)
    by (intros c; apply is_node_alloc).
  assert (Hnew : is_node h1 (length (heap s))).
  { exists nw. unfold h1. rewrite lookup_app_r by lia. rewrite Nat.sub_diag. reflexivity. }
  assert (Hlen1 : length h1 = S (length (heap s))).
  { unfold h1. rewrite length_app. simpl. lia. }
  (* the node [a] that gets the link, and its new contents *)
  assert (Hlink : forall a na (f : logrec_node -> logrec_node),
            h1 !! a = Some (Some na) -> a < length (heap s) ->
            words (f na) = words na ->
            ((child (f na) = Some (length (heap s)) /\ sibling (f na) = sibling na) \/
             (sibling (f na) = Some (length (heap s)) /\ child (f na) = child na)) ->
            wf (<[a := Some (f na)]> h1) /\
            length (<[a := Some (f na)]> h1) = S (length (heap s)) /\
            (forall c, is_node (heap s) c -> is_node (<[a := Some (f na)]> h1) c) /\
            is_node (<[a := Some (f na)]> h1) (length (heap s))).
  { intros a na f Ha Hlt Hw Hptr.
    assert (Hlt1 : a < length h1) by lia.
    split; [|split; [|split]].
    - apply (wf_store _ _ na _ Hwf1 Ha).
      destruct (Hwf1 a na Ha) as (Hne & Hc & Hs).
      split; [rewrite Hw; exact Hne|].
      destruct Hptr as [[Hc' Hs'] | [Hs' Hc']]; rewrite Hc', Hs'; split;
        try assumption; split; assumption.
    - rewrite length_insert. exact Hlen1.
    - intros c Hc. apply is_node_store; [exact Hlt1 | apply Hm1; exact Hc].
    - apply is_node_store; [exact Hlt1 | exact Hnew]. }
  destruct prev as [p|].
  - destruct (Hm1 p (Hprev p eq_refl)) as [pn Hpn].
    assert (Hp : p < length (heap s)) by (apply is_node_lt; apply Hprev; reflexivity).
    erewrite bind_step; [| erewrite bind_step; [| apply load_ok; exact Hpn ];
                           eapply store_ok; exact Hpn ].
    unfold ret. eexists. split; [reflexivity|]. cbn [heap wordStack].
    destruct (Hlink p pn (set_sibling (Some (length (heap s)))) Hpn Hp eq_refl)
      as (A & B & C & D); [right; split; reflexivity|].
    repeat (split; [assumption|]). split; [reflexivity | exact D].
  - destruct (Hm1 level Hlevel) as [lv Hlv].
    assert (Hl : level < length (heap s)) by (apply is_node_lt; exact Hlevel).
    erewrite bind_step; [| erewrite bind_step; [| apply load_ok; exact Hlv ];
                           eapply store_ok; exact Hlv ].
    unfold ret. eexists. split; [reflexivity|]. cbn [heap wordStack].
    destruct (Hlink level lv (set_child (Some (length (heap s)))) Hlv Hl eq_refl)
      as (A & B & C & D); [left; split; reflexivity|].
    repeat (split; [assumption|]). split; [reflexivity | exact D].
Qed.

(** On a well-formed arena [treeAddToLevel] returns, with fuel above the
    size of the arena; it returns a live node and adds at most one. *)
Lemma treeAddToLevel_runs fuel level wi nextwi s :
  wf (heap s) -> is_node (heap s) level -> length (heap s) < fuel ->
  exists r s',
    treeAddToLevel fuel level wi nextwi s = Done (r, s') /\
    wf (heap s') /\ length (heap s') <= S (length (heap s)) /\
    (forall c, is_node (heap s) c -> is_node (heap s') c) /\
    wordStack s' = wordStack s /\ is_node (heap s') r.
Proof.
  intros Hwf Hlevel Hfuel. unfold treeAddToLevel.
  destruct Hlevel as [lv Hlv].
  rewrite (bind_step _ _ _ _ _ (load_ok level lv s Hlv)).
  assert (Hcf : forall h p, length h < fuel -> chain_fuel h p <= fuel).
  { intros h p Hh. destruct p; simpl; lia. }
  destruct (findExisting_runs fuel (child lv) None (word wi) s Hwf)
    as (r & prev & s1 & Hfe & (Hwf1 & Hlen1 & Hm1 & Hst1) & Hr & Hprev);
    [eapply ptr_node_child; eauto | intros c Hc; discriminate | apply Hcf; exact Hfuel |].
  rewrite (bind_step _ _ _ _ _ Hfe).
  assert (Hlevel1 : is_node (heap s1) level) by (apply Hm1; exists lv; exact Hlv).
  assert (Hnew : exists s',
            (let* existing := ret None in
             match existing with
             | Some e => ret e
             | None =>
                 let* e := logrec_newNode wi (Some level) in
                 match prev with
                 | None =>
                     let* lv := load (Some level) in
                     store level (set_child (Some e) lv)
                 | Some p =>
                     let* pn := load (Some p) in
                     store p (set_sibling (Some e) pn)
                 end ;;;
                 ret e
             end) s1 = Done (length (heap s1), s') /\
            wf (heap s') /\ length (heap s') <= S (length (heap s)) /\
            (forall c, is_node (heap s) c -> is_node (heap s') c) /\
            wordStack s' = wordStack s /\ is_node (heap s') (length (heap s1))).
  { destruct (new_node_runs level prev wi s1 Hwf1 Hlevel1 Hprev)
      as (s' & Hrun & A & B & C & D & E).
    exists s'. unfold bind at 1. unfold ret at 1.
    split; [exact Hrun|]. split; [exact A|]. split; [lia|].
    split; [intros c Hc; apply C; apply Hm1; exact Hc|].
    split; [congruence | exact E]. }
  destruct r as [e|].
  - unfold bind at 1. unfold ret at 1. unfold ret.
    exists e, s1. split; [reflexivity|].
    split; [exact Hwf1|]. split; [lia|]. split; [exact Hm1|].
    split; [exact Hst1 | apply Hr; reflexivity].
  - destruct nextwi as [nwi|].
    + destruct Hlevel1 as [lv1 Hlv1].
      rewrite bind_assoc, (bind_step _ _ _ _ _ (load_ok level lv1 s1 Hlv1)).
      destruct (findByNext_runs fuel (child lv1) (word nwi) s1 Hwf1)
        as (c & Hfb & Hc);
        [eapply ptr_node_child; eauto | apply Hcf; lia |].
      rewrite bind_assoc, (bind_step _ _ _ _ _ Hfb).
      destruct c as [c|].
      * destruct (logrec_addWord_runs c wi s1 Hwf1 (Hc c eq_refl))
          as (s2 & Haw & Hwf2 & Hlen2 & Hm2 & Hst2).
        rewrite bind_assoc, (bind_step _ _ _ _ _ Haw).
        unfold bind at 1. unfold ret at 1. unfold ret.
        exists c, s2. split; [reflexivity|].
        split; [exact Hwf2|]. split; [lia|].
        split; [intros a Ha; apply Hm2; apply Hm1; exact Ha|].
        split; [congruence | apply Hm2; apply Hc; reflexivity].
      * destruct Hnew as (s' & Hrun & Hpost).
        exists (length (heap s1)), s'. split; [exact Hrun | exact Hpost].
    + destruct Hnew as (s' & Hrun & Hpost).
      exists (length (heap s1)), s'. split; [exact Hrun | exact Hpost].
Qed.


Section WithSyntaxes.
Context `{Syntaxes}.

Lemma wordDetectSyntax_runs wi wordlen b s :
  wordStack s = [] ->
  exists wi' s',
    wordDetectSyntax wi wordlen b s = Done (wi', s') /\
    heap s' = heap s /\ length (wordStack s') <= 2.
Proof.
  intros Hst. destruct s as [h st]. simpl in Hst. subst st. unfold wordDetectSyntax.
  repeat match goal with
         | |- context [if ?c then _ else _] => destruct c
         | |- context [match ?o with Some _ => _ | None => _ end] =>
             lazymatch o with
             | syntax_ipv4 _ _ => destruct o
             | syntax_posint _ _ => destruct o
             end
         end;
    (do 2 eexists; split; [reflexivity|]; split; [reflexivity | simpl; lia]).
Qed.

Lemma span_while_le p s : span_while p s <= String.length s.
Proof. induction s as [|c s IH]; simpl; [lia | destruct (p c); lia]. Qed.

(** [getWord] always returns.  With a word, what is left to read (three
    times the rest of the line plus the stack) has shrunk; without one,
    the stack is empty. *)
Lemma getWord_runs ln s :
  exists r ln' s',
    getWord ln s = Done ((r, ln'), s') /\ heap s' = heap s /\
    match r with
    | Some _ => 3 * strlen ln' + length (wordStack s') < 3 * strlen ln + length (wordStack s)
    | None => wordStack s' = []
    end.
Proof.
  destruct s as [h st]. unfold getWord, bind, wordstackPop. cbn [wordStack heap].
  destruct st as [|top st].
  2:{ unfold ret. do 3 eexists. split; [reflexivity|]. split; [reflexivity|]. simpl. lia. }
  unfold ret.
  destruct (Nat.eqb (strlen ln) 0) eqn:Hlen.
  { do 3 eexists. split; [reflexivity|]. split; reflexivity. }
  apply Nat.eqb_neq in Hlen.
  set (b := span_while isspace ln).
  set (i := b + span_while (fun c => negb (isspace c)) (str_drop b ln)).
  destruct (Nat.eqb b i) eqn:Hbi.
  { do 3 eexists. split; [reflexivity|]. split; reflexivity. }
  apply Nat.eqb_neq in Hbi.
  assert (Hi : 1 <= i) by (unfold i in *; lia).
  assert (Hdrop : strlen (str_drop i ln) + 1 <= strlen ln).
  { unfold strlen in *. rewrite str_drop_length. lia. }
  destruct (Ascii.eqb _ "%").
  { do 3 eexists. split; [reflexivity|]. split; [reflexivity|]. cbn [wordStack length]. lia. }
  destruct (wordDetectSyntax_runs
              (wordinfoNew (str_take (i - b) (str_drop b ln))) (i - b) true
              (mkSession h []) eq_refl) as (wi' & s' & Hrun & Hh & Hst).
  rewrite Hrun. do 3 eexists. split; [reflexivity|]. split; [exact Hh|].
  cbn [wordStack length]. lia.
Qed.

Lemma treeAddLine_loop_runs fuel : forall level nextwi ln s,
  wf (heap s) -> is_node (heap s) level ->
  length (heap s) + 2 * words_left nextwi ln s < fuel ->
  exists s',
    treeAddLine_loop fuel level nextwi ln s = Done (tt, s') /\
    wf (heap s') /\ (forall c, is_node (heap s) c -> is_node (heap s') c) /\
    length (heap s') <= length (heap s) + words_left nextwi ln s.
Proof.
  induction fuel as [|fuel IH]; intros level nextwi ln s Hwf Hlevel Hfuel; [lia|].
  simpl. destruct nextwi as [wi|].
  - destruct (getWord_runs ln s) as (nextwi' & ln' & s1 & Hgw & Hh1 & Hmeasure).
    rewrite (bind_step _ _ _ _ _ Hgw).
    destruct (treeAddToLevel_runs (S fuel) level wi nextwi' s1)
      as (level' & s2 & Hadd & Hwf2 & Hlen2 & Hm2 & Hst2 & Hlevel');
      [rewrite Hh1; exact Hwf | rewrite Hh1; exact Hlevel | rewrite Hh1; simpl in Hfuel; lia |].
    rewrite (bind_step _ _ _ _ _ Hadd).
    rewrite Hh1 in Hlen2, Hm2.
    assert (Hleft : words_left nextwi' ln' s2 + 1 <= words_left (Some wi) ln s).
    { unfold words_left. destruct nextwi'; [rewrite Hst2|]; lia. }
    destruct (IH level' nextwi' ln' s2 Hwf2 Hlevel') as (s' & Hrun & Hwf' & Hm' & Hlen');
      [lia|].
    exists s'. split; [exact Hrun|]. split; [exact Hwf'|].
    split; [intros c Hc; apply Hm'; apply Hm2; exact Hc | lia].
  - destruct Hlevel as [lv Hlv].
    rewrite (bind_step _ _ _ _ _ (load_ok level lv s Hlv)).
    rewrite (store_ok level _ lv s Hlv). eexists. split; [reflexivity|].
    cbn [heap wordStack].
    assert (Hlt : level < length (heap s)) by (eapply lookup_lt_Some; exact Hlv).
    split; [|split].
    + apply (wf_store _ _ lv _ Hwf Hlv). exact (Hwf level lv Hlv).
    + intros c. apply is_node_store. exact Hlt.
    + rewrite length_insert. simpl. lia.
Qed.

(** A line of [n] bytes adds at most [1 + 3 n] nodes. *)
Lemma treeAddLine_runs fuel ln s :
  wf (heap s) -> is_node (heap s) root -> wordStack s = [] ->
  length (heap s) + 2 * line_cost ln < fuel ->
  exists s',
    treeAddLine fuel ln s = Done (tt, s') /\
    wf (heap s') /\ is_node (heap s') root /\
    length (heap s') <= length (heap s) + line_cost ln.
Proof.
  intros Hwf Hroot Hst Hfuel. unfold treeAddLine.
  destruct (getWord_runs ln s) as (nextwi & ln' & s1 & Hgw & Hh1 & Hmeasure).
  rewrite (bind_step _ _ _ _ _ Hgw).
  assert (Hleft : words_left nextwi ln' s1 <= line_cost ln).
  { unfold words_left, line_cost. destruct nextwi; [rewrite Hst in Hmeasure; simpl in Hmeasure|]; lia. }
  destruct (treeAddLine_loop_runs fuel root nextwi ln' s1)
    as (s' & Hrun & Hwf' & Hm' & Hlen');
    [rewrite Hh1; exact Hwf | rewrite Hh1; exact Hroot | rewrite Hh1; lia |].
  rewrite Hh1 in Hm', Hlen'.
  exists s'. split; [exact Hrun|]. split; [exact Hwf'|].
  split; [apply Hm'; exact Hroot | lia].
Qed.

End WithSyntaxes.
End Safety.

(** ** Order of insertion *)

Module Order.

Lemma sib_equiv_size t1 t2 : sib_equiv t1 t2 -> tree_size t1 = tree_size t2.
Proof.
  induction 1 as [| ? ? ? ? ? ? ? _ _ IHc _ IHs | | ? ? ? _ IH1 _ IH2]; simpl; lia.
Qed.

(** In the order "a x", "b y", "a y" the tree has five nodes under the
    root; in the reverse order "b" joins the values of "a", by lookahead on
    "y", and it has three. *)
Lemma insertion_depends_on_order : ~ order_independent ref_syntaxes.
Proof.
  intros Hclaim.
  destruct (@treeAddLines ref_syntaxes 8 three_lines with_root) as [[[] s1]| |] eqn:E1;
    try (vm_compute in E1; discriminate E1).
  destruct (@treeAddLines ref_syntaxes 8 (rev three_lines) with_root) as [[[] s2]| |] eqn:E2;
    try (vm_compute in E2; discriminate E2).
  destruct (treeView 8 (heap s1) (Some root)) as [t1|] eqn:V1;
    [| vm_compute in E1; injection E1 as <-; vm_compute in V1; discriminate V1].
  destruct (treeView 8 (heap s2) (Some root)) as [t2|] eqn:V2;
    [| vm_compute in E2; injection E2 as <-; vm_compute in V2; discriminate V2].
  pose proof (Hclaim 8 three_lines (rev three_lines) s1 s2 t1 t2
                (Permutation_rev three_lines) E1 E2 V1 V2) as Heq.
  apply sib_equiv_size in Heq.
  vm_compute in E1. injection E1 as <-. vm_compute in V1. injection V1 as <-.
  vm_compute in E2. injection E2 as <-. vm_compute in V2. injection V2 as <-.
  vm_compute in Heq. discriminate Heq.
Qed.

(** *** The two totals under stores and allocations *)

Lemma total_nterm_app h1 h2 :
  total_nterm (h1 ++ h2) = (total_nterm h1 + total_nterm h2)%Z.
Proof.
  induction h1 as [|[n|] h1 IH]; simpl; [reflexivity | |]; rewrite ?IH; lia.
Qed.

Lemma total_nterm_insert h : forall a n0 n,
  h !! a = Some (Some n0) ->
  total_nterm (<[a := Some n]> h) = (total_nterm h - nterm n0 + nterm n)%Z.
Proof.
  induction h as [|o h IH]; intros a n0 n Ha; [discriminate|].
  destruct a as [|a]; simpl in *.
  - injection Ha as ->. lia.
  - rewrite (IH a n0 n Ha). destruct o; lia.
Qed.

Lemma total_occurs_app ws1 ws2 :
  total_occurs (ws1 ++ ws2) = (total_occurs ws1 + total_occurs ws2)%Z.
Proof. induction ws1 as [|w ws1 IH]; simpl; [reflexivity | rewrite IH; lia]. Qed.

Lemma total_occurs_insert ws : forall i w0 w,
  ws !! i = Some w0 ->
  total_occurs (<[i := w]> ws) = (total_occurs ws - occurs w0 + occurs w)%Z.
Proof.
  induction ws as [|x ws IH]; intros i w0 w Hi; [discriminate|].
  destruct i as [|i]; simpl in *.
  - injection Hi as ->. lia.
  - rewrite (IH i w0 w Hi). lia.
Qed.

Lemma heap_occurs_app h1 h2 :
  heap_occurs (h1 ++ h2) = (heap_occurs h1 + heap_occurs h2)%Z.
Proof.
  induction h1 as [|[n|] h1 IH]; simpl; [reflexivity | |]; rewrite ?IH; lia.
Qed.

Lemma heap_occurs_insert h : forall a n0 n,
  h !! a = Some (Some n0) ->
  heap_occurs (<[a := Some n]> h) =
    (heap_occurs h - total_occurs (words n0) + total_occurs (words n))%Z.
Proof.
  induction h as [|o h IH]; intros a n0 n Ha; [discriminate|].
  destruct a as [|a]; simpl in *.
  - injection Ha as ->. lia.
  - rewrite (IH a n0 n Ha). destruct o; lia.
Qed.

(** *** Counts that are not negative

    While no count is negative, every count is at most the sum it is part
    of: a bound on the two totals keeps every single [int] away from its
    wrap. *)

Lemma total_occurs_nonneg ws :
  Forall (fun w => (0 <= occurs w)%Z) ws -> (0 <= total_occurs ws)%Z.
Proof. induction 1 as [|w ws Hw _ IH]; simpl; lia. Qed.

Lemma occurs_le_total ws : forall i w,
  Forall (fun w => (0 <= occurs w)%Z) ws -> ws !! i = Some w ->
  (0 <= occurs w <= total_occurs ws)%Z.
Proof.
  induction ws as [|x ws IH]; intros i w Hall Hi; [discriminate|].
  inversion Hall as [|? ? Hx Hall']; subst.
  pose proof (total_occurs_nonneg ws Hall').
  destruct i as [|i]; simpl in *.
  - injection Hi as ->. lia.
  - specialize (IH i w Hall' Hi). lia.
Qed.

Lemma nonneg_tail o h : nonneg (o :: h) -> nonneg h.
Proof. intros Hn a n Ha. exact (Hn (S a) n Ha). Qed.

Lemma heap_totals_nonneg h :
  nonneg h -> (0 <= total_nterm h)%Z /\ (0 <= heap_occurs h)%Z.
Proof.
  induction h as [|o h IH]; intros Hn; simpl; [lia|].
  destruct (IH (nonneg_tail _ _ Hn)) as [A B].
  destruct o as [n|]; [|lia].
  destruct (Hn 0 n eq_refl) as [Hnt Hw]. pose proof (total_occurs_nonneg _ Hw). lia.
Qed.

Lemma node_le_totals h : forall a n,
  nonneg h -> h !! a = Some (Some n) ->
  (nterm n <= total_nterm h)%Z /\ (total_occurs (words n) <= heap_occurs h)%Z.
Proof.
  induction h as [|o h IH]; intros a n Hn Ha; [discriminate|].
  pose proof (heap_totals_nonneg h (nonneg_tail _ _ Hn)) as [A B].
  destruct a as [|a]; simpl in *.
  - injection Ha as ->.
    destruct (Hn 0 n eq_refl) as [Hnt Hw]. pose proof (total_occurs_nonneg _ Hw). lia.
  - destruct (IH a n (nonneg_tail _ _ Hn) Ha). destruct o as [m|]; [|lia].
    destruct (Hn 0 m eq_refl) as [Hnt Hw]. pose proof (total_occurs_nonneg _ Hw). lia.
Qed.

(** A value of an arena without negative counts whose occurrence counts
    add up to less than [INT_MAX] is counted once more without wrap. *)
Lemma occurs_bump_exact h a n i w :
  nonneg h -> (heap_occurs h < INT_MAX)%Z ->
  h !! a = Some (Some n) -> words n !! i = Some w ->
  (0 <= occurs w)%Z /\ int_wrap (occurs w + 1) = (occurs w + 1)%Z.
Proof.
  intros Hn Hb Ha Hi.
  destruct (Hn a n Ha) as [_ Hw].
  pose proof (occurs_le_total _ _ _ Hw Hi).
  pose proof (node_le_totals h a n Hn Ha).
  split; [lia|]. apply int_wrap_small. unfold INT_MIN, INT_MAX in *. lia.
Qed.

Lemma nterm_bump_exact h a n :
  nonneg h -> (total_nterm h < INT_MAX)%Z -> h !! a = Some (Some n) ->
  (0 <= nterm n)%Z /\ int_wrap (nterm n + 1) = (nterm n + 1)%Z.
Proof.
  intros Hn Hb Ha.
  destruct (Hn a n Ha) as [Hnt _].
  pose proof (node_le_totals h a n Hn Ha).
  split; [lia|]. apply int_wrap_small. unfold INT_MIN, INT_MAX in *. lia.
Qed.

Lemma nonneg_insert h a n : nonneg h -> node_nonneg n -> nonneg (<[a := Some n]> h).
Proof.
  intros Hn Hnn b m Hb.
  assert (Hlt : b < length h).
  { apply lookup_lt_Some in Hb. rewrite length_insert in Hb. exact Hb. }
  destruct (decide (a = b)) as [->|Hne].
  - rewrite list_lookup_insert_eq in Hb by exact Hlt. injection Hb as <-. exact Hnn.
  - rewrite list_lookup_insert_ne in Hb by exact Hne. eapply Hn. exact Hb.
Qed.

Lemma nonneg_app h n : nonneg h -> node_nonneg n -> nonneg (h ++ [Some n]).
Proof.
  intros Hn Hnn b m Hb. destruct (decide (b < length h)) as [Hlt|Hge].
  - rewrite lookup_app_l in Hb by exact Hlt. eapply Hn. exact Hb.
  - rewrite lookup_app_r in Hb by lia. destruct (b - length h) as [|k]; simpl in Hb.
    + injection Hb as <-. exact Hnn.
    + destruct k; discriminate.
Qed.

Lemma grows_refl s : nonneg (heap s) -> grows 0 s s.
Proof.
  unfold grows. intros Hn.
  split; [reflexivity|]. split; [lia|]. split; [reflexivity | exact Hn].
Qed.

Lemma grows_trans k1 k2 s s1 s2 :
  grows k1 s s1 -> grows k2 s1 s2 -> grows (k1 + k2) s s2.
Proof.
  unfold grows. intros (A1 & B1 & C1 & D1) (A2 & B2 & C2 & D2).
  split; [congruence|]. split; [lia|]. split; [congruence | exact D2].
Qed.

Lemma grows_eq k k' s s' : grows k s s' -> k = k' -> grows k' s s'.
Proof. intros Hg <-. exact Hg. Qed.

Tactic Notation "inv_bind" hyp(H) "as" ident(a) ident(s1) ident(H1) :=
  apply bind_Done in H; destruct H as (a & s1 & H1 & H).

Ltac inv_load H := apply load_Done in H; destruct H as [-> (? & [= <-] & H)].
Ltac inv_ret H := unfold ret in H; injection H as _ <-.
Ltac inv_ret_val H := unfold ret in H; injection H as <- <-.

Lemma word_at_Done ws i s w s' :
  word_at ws i s = Done (w, s') -> s' = s /\ ws !! i = Some w.
Proof.
  unfold word_at. destruct (ws !! i); unfold ret, raise; [|discriminate].
  intros [= -> ->]. split; reflexivity.
Qed.

Lemma store_grows a n n0 s u s' :
  store a n s = Done (u, s') -> heap s !! a = Some (Some n0) -> nterm n = nterm n0 ->
  nonneg (heap s) -> node_nonneg n ->
  grows (total_occurs (words n) - total_occurs (words n0)) s s'.
Proof.
  intros Hs Ha Hnt Hnn Hn. apply store_Done in Hs. destruct Hs as [-> _].
  unfold grows. simpl.
  rewrite (total_nterm_insert _ _ _ _ Ha), (heap_occurs_insert _ _ _ _ Ha).
  split; [lia|]. split; [lia|]. split; [reflexivity|].
  apply nonneg_insert; assumption.
Qed.

(** A store that changes links only. *)
Lemma link_grows a n n0 s u s' :
  store a n s = Done (u, s') -> heap s !! a = Some (Some n0) ->
  nterm n = nterm n0 -> words n = words n0 ->
  nonneg (heap s) -> grows 0 s s'.
Proof.
  intros Hs Ha Hnt Hw Hnn.
  eapply grows_eq; [eapply store_grows; [exact Hs | exact Ha | exact Hnt | exact Hnn |]|].
  - destruct (Hnn a n0 Ha) as [A B]. split; [rewrite Hnt; exact A | rewrite Hw; exact B].
  - rewrite Hw. lia.
Qed.

Lemma logrec_addWord_grows a wi s u s' :
  nonneg (heap s) -> logrec_addWord a wi s = Done (u, s') -> grows 1 s s'.
Proof.
  unfold logrec_addWord. intros Hnn Hr. inv_bind Hr as n s1 Hn. inv_load Hn.
  eapply grows_eq; [eapply store_grows; [exact Hr | exact Hn | reflexivity | exact Hnn |]|].
  - destruct (Hnn a n Hn) as [A B]. split; [exact A|]. cbn [words set_words].
    apply Forall_app. split; [exact B|]. constructor; [simpl; lia | constructor].
  - simpl. rewrite total_occurs_app. simpl. lia.
Qed.

Lemma logrec_newNode_grows wi p s a s' :
  nonneg (heap s) -> logrec_newNode wi p s = Done (a, s') -> grows 1 s s'.
Proof.
  rewrite logrec_newNode_ok. intros Hnn [= _ <-]. unfold grows. simpl.
  rewrite total_nterm_app, heap_occurs_app. simpl.
  split; [lia|]. split; [lia|]. split; [reflexivity|].
  apply nonneg_app; [exact Hnn|]. split; simpl; [lia|].
  constructor; [simpl; lia | constructor].
Qed.

Lemma findExisting_grows fuel : forall existing prev w s r prev' s',
  nonneg (heap s) -> (heap_occurs (heap s) < INT_MAX)%Z ->
  findExisting fuel existing prev w s = Done ((r, prev'), s') ->
  grows (match r with Some _ => 1 | None => 0 end) s s'.
Proof.
  induction fuel as [|fuel IH]; intros existing prev w s r prev' s' Hnn Hb Hr; [discriminate|].
  simpl in Hr. destruct existing as [e|].
  - inv_bind Hr as n s1 Hn. inv_load Hn.
    destruct (logrec_hasWord n w) as [i|].
    + inv_bind Hr as wv s2 Hw. apply word_at_Done in Hw. destruct Hw as [-> Hw].
      inv_bind Hr as u s3 Hst. unfold ret in Hr. injection Hr as <- <- <-.
      destruct (occurs_bump_exact _ _ _ _ _ Hnn Hb Hn Hw) as [Hpos Hex].
      rewrite Hex in Hst.
      eapply grows_eq; [eapply store_grows; [exact Hst | exact Hn | reflexivity | exact Hnn |]|].
      * destruct (Hnn e n Hn) as [A B]. split; [exact A|]. cbn [words set_words].
        apply Forall_insert; [exact B | simpl; lia].
      * simpl. rewrite (total_occurs_insert _ _ _ _ Hw). simpl. lia.
    + eapply IH; eassumption.
  - unfold ret in Hr. injection Hr as <- <- <-. apply grows_refl. exact Hnn.
Qed.

Lemma findByNext_state fuel : forall c w s r s',
  findByNext fuel c w s = Done (r, s') -> s' = s.
Proof.
  induction fuel as [|fuel IH]; intros c w s r s' Hr; [discriminate|].
  simpl in Hr. destruct c as [c|].
  - inv_bind Hr as n s1 Hn. inv_load Hn.
    destruct (child n) as [cc|].
    + inv_bind Hr as cn s2 Hcn. apply load_Done in Hcn. destruct Hcn as [-> _].
      inv_bind Hr as w0 s3 Hw. apply word_at_Done in Hw. destruct Hw as [-> _].
      destruct (streq (word w0) w).
      * unfold ret in Hr. injection Hr as _ <-. reflexivity.
      * eapply IH. exact Hr.
    + eapply IH. exact Hr.
  - unfold ret in Hr. injection Hr as _ <-. reflexivity.
Qed.

(** Whatever branch it takes, [treeAddToLevel] accounts for the word
    once, as long as no count wraps: a count goes up by one, or a value
    or a node with count 1 is added. *)
Lemma treeAddToLevel_grows fuel level wi nextwi s r s' :
  nonneg (heap s) -> (heap_occurs (heap s) < INT_MAX)%Z ->
  treeAddToLevel fuel level wi nextwi s = Done (r, s') -> grows 1 s s'.
Proof.
  unfold treeAddToLevel. intros Hnn Hb Hr.
  inv_bind Hr as lv s1 Hlv. inv_load Hlv.
  inv_bind Hr as ep s2 Hfe. destruct ep as [existing prev].
  apply findExisting_grows in Hfe; [|exact Hnn | exact Hb].
  inv_bind Hr as ex s3 Hla.
  destruct existing as [e|].
  { inv_ret_val Hla. inv_ret Hr. exact Hfe. }
  assert (Hnn2 : nonneg (heap s2)) by (destruct Hfe as (_ & _ & _ & D); exact D).
  assert (Hnew : forall s7 s8 e,
            logrec_newNode wi (Some level) s2 = Done (e, s7) ->
            match prev with
            | None => let* lv := load (Some level) in store level (set_child (Some e) lv)
            | Some p => let* pn := load (Some p) in store p (set_sibling (Some e) pn)
            end s7 = Done (tt, s8) ->
            grows 1 s s8).
  { intros s7 s8 e Hnw Hlink. apply logrec_newNode_grows in Hnw; [|exact Hnn2].
    assert (Hnn7 : nonneg (heap s7)) by (destruct Hnw as (_ & _ & _ & D); exact D).
    assert (Hl : grows 0 s7 s8).
    { destruct prev as [p|]; inv_bind Hlink as pn s9 Hp; inv_load Hp;
        (eapply link_grows; [exact Hlink | exact Hp | reflexivity | reflexivity | exact Hnn7]). }
    eapply grows_eq;
      [exact (grows_trans _ _ _ _ _ (grows_trans _ _ _ _ _ Hfe Hnw) Hl) | reflexivity]. }
  destruct nextwi as [nwi|].
  - inv_bind Hla as lv2 s4 Hlv2. apply load_Done in Hlv2. destruct Hlv2 as [-> _].
    inv_bind Hla as c s5 Hfb. apply findByNext_state in Hfb. subst s5.
    destruct c as [c|].
    + inv_bind Hla as u s6 Haw. inv_ret_val Hla. inv_ret Hr.
      apply logrec_addWord_grows in Haw; [|exact Hnn2].
      eapply grows_eq; [exact (grows_trans _ _ _ _ _ Hfe Haw) | reflexivity].
    + inv_ret_val Hla. clear lv2.
      inv_bind Hr as e s7 Hnw. inv_bind Hr as u s8 Hlink. inv_ret Hr.
      destruct u. eapply Hnew; eassumption.
  - inv_ret_val Hla.
    inv_bind Hr as e s7 Hnw. inv_bind Hr as u s8 Hlink. inv_ret Hr.
    destruct u. eapply Hnew; eassumption.
Qed.

Section WithSyntaxes.
Context `{Syntaxes}.

(** [wordDetectSyntax] and [getWord] read and write the word stack only:
    on any session they do what they do on the session that has the same
    stack and no node. *)
Lemma wordDetectSyntax_frame wi wordlen b h :
  wordDetectSyntax wi wordlen b (mkSession h []) =
    match wordDetectSyntax wi wordlen b (mkSession [] []) with
    | Done (r, s') => Done (r, mkSession h (wordStack s'))
    | Fault f => Fault f
    | OutOfFuel => OutOfFuel
    end.
Proof.
  unfold wordDetectSyntax.
  repeat match goal with
         | |- context [if ?c then _ else _] => destruct c
         | |- context [match ?o with Some _ => _ | None => _ end] =>
             lazymatch o with
             | syntax_ipv4 _ _ => destruct o
             | syntax_posint _ _ => destruct o
             end
         end; reflexivity.
Qed.

Lemma getWord_frame ln s :
  getWord ln s =
    match getWord ln (mkSession [] (wordStack s)) with
    | Done (r, s') => Done (r, mkSession (heap s) (wordStack s'))
    | Fault f => Fault f
    | OutOfFuel => OutOfFuel
    end.
Proof.
  destruct s as [h st]. unfold getWord, bind, wordstackPop. cbn [wordStack heap].
  destruct st as [|top st]; [|reflexivity].
  unfold ret.
  repeat match goal with
         | |- context [if ?c then _ else _] =>
             lazymatch c with
             | context [wordDetectSyntax] => fail
             | _ => destruct c
             end
         end; try reflexivity.
  rewrite wordDetectSyntax_frame.
  destruct (wordDetectSyntax _ _ _ (mkSession [] [])) as [[wi' s1]| |]; reflexivity.
Qed.

Lemma getWord_heap ln s r s' : getWord ln s = Done (r, s') -> heap s' = heap s.
Proof.
  rewrite getWord_frame.
  destruct (getWord ln (mkSession [] (wordStack s))) as [[r0 s0]| |]; try discriminate.
  intros [= _ <-]. reflexivity.
Qed.

(** When [getWord] has no word to give, nothing is left on the stack. *)
Lemma getWord_None ln s ln' s' :
  getWord ln s = Done ((None, ln'), s') -> wordStack s' = [].
Proof.
  unfold getWord, bind, wordstackPop. destruct (wordStack s) as [|top st] eqn:Hst.
  - unfold ret.
    repeat match goal with
           | |- context [if ?c then _ else _] =>
               lazymatch c with
               | context [wordDetectSyntax] => fail
               | _ => destruct c
               end
           end; try (intros [= _ <-]; exact Hst).
    destruct (wordDetectSyntax _ _ _ _) as [[wi' s1]| |]; discriminate.
  - unfold ret. discriminate.
Qed.

End WithSyntaxes.

Lemma words_of_lines_perm `{Syntaxes} fuel ls1 ls2 :
  Permutation ls1 ls2 -> words_of_lines fuel ls1 = words_of_lines fuel ls2.
Proof.
  induction 1 as [| x l l' _ IH | x y l | l l' l'' _ IH1 _ IH2]; simpl; lia.
Qed.

Lemma lines_cost_cons ln lines :
  lines_cost (ln :: lines) = line_cost ln + lines_cost lines.
Proof. reflexivity. Qed.

Lemma lines_cost_perm ls1 ls2 : Permutation ls1 ls2 -> lines_cost ls1 = lines_cost ls2.
Proof.
  induction 1 as [| x l l' _ IH | x y l | l l' l'' _ IH1 _ IH2];
    rewrite ?lines_cost_cons; lia.
Qed.

Lemma wf_with_root : wf (heap with_root).
Proof.
  intros a n Ha. destruct a as [|a]; simpl in Ha; [|destruct a; discriminate].
  injection Ha as <-. repeat split; simpl; auto.
Qed.

End Order.

(** ** Runs taken apart *)

(** A run of [let* a := m in k] that returns is a run of [m] followed by a
    run of [k a]. *)
Tactic Notation "inv" hyp(H) "as" ident(a) ident(s1) ident(H1) :=
  apply bind_Done in H; destruct H as (a & s1 & H1 & H).

Ltac inv_ld H := apply load_Done in H; destruct H as [-> (? & [= <-] & H)].

(** ** Values of a node *)

Module Values.

Lemma hasWord_from_first ws : forall k w,
  match hasWord_from k ws w with
  | Some i => k <= i /\ exists wi, ws !! (i - k) = Some wi /\ word wi = w /\
              forall j wj, j < i - k -> ws !! j = Some wj -> word wj <> w
  | None => Forall (fun wi => word wi <> w) ws
  end.
Proof.
  induction ws as [|x ws IH]; intros k w; simpl; [constructor|].
  destruct (streq (word x) w) eqn:E.
  - apply streq_eq in E. split; [lia|]. exists x. rewrite Nat.sub_diag.
    split; [reflexivity|]. split; [exact E|]. intros j wj Hj. lia.
  - assert (Hne : word x <> w).
    { intros Heq. apply streq_eq in Heq. congruence. }
    specialize (IH (S k) w). destruct (hasWord_from (S k) ws w) as [i|].
    + destruct IH as (Hle & wi & Hwi & Hw & Hfirst). split; [lia|].
      exists wi. replace (i - k) with (S (i - S k)) by lia.
      split; [exact Hwi|]. split; [exact Hw|].
      intros j wj Hj Hlook. destruct j as [|j].
      * injection Hlook as <-. exact Hne.
      * apply (Hfirst j wj); [lia | exact Hlook].
    + constructor; assumption.
Qed.

(** X1. [logrec_hasWord] returns the index of the first value of the node
    whose text is the word: the value at that index has the text and no
    value before it has.  It returns no index exactly when no value of
    the node has the text. *)
Theorem logrec_hasWord_first n w :
  match logrec_hasWord n w with
  | Some i => exists wi, words n !! i = Some wi /\ word wi = w /\
              forall j wj, j < i -> words n !! j = Some wj -> word wj <> w
  | None => Forall (fun wi => word wi <> w) (words n)
  end.
Proof.
  unfold logrec_hasWord. pose proof (hasWord_from_first (words n) 0 w) as Hs.
  destruct (hasWord_from 0 (words n) w) as [i|]; [|exact Hs].
  destruct Hs as (_ & wi & Hwi & Hw & Hfirst). rewrite Nat.sub_0_r in Hwi, Hfirst.
  exists wi. split; [exact Hwi|]. split; [exact Hw | exact Hfirst].
Qed.

Lemma hasWord_from_app ws x w : forall k,
  hasWord_from k (ws ++ [x]) w =
    match hasWord_from k ws w with
    | Some i => Some i
    | None => if streq (word x) w then Some (k + length ws) else None
    end.
Proof.
  induction ws as [|y ws IH]; intros k; simpl.
  - rewrite Nat.add_0_r. reflexivity.
  - destruct (streq (word y) w); [reflexivity|].
    rewrite IH. replace (S k + length ws) with (k + S (length ws)) by lia. reflexivity.
Qed.

(** X2. [logrec_addWord] on a live node returns and puts the value behind
    the values of the node, with an occurrence count of 1 whatever count
    it came with.  Every word that [logrec_hasWord] found is found at the
    same index afterwards, and the text of the new value, when it was not
    among the values, is found at the new last index. *)
Theorem addWord_then_hasWord a n wi s :
  heap s !! a = Some (Some n) ->
  exists s' n',
    logrec_addWord a wi s = Done (tt, s') /\
    heap s' !! a = Some (Some n') /\
    words n' = (words n ++ [set_occurs 1%Z wi])%list /\
    (forall w i, logrec_hasWord n w = Some i -> logrec_hasWord n' w = Some i) /\
    (logrec_hasWord n (word wi) = None -> logrec_hasWord n' (word wi) = Some (nwords n)).
Proof.
  intros Ha. rewrite (logrec_addWord_ok a n wi s Ha).
  assert (Hlt : a < length (heap s)) by (eapply lookup_lt_Some; exact Ha).
  eexists. exists (set_words (words n ++ [set_occurs 1%Z wi]) n).
  split; [reflexivity|]. split; [cbn [heap]; apply list_lookup_insert_eq; exact Hlt|].
  split; [reflexivity|]. unfold logrec_hasWord. cbn [words set_words]. split.
  - intros w i Hi. rewrite hasWord_from_app, Hi. reflexivity.
  - intros Hnone. rewrite hasWord_from_app, Hnone. cbn [word set_occurs].
    rewrite streq_refl. reflexivity.
Qed.

Lemma addWord_then_hasWord_witness :
  exists s' n',
    logrec_addWord 0 (set_occurs 7%Z (wordinfoNew "x")) with_root = Done (tt, s') /\
    heap s' !! 0 = Some (Some n') /\
    words n' = [wordinfoNew "[ROOT]"; wordinfoNew "x"] /\
    (forall w i, logrec_hasWord (root_node None) w = Some i -> logrec_hasWord n' w = Some i) /\
    (logrec_hasWord (root_node None) "x" = None -> logrec_hasWord n' "x" = Some 1).
Proof.
  exact (addWord_then_hasWord 0 (root_node None) (set_occurs 7%Z (wordinfoNew "x"))
           with_root eq_refl).
Defined.

End Values.

(** ** Sorted values *)

Module Dedup.

Lemma texts_insert_same (ws : list wordinfo) i x y :
  ws !! i = Some y -> word x = word y ->
  map word (<[i := x]> ws) = map word ws.
Proof.
  intros Hi Hw. change (map word (<[i := x]> ws)) with (word <$> <[i := x]> ws).
  rewrite list_fmap_insert, Hw. apply list_insert_id.
  rewrite list_lookup_fmap, Hi. reflexivity.
Qed.

(** The loop of [squashDuplicateValues] from [iNext = m] on: it stays
    inside the array, and compacts the texts of the part not yet seen
    behind those already kept. *)
Lemma squash_for_texts count : forall m ws ip nsq wp,
  m + count = length ws -> ip < m -> nsq + S ip = m -> ws !! ip = Some wp ->
  exists ws' ip' nsq',
    squash_for count m (ws, ip, nsq) = Some (ws', ip', nsq') /\
    length ws' = length ws /\ nsq' + S ip' = length ws /\
    map word (take (S ip') ws') =
      (map word (take (S ip) ws) ++ uniq_from (word wp) (map word (drop m ws)))%list.
Proof.
  induction count as [|c IH]; intros m ws ip nsq wp Hlen Hip Hnsq Hwp.
  - exists ws, ip, nsq. split; [reflexivity|]. split; [reflexivity|]. split; [lia|].
    rewrite drop_ge by lia. simpl. rewrite app_nil_r. reflexivity.
  - assert (Hm : m < length ws) by lia.
    destruct (lookup_lt_is_Some_2 ws m Hm) as [wn Hwn].
    cbn [squash_for]. unfold squash_step. rewrite Hwp, Hwn. cbn [mbind option_bind].
    rewrite (drop_S _ _ _ Hwn). cbn [map uniq_from].
    destruct (streq (word wp) (word wn)) eqn:Heq.
    + destruct (IH (S m) ws ip (S nsq) wp) as (ws' & ip' & nsq' & Hrun & A & B & C);
        [lia | lia | lia | exact Hwp |].
      exists ws', ip', nsq'. repeat split; assumption.
    + destruct (Nat.eqb (ip + 1) m) eqn:Hadj.
      * apply Nat.eqb_eq in Hadj.
        destruct (IH (S m) ws m nsq wn) as (ws' & ip' & nsq' & Hrun & A & B & C);
          [lia | lia | lia | exact Hwn |].
        exists ws', ip', nsq'. split; [exact Hrun|]. split; [exact A|]. split; [exact B|].
        rewrite C, (take_S_r _ _ _ Hwn), map_app. cbn [map].
        replace (S ip) with m by lia. rewrite <- app_assoc. reflexivity.
      * apply Nat.eqb_neq in Hadj.
        set (wp' := set_occurs (int_wrap (occurs wp + (Z.of_nat m - Z.of_nat ip - 1))) wp).
        set (ws1 := <[S ip := wn]> (<[ip := wp']> ws)).
        assert (Hlen1 : length ws1 = length ws)
          by (unfold ws1; rewrite !length_insert; reflexivity).
        assert (Hnew : ws1 !! S ip = Some wn).
        { unfold ws1. apply list_lookup_insert_eq. rewrite length_insert. lia. }
        destruct (IH (S m) ws1 (S ip) nsq wn) as (ws' & ip' & nsq' & Hrun & A & B & C);
          [lia | lia | lia | exact Hnew |].
        exists ws', ip', nsq'. split; [exact Hrun|]. split; [lia|]. split; [lia|].
        rewrite C, (take_S_r _ _ _ Hnew), map_app. cbn [map].
        unfold ws1. rewrite take_insert_ge by lia. rewrite !drop_insert_lt by lia.
        rewrite take_insert_lt by lia.
        rewrite (texts_insert_same (take (S ip) ws) ip wp' wp);
          [| rewrite lookup_take_lt by lia; exact Hwp | reflexivity].
        rewrite <- app_assoc. reflexivity.
Qed.

Lemma qs_insert_perm w l : Permutation (qs_insert w l) (w :: l).
Proof.
  induction l as [|x l IH]; simpl; [reflexivity|].
  destruct (qs_compmi w x); try reflexivity.
  rewrite IH. apply perm_swap.
Qed.

Lemma qsort_perm l : Permutation (qsort l) l.
Proof.
  unfold qsort. induction l as [|x l IH]; simpl; [reflexivity|].
  rewrite qs_insert_perm. constructor. exact IH.
Qed.

Lemma qs_insert_sorted w l :
  adjacent (fun a b => qs_compmi a b <> Gt) l ->
  adjacent (fun a b => qs_compmi a b <> Gt) (qs_insert w l).
Proof.
  induction l as [|x l IH]; intros Hs; simpl; [exact I|].
  destruct (qs_compmi w x) eqn:E.
  - split; [congruence | exact Hs].
  - split; [congruence | exact Hs].
  - assert (Hxw : qs_compmi x w <> Gt).
    { unfold qs_compmi, strcmp in *. rewrite String.compare_antisym, E. discriminate. }
    destruct l as [|y l]; simpl.
    + split; [exact Hxw | exact I].
    + destruct Hs as [Hxy Hs]. specialize (IH Hs). simpl in IH.
      destruct (qs_compmi w y); (split; [assumption | exact IH]).
Qed.

Lemma qsort_sorted l : adjacent (fun a b => qs_compmi a b <> Gt) (qsort l).
Proof.
  unfold qsort. induction l as [|x l IH]; simpl; [exact I|].
  apply qs_insert_sorted. exact IH.
Qed.

Lemma adjacent_map {A B} (f : A -> B) (R : B -> B -> Prop) (l : list A) :
  adjacent (fun a b => R (f a) (f b)) l -> adjacent R (map f l).
Proof.
  induction l as [|x l IH]; [trivial|]. destruct l as [|y l]; [trivial|].
  intros [Hxy Hs]. split; [exact Hxy | apply IH; exact Hs].
Qed.

Lemma uniq_from_ascending l : forall p,
  adjacent (fun a b => strcmp a b <> Gt) (p :: l) ->
  ascending (p :: uniq_from p l).
Proof.
  unfold ascending. induction l as [|x l IH]; intros p Hs; [exact I|].
  destruct Hs as [Hpx Hs]. cbn [uniq_from].
  destruct (streq p x) eqn:E.
  - apply streq_eq in E. subst x. apply IH. exact Hs.
  - split.
    + unfold streq in E. destruct (strcmp p x); [discriminate | reflexivity | contradiction].
    + apply IH. exact Hs.
Qed.

Lemma uniq_from_elem l : forall p w,
  w ∈ p :: uniq_from p l <-> w ∈ p :: l.
Proof.
  induction l as [|x l IH]; intros p w; [reflexivity|].
  cbn [uniq_from]. destruct (streq p x) eqn:E.
  - apply streq_eq in E. subst x. rewrite IH, !elem_of_cons. tauto.
  - rewrite (elem_of_cons (x :: uniq_from x l)), IH, !elem_of_cons. tauto.
Qed.

Lemma uniq_ascending l :
  adjacent (fun a b => strcmp a b <> Gt) l -> ascending (uniq l).
Proof. destruct l as [|x l]; [trivial|]. apply uniq_from_ascending. Qed.

Lemma uniq_elem l w : w ∈ uniq l <-> w ∈ l.
Proof. destruct l as [|x l]; [reflexivity|]. apply uniq_from_elem. Qed.

Lemma squash_words_texts ws :
  exists ws', squash_words ws = Some ws' /\
              map word ws' = uniq (map word (qsort ws)) /\
              length ws' <= length ws.
Proof.
  unfold squash_words.
  destruct (Nat.eqb (length ws) 1) eqn:E1.
  { apply Nat.eqb_eq in E1. destruct ws as [|x [|y ws]]; try discriminate.
    exists [x]. split; [reflexivity|]. split; [reflexivity | simpl; lia]. }
  pose proof (Permutation_length (qsort_perm ws)) as Hlen.
  destruct (qsort ws) as [|w0 l] eqn:Hq.
  { exists []. split; [reflexivity|]. split; [reflexivity | simpl; lia]. }
  destruct (squash_for_texts (length l) 1 (w0 :: l) 0 0 w0)
    as (ws' & ip' & nsq' & Hrun & A & B & C); [simpl; lia | lia | lia | reflexivity |].
  cbv zeta. replace (length (w0 :: l) - 1) with (length l) by (simpl; lia).
  rewrite Hrun. cbn [mbind option_bind].
  exists (take (length ws' - nsq') ws'). split; [reflexivity|].
  replace (length ws' - nsq') with (S ip') by lia. split.
  - rewrite C. reflexivity.
  - rewrite length_take. lia.
Qed.

(** X3. [squashDuplicateValues] returns on every value array, and leaves
    the texts strictly ascending in the order of [strcmp], so that no
    text is left twice; the texts are those the array had, and the array
    has not become longer. *)
Theorem squash_leaves_ascending_texts ws :
  exists ws',
    squash_words ws = Some ws' /\
    ascending (map word ws') /\
    (forall w, w ∈ map word ws' <-> w ∈ map word ws) /\
    length ws' <= length ws.
Proof.
  destruct (squash_words_texts ws) as (ws' & Hrun & Ht & Hl).
  exists ws'. split; [exact Hrun|]. rewrite Ht. split; [|split; [|exact Hl]].
  - apply uniq_ascending. apply adjacent_map. exact (qsort_sorted ws).
  - intros w. rewrite uniq_elem.
    change (map word (qsort ws)) with (word <$> qsort ws).
    change (map word ws) with (word <$> ws).
    rewrite (qsort_perm ws). reflexivity.
Qed.

Lemma squash_for_distinct count : forall m ws ip,
  m + count = length ws -> S ip = m ->
  (forall i a b, ws !! i = Some a -> ws !! S i = Some b -> word a <> word b) ->
  squash_for count m (ws, ip, 0) = Some (ws, ip + count, 0).
Proof.
  induction count as [|c IH]; intros m ws ip Hlen Hm Hd.
  - rewrite Nat.add_0_r. reflexivity.
  - assert (Hlt : m < length ws) by lia.
    destruct (lookup_lt_is_Some_2 ws m Hlt) as [wn Hwn].
    destruct (lookup_lt_is_Some_2 ws ip ltac:(lia)) as [wp Hwp].
    cbn [squash_for]. unfold squash_step. rewrite Hwp, Hwn. cbn [mbind option_bind].
    rewrite (streq_neq (word wp) (word wn)).
    2:{ apply (Hd ip); [exact Hwp | rewrite Hm; exact Hwn]. }
    replace (Nat.eqb (ip + 1) m) with true by (symmetry; apply Nat.eqb_eq; lia).
    cbn [mbind option_bind].
    rewrite (IH (S m) ws m) by (try lia; exact Hd).
    replace (m + c) with (ip + S c) by lia. reflexivity.
Qed.

(** X4. On values whose texts are all different [squashDuplicateValues]
    only sorts: the array afterwards is the sorted array, a permutation
    of the values with the sum of their occurrence counts. *)
Theorem squash_of_distinct_values ws :
  NoDup (map word ws) ->
  squash_words ws = Some (qsort ws) /\
  Permutation (qsort ws) ws /\
  total_occurs (qsort ws) = total_occurs ws.
Proof.
  intros Hnd.
  assert (Hperm := qsort_perm ws).
  split; [|split; [exact Hperm|]].
  - unfold squash_words.
    destruct (Nat.eqb (length ws) 1) eqn:E1.
    { apply Nat.eqb_eq in E1. destruct ws as [|x [|y ws]]; try discriminate. reflexivity. }
    pose proof (Permutation_length Hperm) as Hlen.
    destruct (qsort ws) as [|w0 l] eqn:Hq; [reflexivity|].
    cbv zeta.
    rewrite (squash_for_distinct (length (w0 :: l) - 1) 1 (w0 :: l) 0).
    + cbn [mbind option_bind]. rewrite Nat.sub_0_r, firstn_all. reflexivity.
    + simpl. lia.
    + reflexivity.
    + intros i a b Ha Hb Heq.
      assert (Hnd' : NoDup (map word (w0 :: l))).
      { change (NoDup (word <$> (w0 :: l))). rewrite Hperm. exact Hnd. }
      pose proof (proj1 (NoDup_alt _) Hnd') as Halt.
      assert (i = S i); [|lia].
      apply (Halt i (S i) (word a)).
      * change (map word (w0 :: l)) with (word <$> (w0 :: l)).
        rewrite list_lookup_fmap, Ha. reflexivity.
      * change (map word (w0 :: l)) with (word <$> (w0 :: l)).
        rewrite list_lookup_fmap, Hb, Heq. reflexivity.
  - clear Hnd. revert Hperm. generalize (qsort ws). intros l Hperm.
    induction Hperm as [| x l l' _ IH | x y l | l l' l'' _ IH1 _ IH2]; simpl; lia.
Qed.

Lemma squash_of_distinct_values_witness :
  squash_words [wordinfoNew "b"; set_occurs 3%Z (wordinfoNew "a")] =
    Some [set_occurs 3%Z (wordinfoNew "a"); wordinfoNew "b"] /\
  Permutation [set_occurs 3%Z (wordinfoNew "a"); wordinfoNew "b"]
              [wordinfoNew "b"; set_occurs 3%Z (wordinfoNew "a")] /\
  total_occurs [set_occurs 3%Z (wordinfoNew "a"); wordinfoNew "b"] = 4%Z.
Proof.
  apply (squash_of_distinct_values [wordinfoNew "b"; set_occurs 3%Z (wordinfoNew "a")]).
  apply NoDup_cons. split; [|apply NoDup_singleton].
  intros Hin. apply list_elem_of_singleton in Hin. discriminate Hin.
Defined.

End Dedup.

(** ** The closing delimiter *)

Module Terminator.

Lemma findTerm_from_spec count : forall i w L term,
  match findTerm_from count i w L term with
  | Some ns => i < ns <= i + count /\ char_at w (L - ns) = term /\
               forall k, i < k < ns -> char_at w (L - k) <> term
  | None => forall k, i < k <= i + count -> char_at w (L - k) <> term
  end.
Proof.
  induction count as [|c IH]; intros i w L term; simpl.
  - intros k Hk. lia.
  - destruct (Ascii.eqb (char_at w (L - i - 1)) term) eqn:E.
    + apply Ascii.eqb_eq in E. split; [lia|]. split.
      * replace (L - (i + 1)) with (L - i - 1) by lia. exact E.
      * intros k Hk. lia.
    + apply Ascii.eqb_neq in E. specialize (IH (S i) w L term).
      destruct (findTerm_from c (S i) w L term) as [ns|].
      * destruct IH as (Hr & Hc & Hk). split; [lia|]. split; [exact Hc|].
        intros k Hlt. destruct (decide (k = S i)) as [->|Hne].
        -- replace (L - S i) with (L - i - 1) by lia. exact E.
        -- apply Hk. lia.
      * intros k Hlt. destruct (decide (k = S i)) as [->|Hne].
        -- replace (L - S i) with (L - i - 1) by lia. exact E.
        -- apply IH. lia.
Qed.

(** X5. [findMatchingTerm] searches the last [lenSuffix] bytes of the
    word from its end.  When it reports a match, the prefix length is the
    one that was proposed and the new suffix starts at the last
    occurrence of the terminator in the word, which lies inside the old
    suffix; when it reports none, both lengths are as they were and the
    terminator does not occur in the last [lenSuffix] bytes. *)
Theorem findMatchingTerm_last_occurrence w pnp lenPrefix lenSuffix term :
  lenSuffix <= strlen w ->
  match findMatchingTerm w (strlen w) pnp lenPrefix lenSuffix term with
  | (true, lp, ls) =>
      lp = pnp /\ 0 < ls <= lenSuffix /\
      char_at w (strlen w - ls) = term /\
      forall p, strlen w - ls < p < strlen w -> char_at w p <> term
  | (false, lp, ls) =>
      lp = lenPrefix /\ ls = lenSuffix /\
      forall p, strlen w - lenSuffix <= p < strlen w -> char_at w p <> term
  end.
Proof.
  intros Hle. unfold findMatchingTerm.
  pose proof (findTerm_from_spec lenSuffix 0 w (strlen w) term) as Hs.
  destruct (findTerm_from lenSuffix 0 w (strlen w) term) as [ns|].
  - destruct Hs as (Hr & Hc & Hk). split; [reflexivity|]. split; [lia|].
    split; [exact Hc|]. intros p Hp.
    replace p with (strlen w - (strlen w - p)) by lia. apply Hk. lia.
  - split; [reflexivity|]. split; [reflexivity|]. intros p Hp.
    replace p with (strlen w - (strlen w - p)) by lia. apply Hs. lia.
Qed.

Lemma findMatchingTerm_last_occurrence_witness :
  findMatchingTerm "k=[a]b]" 7 3 2 5 "]" = (true, 3, 1) /\
  char_at "k=[a]b]" 6 = "]"%char /\
  (forall p, 6 < p < 7 -> char_at "k=[a]b]" p <> "]"%char).
Proof.
  pose proof (findMatchingTerm_last_occurrence "k=[a]b]" 3 2 5 "]"%char
                ltac:(simpl; lia)) as H.
  change (findMatchingTerm "k=[a]b]" (strlen "k=[a]b]") 3 2 5 "]")
    with (true, 3, 1) in H.
  destruct H as (_ & _ & Hc & Hp).
  split; [reflexivity|]. split; [exact Hc | exact Hp].
Defined.

End Terminator.

(** ** Common prefix and suffix *)

Module Affixes.

Lemma scan_common_spec count : forall j bound ca cb,
  j <= scan_common count j bound ca cb <= j + count /\
  (j <= bound -> scan_common count j bound ca cb <= bound) /\
  (forall k, j <= k < scan_common count j bound ca cb -> ca k = cb k) /\
  (scan_common count j bound ca cb < j + count ->
   scan_common count j bound ca cb < bound ->
   ca (scan_common count j bound ca cb) <> cb (scan_common count j bound ca cb)).
Proof.
  induction count as [|c IH]; intros j bound ca cb; simpl.
  - repeat split; intros; lia.
  - destruct (j <? bound) eqn:Hj; simpl.
    + apply Nat.ltb_lt in Hj.
      destruct (Ascii.eqb (ca j) (cb j)) eqn:He.
      * apply Ascii.eqb_eq in He.
        destruct (IH (S j) bound ca cb) as (A & B & C & D).
        split; [lia|]. split; [intros _; apply B; lia|]. split.
        -- intros k Hk. destruct (decide (k = j)) as [->|Hne]; [exact He | apply C; lia].
        -- intros H1 H2. apply D; lia.
      * apply Ascii.eqb_neq in He.
        split; [lia|]. split; [lia|]. split; [intros k Hk; lia|].
        intros _ _. exact He.
    + apply Nat.ltb_ge in Hj. repeat split; intros; lia.
Qed.

Lemma char_at_end s : forall i, String.length s <= i -> char_at s i = NUL.
Proof.
  unfold char_at. induction s as [|c s IH]; intros i Hi; [destruct i; reflexivity|].
  destruct i as [|i]; simpl in Hi; [lia|]. simpl. apply IH. lia.
Qed.

Lemma no_nul_char s : forall i, no_nul s = true -> i < String.length s -> char_at s i <> NUL.
Proof.
  unfold no_nul. induction s as [|c s IH]; intros i Hs Hi; simpl in Hi; [lia|].
  simpl in Hs. apply andb_true_iff in Hs. destruct Hs as [Hc Hs].
  destruct i as [|i].
  - unfold char_at. simpl. apply negb_true_iff, Ascii.eqb_neq in Hc. exact Hc.
  - rewrite char_at_cons. apply IH; [exact Hs | lia].
Qed.

Lemma take_eq_chars k : forall a b,
  k <= String.length a -> k <= String.length b ->
  (forall i, i < k -> char_at a i = char_at b i) ->
  str_take k a = str_take k b.
Proof.
  induction k as [|k IH]; intros a b Ha Hb Hc; [destruct a, b; reflexivity|].
  destruct a as [|x a]; simpl in Ha; [lia|].
  destruct b as [|y b]; simpl in Hb; [lia|].
  simpl. f_equal.
  - exact (Hc 0 ltac:(lia)).
  - apply IH; [lia | lia |]. intros i Hi. exact (Hc (S i) ltac:(lia)).
Qed.

Lemma drop_eq_chars k : forall a b,
  k <= String.length a -> k <= String.length b ->
  (forall j, j < k ->
     char_at a (String.length a - j - 1) = char_at b (String.length b - j - 1)) ->
  str_drop (String.length a - k) a = str_drop (String.length b - k) b.
Proof.
  induction k as [|k IH]; intros a b Ha Hb Hc.
  - rewrite !Nat.sub_0_r, !str_drop_all by lia. reflexivity.
  - rewrite (str_drop_step a (String.length a - S k)) by lia.
    rewrite (str_drop_step b (String.length b - S k)) by lia.
    replace (S (String.length a - S k)) with (String.length a - k) by lia.
    replace (S (String.length b - S k)) with (String.length b - k) by lia.
    f_equal.
    + specialize (Hc k ltac:(lia)).
      replace (String.length a - S k) with (String.length a - k - 1) by lia.
      replace (String.length b - S k) with (String.length b - k - 1) by lia.
      exact Hc.
    + apply IH; [lia | lia |]. intros j Hj. apply Hc. lia.
Qed.

Lemma agrees_le base lp ls lp' ls' wi :
  agrees base lp ls wi -> lp' <= lp -> ls' <= ls -> agrees base lp' ls' wi.
Proof.
  intros (A & B & C) Hp Hs. split; [|split].
  - intros i Hi. apply A. lia.
  - lia.
  - intros j Hj. apply C. lia.
Qed.

Lemma affix_step_agrees base lp ls wi lp' ls' :
  affix_step base (strlen base) (lp, ls) wi = (lp', ls') ->
  lp' <= lp /\ ls' <= ls /\ agrees base lp' ls' wi.
Proof.
  unfold affix_step. intros [= <- <-].
  set (jp := scan_common lp 0 lp (char_at (word wi)) (char_at base)).
  set (jmax := if strlen (word wi) <? ls then strlen (word wi) else ls).
  set (js := scan_common jmax 0 jmax
               (fun j => char_at (word wi) (strlen (word wi) - j - 1))
               (fun j => char_at base (strlen base - j - 1))).
  destruct (scan_common_spec lp 0 lp (char_at (word wi)) (char_at base))
    as (P1 & P2 & P3 & _). fold jp in P1, P2, P3.
  destruct (scan_common_spec jmax 0 jmax
              (fun j => char_at (word wi) (strlen (word wi) - j - 1))
              (fun j => char_at base (strlen base - j - 1)))
    as (S1 & S2 & S3 & _). fold js in S1, S2, S3.
  assert (Hjmax : jmax <= ls /\ jmax <= strlen (word wi)).
  { unfold jmax. destruct (strlen (word wi) <? ls) eqn:E;
      [apply Nat.ltb_lt in E | apply Nat.ltb_ge in E]; lia. }
  split; [|split; [|split; [|split]]].
  - destruct (0 <? lp); [|lia]. destruct (jp <? lp) eqn:E; [apply Nat.ltb_lt in E|]; lia.
  - destruct (0 <? ls); [|lia]. destruct (js <? ls) eqn:E; [apply Nat.ltb_lt in E|]; lia.
  - intros i Hi. destruct (0 <? lp) eqn:E0.
    + destruct (jp <? lp) eqn:E; [apply Nat.ltb_lt in E | apply Nat.ltb_ge in E];
        apply P3; lia.
    + apply Nat.ltb_ge in E0. lia.
  - destruct (0 <? ls) eqn:E0.
    + destruct (js <? ls) eqn:E; [apply Nat.ltb_lt in E | apply Nat.ltb_ge in E]; lia.
    + apply Nat.ltb_ge in E0. lia.
  - intros j Hj. destruct (0 <? ls) eqn:E0.
    + destruct (js <? ls) eqn:E; [apply Nat.ltb_lt in E | apply Nat.ltb_ge in E];
        apply (S3 j); lia.
    + apply Nat.ltb_ge in E0. lia.
Qed.

Lemma fold_affix_agrees base l : forall lp ls lp' ls',
  fold_left (affix_step base (strlen base)) l (lp, ls) = (lp', ls') ->
  lp' <= lp /\ ls' <= ls /\ Forall (agrees base lp' ls') l.
Proof.
  induction l as [|wi l IH]; intros lp ls lp' ls' Hf; cbn [fold_left] in Hf.
  - injection Hf as <- <-. repeat split; try lia. constructor.
  - destruct (affix_step base (strlen base) (lp, ls) wi) as [lp1 ls1] eqn:E.
    apply affix_step_agrees in E. destruct E as (A & B & C).
    destruct (IH _ _ _ _ Hf) as (A' & B' & C').
    split; [lia|]. split; [lia|]. constructor; [|exact C'].
    eapply agrees_le; eauto.
Qed.

(** The delimiter scan only shrinks the two lengths. *)
Lemma delim_scan_shrinks j1 : forall bw L lp ls lp' ls',
  j1 <= lp ->
  delim_scan j1 bw L lp ls = (lp', ls') -> lp' <= lp /\ ls' <= ls.
Proof.
  induction j1 as [|j IH]; intros bw L lp ls lp' ls' Hj Hd; simpl in Hd.
  - injection Hd as <- <-. lia.
  - destruct (closer_of (char_at bw j)) as [term|].
    + unfold findMatchingTerm in Hd.
      pose proof (Terminator.findTerm_from_spec ls 0 bw L term) as Hs.
      destruct (findTerm_from ls 0 bw L term) as [ns|].
      * injection Hd as <- <-. lia.
      * apply IH in Hd; lia.
    + destruct (is_separator (char_at bw j)).
      * apply IH in Hd; lia.
      * apply IH in Hd; lia.
Qed.

(** X6. The two lengths that [checkPrefixes] computes for a node are
    lengths of a prefix and of a suffix that every value of the node
    shares with the first one: no value is shorter than either length,
    and the first [lp] and the last [ls] bytes are the same in all of
    them. *)
Theorem lengths_are_common w0 ws lp ls :
  no_nul (word w0) = true ->
  prefix_suffix_lengths (w0 :: ws) (word w0) = (lp, ls) ->
  Forall (fun wi => common_prefix lp (word wi) (word w0) /\
                    common_suffix ls (word wi) (word w0)) (w0 :: ws).
Proof.
  intros Hnul Hl. unfold prefix_suffix_lengths in Hl.
  change (drop 1 (w0 :: ws)) with ws in Hl.
  destruct (fold_left (affix_step (word w0) (strlen (word w0))) ws
              (strlen (word w0), strlen (word w0))) as [lp0 ls0] eqn:Hf.
  destruct (fold_affix_agrees _ _ _ _ _ _ Hf) as (A & B & C).
  apply delim_scan_shrinks in Hl; [|lia]. destruct Hl as [Hlp Hls].
  assert (Hall : Forall (agrees (word w0) lp ls) (w0 :: ws)).
  { constructor.
    - split; [|split]; [intros i Hi; reflexivity | lia | intros j Hj; reflexivity].
    - eapply Forall_impl; [exact C|]. intros wi Hwi. simpl in Hwi.
      eapply agrees_le; eauto. }
  eapply Forall_impl; [exact Hall|]. intros wi (P & Q & R). simpl.
  assert (Hpl : lp <= strlen (word wi)).
  { destruct (le_lt_dec lp (strlen (word wi))) as [Hle|Hgt]; [exact Hle|].
    exfalso. apply (no_nul_char (word w0) (strlen (word wi)) Hnul); [unfold strlen in *; lia|].
    rewrite <- (P (strlen (word wi)) Hgt). apply char_at_end. unfold strlen. lia. }
  split; (split; [|split]); try lia.
  - apply take_eq_chars; unfold strlen in *; try lia. exact P.
  - apply drop_eq_chars; unfold strlen in *; try lia. exact R.
Qed.

Lemma lengths_are_common_witness :
  Forall (fun wi => common_prefix 4 (word wi) "id=<7>;" /\
                    common_suffix 2 (word wi) "id=<7>;")
    [wordinfoNew "id=<7>;"; wordinfoNew "id=<42>;"].
Proof.
  exact (lengths_are_common (wordinfoNew "id=<7>;") [wordinfoNew "id=<42>;"] 4 2
           eq_refl eq_refl).
Defined.

End Affixes.

(** ** Overlapping prefix and suffix *)

Module Overlap.
Section WithSyntaxes.
Context `{Syntaxes}.

Lemma remove_suffix_short lenSuffix ws : forall s,
  Exists (fun wi => strlen (word wi) < lenSuffix) ws ->
  mapM (remove_suffix lenSuffix) ws s = Fault OutOfBounds.
Proof.
  induction ws as [|wi ws IH]; intros s Hex; [inversion Hex|].
  simpl. unfold bind at 1. unfold remove_suffix at 1.
  destruct (lenSuffix <=? strlen (word wi)) eqn:E.
  - apply Nat.leb_le in E. unfold ret at 1.
    inversion Hex as [? ? Hhd | ? ? Htl]; subst; [lia|].
    rewrite (bind_fault _ _ _ _ (IH s Htl)). reflexivity.
  - reflexivity.
Qed.

(** The suffix block on a node with a live child, one of whose values is
    shorter than the suffix. *)
Lemma suffix_block_short s node n w0 ws c lenSuffix :
  heap s !! node = Some (Some n) ->
  words n = w0 :: ws ->
  child n = Some c -> is_node (heap s) c ->
  Exists (fun wi => strlen (word wi) < lenSuffix) (w0 :: ws) ->
  disjoin_suffix node lenSuffix s = Fault OutOfBounds.
Proof.
  intros Hn Hw Hc [cn Hcn] Hex.
  assert (Hlt : node < length (heap s)) by (eapply lookup_lt_Some; exact Hn).
  assert (Hltc : c < length (heap s)) by (eapply lookup_lt_Some; exact Hcn).
  unfold disjoin_suffix.
  mload. rewrite Hw. unfold word_at at 1. cbn [lookup list_lookup].
  unfold bind at 1. unfold ret at 1. cbv zeta.
  destruct (strlen (word w0) <? lenSuffix) eqn:E; [reflexivity|].
  unfold bind at 1. unfold ret at 1.
  rewrite (bind_step _ _ _ _ _ (logrec_newNode_ok _ _ _)).
  mload. mload. mstore. mload.
  cbn [child set_child]. rewrite Hc.
  destruct (decide (c = node)) as [->|Hne].
  - rewrite Hn in Hcn. injection Hcn as <-.
    mload. mstore. mload. mstore. mload.
    cbn [words set_words set_child set_parent]. rewrite Hw.
    apply bind_fault. apply remove_suffix_short. exact Hex.
  - mload. mstore. mload. mstore. mload.
    cbn [words set_words set_child set_parent]. rewrite Hw.
    apply bind_fault. apply remove_suffix_short. exact Hex.
Qed.

(** The prefix block keeps every node alive. *)
Lemma prefix_block_keeps s node n w0 ws lenPrefix :
  heap s !! node = Some (Some n) ->
  words n = w0 :: ws ->
  Forall (fun wi => (lenPrefix <= strlen (word wi))%nat) (w0 :: ws) ->
  exists s',
    disjoin_prefix node lenPrefix w0 s = Done (length (heap s), s') /\
    heap s' !! length (heap s) =
      Some (Some (mkNode (Some node) None (child n) 0%Z
                    (map (fun wi => set_word (str_drop lenPrefix (word wi)) wi) (w0 :: ws)))) /\
    (forall a, is_node (heap s) a -> is_node (heap s') a).
Proof.
  intros Hn Hw Hall.
  assert (Hlt : node < length (heap s)) by (eapply lookup_lt_Some; exact Hn).
  assert (Hw0 : lenPrefix <= strlen (word w0)) by (inversion Hall; assumption).
  unfold disjoin_prefix.
  replace (strlen (word w0) + 1 <? lenPrefix) with false
    by (symmetry; apply Nat.ltb_ge; lia).
  unfold bind at 1. unfold ret at 1. cbv zeta.
  rewrite (bind_step _ _ _ _ _ (logrec_newNode_ok _ _ _)).
  mload. mload. mstore. mstore.
  erewrite bind_step; [| eapply logrec_addWord_ok; lk ].
  mload. mload. mstore. mstore. mload.
  cbn [words set_words set_child]. rewrite Hw.
  rewrite (bind_step _ _ _ _ _ (Suffix.remove_prefix_all lenPrefix (w0 :: ws) _ Hall)).
  mstore. unfold ret. eexists. split; [reflexivity|]. split; [lk|].
  intros a Ha. cbn [heap].
  repeat (apply Safety.is_node_store; [len|]).
  apply Safety.is_node_alloc. exact Ha.
Qed.

(** X7. When the common prefix and the common suffix overlap in a value
    (the value is shorter than the two lengths together), [disjoinCommon]
    on a node with a child reads outside the value: the prefix is cut
    off first, and the residual value is then shorter than the suffix,
    so that [strlen - lenSuffix] wraps around. *)
Theorem overlap_runs_out_of_bounds s node n w0 ws c lenPrefix lenSuffix :
  heap s !! node = Some (Some n) ->
  words n = w0 :: ws ->
  child n = Some c -> is_node (heap s) c ->
  Forall (fun wi => (lenPrefix <= strlen (word wi))%nat) (w0 :: ws) ->
  Exists (fun wi => (strlen (word wi) < lenPrefix + lenSuffix)%nat) (w0 :: ws) ->
  disjoinCommon node lenPrefix lenSuffix s = Fault OutOfBounds.
Proof.
  intros Hn Hw Hc Hcn Hall Hex.
  assert (Hpos : 0 < lenSuffix).
  { apply Exists_exists in Hex. destruct Hex as (wi & Hin & Hshort).
    rewrite Forall_forall in Hall. specialize (Hall wi Hin). simpl in Hall. lia. }
  unfold disjoinCommon.
  rewrite (bind_step _ _ _ _ _ (load_ok node n s Hn)).
  rewrite Hw. unfold word_at at 1. cbn [lookup list_lookup].
  unfold bind at 1. unfold ret at 1.
  replace (0 <? lenSuffix) with true by (symmetry; apply Nat.ltb_lt; exact Hpos).
  destruct (0 <? lenPrefix) eqn:Hp.
  - destruct (prefix_block_keeps s node n w0 ws lenPrefix Hn Hw Hall)
      as (s' & Hrun & Hnew & Hkeep).
    rewrite (bind_step _ _ _ _ _ Hrun).
    apply bind_fault.
    eapply suffix_block_short.
    + exact Hnew.
    + reflexivity.
    + exact Hc.
    + apply Hkeep. exact Hcn.
    + change (Exists (fun wi => strlen (word wi) < lenSuffix)
                (map (fun wi => set_word (str_drop lenPrefix (word wi)) wi) (w0 :: ws))).
      apply Exists_exists in Hex. destruct Hex as (wi & Hin & Hshort).
      apply Exists_exists. exists (set_word (str_drop lenPrefix (word wi)) wi).
      split.
      * apply (list_elem_of_fmap_2 (fun wi => set_word (str_drop lenPrefix (word wi)) wi)).
        exact Hin.
      * cbn [word set_word]. unfold strlen in *. rewrite str_drop_length. simpl in Hshort.
        rewrite Forall_forall in Hall. specialize (Hall wi Hin). simpl in Hall.
        unfold strlen in Hall. lia.
  - apply Nat.ltb_ge in Hp. assert (lenPrefix = 0) as -> by lia.
    unfold bind at 1. unfold ret at 1.
    apply bind_fault.
    eapply suffix_block_short; eauto.
Qed.

End WithSyntaxes.

(** The case of the comment before [checkPrefixes]: the values "end" and
    "eend" give the prefix length 1 and the suffix length 3. *)
Lemma end_session_from_lines : after_lines end_lines = end_session.
Proof. vm_compute. reflexivity. Qed.

Lemma end_lengths :
  prefix_suffix_lengths [wordinfoNew "end"; wordinfoNew "eend"] "end" = (1, 3).
Proof. vm_compute. reflexivity. Qed.

Lemma overlap_runs_out_of_bounds_witness :
  @disjoinCommon ref_syntaxes 1 1 3 end_session = Fault OutOfBounds.
Proof.
  apply (@overlap_runs_out_of_bounds ref_syntaxes end_session 1
           (mkNode (Some 0) None (Some 2) 0%Z [wordinfoNew "end"; wordinfoNew "eend"])
           (wordinfoNew "end") [wordinfoNew "eend"] 2 1 3).
  - reflexivity.
  - reflexivity.
  - reflexivity.
  - eexists. reflexivity.
  - repeat constructor.
  - apply Exists_cons_hd. simpl. lia.
Defined.

(** The whole program on the two lines ends in this fault. *)
Lemma end_lines_main :
  @main ref_syntaxes 16 (lines_file end_lines) initial = Fault OutOfBounds.
Proof. vm_compute. reflexivity. Qed.

End Overlap.

(** ** Factoring twice *)

Module Final.

(** A store elsewhere, or one that keeps the values, keeps a property of
    the values of the node at [a]. *)
Lemma store_values (Q : list wordinfo -> Prop) a c n' s u s' :
  store c n' s = Done (u, s') ->
  (exists n, heap s !! a = Some (Some n) /\ Q (words n)) ->
  (c = a -> exists nc, heap s !! c = Some (Some nc) /\ words n' = words nc) ->
  exists n, heap s' !! a = Some (Some n) /\ Q (words n).
Proof.
  intros Hs (n & Hn & HQ) Hsame. apply store_Done in Hs. destruct Hs as [-> _]. cbn [heap].
  destruct (decide (c = a)) as [->|Hne].
  - destruct (Hsame eq_refl) as (nc & Hnc & Hw). exists n'.
    split; [apply list_lookup_insert_eq; eapply lookup_lt_Some; exact Hn|].
    rewrite Hw. assert (nc = n) as -> by congruence. exact HQ.
  - exists n. rewrite list_lookup_insert_ne by exact Hne. split; assumption.
Qed.

Lemma alloc_values (Q : list wordinfo -> Prop) a (h : list (option logrec_node)) x :
  (exists n, h !! a = Some (Some n) /\ Q (words n)) ->
  (exists n, (h ++ [x])%list !! a = Some (Some n) /\ Q (words n)) /\ a <> length h.
Proof.
  intros (n & Hn & HQ).
  assert (Hlt : a < length h) by (eapply lookup_lt_Some; exact Hn).
  split; [|lia]. exists n. rewrite lookup_app_l by exact Hlt. split; assumption.
Qed.

Lemma mapM_pure {A B} (f : A -> M B) (P : A -> B -> Prop) l : forall s l' s',
  (forall x s y s', f x s = Done (y, s') -> s' = s /\ P x y) ->
  mapM f l s = Done (l', s') -> s' = s /\ Forall2 P l l'.
Proof.
  induction l as [|x l IH]; intros s l' s' Hf Hr; simpl in Hr.
  - unfold ret in Hr. injection Hr as <- <-. split; [reflexivity | constructor].
  - inv Hr as y s1 Hy. apply Hf in Hy. destruct Hy as [-> Hy].
    inv Hr as ys s2 Hys. apply IH in Hys; [|exact Hf]. destruct Hys as [-> Hys].
    unfold ret in Hr. injection Hr as <- <-. split; [reflexivity|].
    constructor; assumption.
Qed.

Lemma remove_prefix_pure lp x s y s' :
  remove_prefix lp x s = Done (y, s') -> s' = s /\ True.
Proof.
  unfold remove_prefix.
  repeat match goal with |- context [if ?c then _ else _] => destruct c end;
    unfold ret, raise; intros Hr; try discriminate; injection Hr as <- <-; auto.
Qed.

Lemma remove_suffix_pure ls x s y s' :
  remove_suffix ls x s = Done (y, s') -> s' = s /\ True.
Proof.
  unfold remove_suffix.
  repeat match goal with |- context [if ?c then _ else _] => destruct c end;
    unfold ret, raise; intros Hr; try discriminate; injection Hr as <- <-; auto.
Qed.

Lemma Forall2_nonempty {A B} (P : A -> B -> Prop) l l' :
  Forall2 P l l' -> l <> [] -> l' <> [].
Proof. intros Hf Hne. destruct Hf; [contradiction | discriminate]. Qed.

Section WithSyntaxes.
Context `{Syntaxes}.

(** Without stacking, the syntax detection leaves the session alone and
    keeps the subword mark. *)
Lemma wordDetectSyntax_pure wi n s wi' s' :
  wordDetectSyntax (set_isSubword wi) n false s = Done (wi', s') ->
  s' = s /\ isSubword (flags wi') = true.
Proof.
  unfold wordDetectSyntax. cbn [andb].
  repeat match goal with
         | |- context [if ?c then _ else _] => destruct c
         | |- context [match ?o with Some _ => _ | None => _ end] =>
             lazymatch o with
             | syntax_ipv4 _ _ => destruct o
             end
         end;
    unfold ret; intros Hr; injection Hr as <- <-; split; reflexivity.
Qed.

(** The prefix block leaves the node with the prefix as its one value, a
    subword, and hands its values to the new node. *)
Lemma disjoin_prefix_settles a lp w0 s nn s1 :
  disjoin_prefix a lp w0 s = Done (nn, s1) ->
  has_values (heap s) a ->
  nn <> a /\ settled (heap s1) a /\ has_values (heap s1) nn.
Proof.
  unfold disjoin_prefix. intros Hr (n0 & Hn0 & Hne).
  assert (Hlt : a < length (heap s)) by (eapply lookup_lt_Some; exact Hn0).
  inv Hr as u0 s0 Hchk.
  assert (s0 = s) as ->.
  { destruct (strlen (word w0) + 1 <? lp); [discriminate|].
    unfold ret in Hchk. injection Hchk as _ <-. reflexivity. }
  clear Hchk.
  rewrite (bind_step _ _ _ _ _ (logrec_newNode_ok _ _ _)) in Hr.
  revert Hr.
  mload. mload. mstore. mstore.
  erewrite bind_step; [| eapply logrec_addWord_ok; lk ].
  mload. mload. mstore. mstore. mload.
  cbn [words set_words set_child]. intros Hr.
  inv Hr as ws s2 Hmap.
  apply (mapM_pure _ (fun _ _ => True)) in Hmap; [|intros; eapply remove_prefix_pure; eauto].
  destruct Hmap as [-> Hf2].
  inv Hr as u3 s3 Hst. unfold ret in Hr. injection Hr as <- <-.
  apply store_Done in Hst. destruct Hst as [-> _]. cbn [heap].
  split; [lia|]. split.
  - eexists _, _, []. split; [lk|]. split; reflexivity.
  - eexists. split; [lk|]. cbn [words set_words]. eapply Forall2_nonempty; eauto.
Qed.

(** The suffix block keeps the values of every other node, and leaves
    values in its own. *)
Lemma disjoin_suffix_keeps (Q : list wordinfo -> Prop) a b ls s u s' :
  disjoin_suffix b ls s = Done (u, s') ->
  a <> b ->
  (exists n, heap s !! a = Some (Some n) /\ Q (words n)) ->
  exists n, heap s' !! a = Some (Some n) /\ Q (words n).
Proof.
  unfold disjoin_suffix. intros Hr Hab Ha.
  inv Hr as n0 s0 Hn0. inv_ld Hn0.
  inv Hr as w0 s1 Hw0. apply Order.word_at_Done in Hw0. destruct Hw0 as [-> _].
  inv Hr as u0 s2 Hchk.
  assert (s2 = s) as ->.
  { destruct (strlen (word w0) <? ls); [discriminate|].
    unfold ret in Hchk. injection Hchk as _ <-. reflexivity. }
  clear Hchk.
  rewrite (bind_step _ _ _ _ _ (logrec_newNode_ok _ _ _)) in Hr.
  match type of Hr with
  | context [mkSession (heap s ++ [?x])%list _] =>
      destruct (alloc_values Q a (heap s) x Ha) as [Ha1 Hfresh]
  end.
  inv Hr as nn s3 Hnn. inv_ld Hnn.
  inv Hr as n1 s4 Hn1. inv_ld Hn1.
  inv Hr as u1 s5 Hst1.
  assert (Ha2 := store_values Q a _ _ _ _ _ Hst1 Ha1 ltac:(intros E; cbn [heap] in *; lia)).
  inv Hr as nn2 s6 Hnn2. inv_ld Hnn2.
  inv Hr as cn s7 Hcn. apply load_Done in Hcn. destruct Hcn as [-> (c & Hc & Hcn)].
  inv Hr as u2 s8 Hst2. rewrite Hc in Hst2.
  assert (Ha3 := store_values Q a _ _ _ _ _ Hst2 Ha2
                   ltac:(intros _; exists cn; split; [exact Hcn | reflexivity])).
  inv Hr as n2 s9 Hn2. inv_ld Hn2.
  inv Hr as u3 s10 Hst3.
  assert (Ha4 := store_values Q a _ _ _ _ _ Hst3 Ha3 ltac:(intros E; congruence)).
  inv Hr as n3 s11 Hn3. inv_ld Hn3.
  inv Hr as ws s12 Hmap.
  apply (mapM_pure _ (fun _ _ => True)) in Hmap; [|intros; eapply remove_suffix_pure; eauto].
  destruct Hmap as [-> _].
  exact (store_values Q a _ _ _ _ _ Hr Ha4 ltac:(intros E; congruence)).
Qed.

Lemma disjoin_suffix_has_values b ls s u s' :
  disjoin_suffix b ls s = Done (u, s') -> has_values (heap s') b.
Proof.
  unfold disjoin_suffix. intros Hr.
  inv Hr as n0 s0 Hn0. inv_ld Hn0.
  inv Hr as w0 s1 Hw0. apply Order.word_at_Done in Hw0. destruct Hw0 as [-> Hw0].
  assert (Hb : exists n, heap s !! b = Some (Some n) /\ words n <> []).
  { exists n0. split; [exact Hn0|]. intros E. rewrite E in Hw0. discriminate. }
  inv Hr as u0 s2 Hchk.
  assert (s2 = s) as ->.
  { destruct (strlen (word w0) <? ls); [discriminate|].
    unfold ret in Hchk. injection Hchk as _ <-. reflexivity. }
  clear Hchk.
  rewrite (bind_step _ _ _ _ _ (logrec_newNode_ok _ _ _)) in Hr.
  match type of Hr with
  | context [mkSession (heap s ++ [?x])%list _] =>
      destruct (alloc_values (fun ws => ws <> []) b (heap s) x Hb) as [Hb1 Hfresh]
  end.
  inv Hr as nn s3 Hnn. inv_ld Hnn.
  inv Hr as n1 s4 Hn1. inv_ld Hn1.
  inv Hr as u1 s5 Hst1.
  assert (Hb2 := store_values (fun ws : list wordinfo => ws <> []) b _ _ _ _ _ Hst1 Hb1 ltac:(intros E; cbn [heap] in *; lia)).
  inv Hr as nn2 s6 Hnn2. inv_ld Hnn2.
  inv Hr as cn s7 Hcn. apply load_Done in Hcn. destruct Hcn as [-> (c & Hc & Hcn)].
  inv Hr as u2 s8 Hst2. rewrite Hc in Hst2.
  assert (Hb3 := store_values (fun ws : list wordinfo => ws <> []) b _ _ _ _ _ Hst2 Hb2
                   ltac:(intros _; exists cn; split; [exact Hcn | reflexivity])).
  inv Hr as n2 s9 Hn2. inv_ld Hn2.
  inv Hr as u3 s10 Hst3.
  assert (Hb4 := store_values (fun ws : list wordinfo => ws <> []) b _ _ _ _ _ Hst3 Hb3
                   ltac:(intros _; exists n2; split; [exact Hn2 | reflexivity])).
  inv Hr as n3 s11 Hn3. inv_ld Hn3.
  inv Hr as ws s12 Hmap.
  apply (mapM_pure _ (fun _ _ => True)) in Hmap; [|intros; eapply remove_suffix_pure; eauto].
  destruct Hmap as [-> Hf2].
  destruct Hb4 as (n4 & Hn4 & Hne4). assert (n4 = n3) as -> by congruence.
  apply store_Done in Hr. destruct Hr as [-> _]. cbn [heap].
  exists (set_words ws n3).
  split; [apply list_lookup_insert_eq; eapply lookup_lt_Some; exact Hn3|].
  cbn [words set_words]. eapply Forall2_nonempty; eauto.
Qed.

End WithSyntaxes.

(** Squashing keeps what holds of every value, whatever its count. *)
Lemma squash_for_Forall (Q : wordinfo -> Prop) count : forall m ws ip nsq ws' ip' nsq',
  (forall w o, Q w -> Q (set_occurs o w)) ->
  Forall Q ws ->
  squash_for count m (ws, ip, nsq) = Some (ws', ip', nsq') ->
  Forall Q ws'.
Proof.
  induction count as [|c IH]; intros m ws ip nsq ws' ip' nsq' HQ Hall Hr.
  - injection Hr as <- _ _. exact Hall.
  - cbn [squash_for] in Hr. unfold squash_step in Hr.
    destruct (ws !! ip) as [wp|] eqn:Hwp; [|discriminate].
    destruct (ws !! m) as [wn|] eqn:Hwn; [|discriminate].
    cbn [mbind option_bind] in Hr.
    destruct (streq (word wp) (word wn)); [eapply IH; eauto|].
    destruct (Nat.eqb (ip + 1) m); [eapply IH; eauto|].
    cbn [mbind option_bind] in Hr. eapply IH; [exact HQ | | exact Hr].
    apply Forall_insert; [apply Forall_insert; [exact Hall|]|].
    + apply HQ. eapply Forall_lookup_1; eauto.
    + eapply Forall_lookup_1; eauto.
Qed.

Lemma squash_words_Forall (Q : wordinfo -> Prop) ws ws' :
  (forall w o, Q w -> Q (set_occurs o w)) ->
  Forall Q ws -> squash_words ws = Some ws' -> Forall Q ws'.
Proof.
  intros HQ Hall. unfold squash_words.
  destruct (Nat.eqb (length ws) 1); [intros [= <-]; exact Hall|].
  destruct (squash_for _ 1 _) as [[[l ip] nsq]|] eqn:E; [|discriminate].
  cbn [mbind option_bind]. intros [= <-].
  apply Forall_take. eapply squash_for_Forall; [exact HQ | | exact E].
  rewrite (Dedup.qsort_perm ws). exact Hall.
Qed.

Lemma squash_words_nonempty ws ws' :
  squash_words ws = Some ws' -> ws <> [] -> ws' <> [].
Proof.
  intros Hr Hne. destruct (Dedup.squash_words_texts ws) as (ws2 & Hr2 & Ht & _).
  assert (ws2 = ws') as -> by congruence.
  intros ->. simpl in Ht.
  assert (Hq : qsort ws <> []).
  { intros E. apply Hne. apply Permutation_nil. rewrite <- E.
    apply Dedup.qsort_perm. }
  destruct (qsort ws); [contradiction | discriminate].
Qed.

Section WithSyntaxes.
Context `{Syntaxes}.

(** The end of [disjoinCommon]: every value of the current node is marked
    a subword, detected anew and squashed. *)
Lemma detect_and_squash_settles b s u s' :
  (let* n := load (Some b) in
   let* ws := mapM (fun wi => wordDetectSyntax (set_isSubword wi) (strlen (word wi)) false)
                   (words n) in
   let* n := load (Some b) in
   store b (set_words ws n) ;;;
   squashDuplicateValues b) s = Done (u, s') ->
  has_values (heap s) b -> settled (heap s') b.
Proof.
  intros Hr (n0 & Hn0 & Hne).
  inv Hr as n s0 Hn. inv_ld Hn. assert (n = n0) as -> by congruence.
  inv Hr as ws s1 Hmap.
  apply (mapM_pure _ (fun _ w' => isSubword (flags w') = true)) in Hmap;
    [|intros x sx y sy Hx; eapply wordDetectSyntax_pure; exact Hx].
  destruct Hmap as [-> Hf2].
  inv Hr as n1 s2 Hn1. inv_ld Hn1.
  inv Hr as u1 s3 Hst. apply store_Done in Hst. destruct Hst as [-> _].
  unfold squashDuplicateValues in Hr.
  inv Hr as n2 s4 Hn2. inv_ld Hn2. cbn [heap] in Hn2.
  rewrite list_lookup_insert_eq in Hn2 by (eapply lookup_lt_Some; exact Hn0).
  injection Hn2 as <-. cbn [words set_words] in Hr.
  destruct (squash_words ws) as [ws'|] eqn:Hsq; [|discriminate].
  apply store_Done in Hr. destruct Hr as [-> _]. cbn [heap].
  assert (Hall : Forall (fun w => isSubword (flags w) = true) ws).
  { clear -Hf2. induction Hf2; constructor; auto. }
  assert (Hall' := squash_words_Forall (fun w => isSubword (flags w) = true) ws ws'
                     ltac:(intros w o Hw; exact Hw) Hall Hsq).
  assert (Hne' : ws' <> []).
  { eapply squash_words_nonempty; [exact Hsq|]. eapply Forall2_nonempty; eauto. }
  destruct ws' as [|w0 ws']; [contradiction|].
  exists (set_words (w0 :: ws') n1), w0, ws'.
  split; [|split; [reflexivity | inversion Hall'; assumption]].
  rewrite list_insert_insert_eq.
  apply list_lookup_insert_eq. eapply lookup_lt_Some. exact Hn0.
Qed.

Lemma detect_and_squash_keeps a b s u s' :
  (let* n := load (Some b) in
   let* ws := mapM (fun wi => wordDetectSyntax (set_isSubword wi) (strlen (word wi)) false)
                   (words n) in
   let* n := load (Some b) in
   store b (set_words ws n) ;;;
   squashDuplicateValues b) s = Done (u, s') ->
  a <> b -> settled (heap s) a -> settled (heap s') a.
Proof.
  intros Hr Hab (na & w0 & ws0 & Hna & Hw & Hsub).
  inv Hr as n s0 Hn. inv_ld Hn.
  inv Hr as ws s1 Hmap.
  apply (mapM_pure _ (fun _ _ => True)) in Hmap;
    [|intros x sx y sy Hx; split; [eapply wordDetectSyntax_pure; exact Hx | exact I]].
  destruct Hmap as [-> _].
  inv Hr as n1 s2 Hn1. inv_ld Hn1.
  inv Hr as u1 s3 Hst. apply store_Done in Hst. destruct Hst as [-> _].
  unfold squashDuplicateValues in Hr.
  inv Hr as n2 s4 Hn2. inv_ld Hn2.
  destruct (squash_words (words n2)) as [ws'|]; [|discriminate].
  apply store_Done in Hr. destruct Hr as [-> _]. cbn [heap].
  exists na, w0, ws0. rewrite !list_lookup_insert_ne by congruence.
  split; [exact Hna|]. split; assumption.
Qed.

Lemma disjoinCommon_settles a lp ls s u s' :
  disjoinCommon a lp ls s = Done (u, s') -> settled (heap s') a.
Proof.
  unfold disjoinCommon. intros Hr.
  inv Hr as n0 s0 Hn0. inv_ld Hn0.
  inv Hr as w0 s1 Hw0. apply Order.word_at_Done in Hw0. destruct Hw0 as [-> Hw0].
  assert (Hhas : has_values (heap s) a).
  { exists n0. split; [exact Hn0|]. intros E. rewrite E in Hw0. discriminate. }
  inv Hr as node s2 Hpre. inv Hr as u1 s3 Hsuf.
  destruct (0 <? lp).
  - apply disjoin_prefix_settles in Hpre; [|exact Hhas].
    destruct Hpre as (Hne & Hset & Hnew).
    assert (Hset3 : settled (heap s3) a).
    { destruct (0 <? ls).
      - destruct Hset as (na & wa & wsa & Hna & Hwa & Hsub).
        destruct (disjoin_suffix_keeps
                    (fun ws => exists w0 ws', ws = w0 :: ws' /\ isSubword (flags w0) = true)
                    a node ls s2 u1 s3 Hsuf ltac:(congruence))
          as (na' & Hna' & wa' & wsa' & Hwa' & Hsub'); [eauto 8|].
        exists na', wa', wsa'. repeat split; assumption.
      - unfold ret in Hsuf. injection Hsuf as _ <-. exact Hset. }
    eapply detect_and_squash_keeps; [exact Hr | congruence | exact Hset3].
  - unfold ret in Hpre. injection Hpre as <- <-.
    assert (Hhas3 : has_values (heap s3) a).
    { destruct (0 <? ls).
      - eapply disjoin_suffix_has_values. exact Hsuf.
      - unfold ret in Hsuf. injection Hsuf as _ <-. exact Hhas. }
    eapply detect_and_squash_settles; [exact Hr | exact Hhas3].
Qed.

Lemma checkPrefixes_settled a s :
  settled (heap s) a -> checkPrefixes a s = Done (tt, s).
Proof.
  intros (n & w0 & ws & Hn & Hw & Hsub). unfold checkPrefixes.
  rewrite (bind_step _ _ _ _ _ (load_ok a n s Hn)).
  destruct (Nat.eqb (nwords n) 1); [reflexivity|].
  rewrite Hw. unfold word_at. cbn [lookup list_lookup]. unfold bind, ret.
  rewrite Hsub. reflexivity.
Qed.

(** X8. [checkPrefixes] does nothing when it is run again: on the arena
    that a returning call has left, a second call on the same node
    returns at once and changes nothing.  A node that has been factored
    starts with a subword, which exempts it. *)
Theorem factoring_is_final a s s' :
  checkPrefixes a s = Done (tt, s') ->
  checkPrefixes a s' = Done (tt, s').
Proof.
  intros Hr. pose proof Hr as Hr0. unfold checkPrefixes in Hr.
  inv Hr as n s0 Hn. inv_ld Hn.
  destruct (Nat.eqb (nwords n) 1); [unfold ret in Hr; injection Hr as <-; exact Hr0|].
  inv Hr as w0 s1 Hw0. apply Order.word_at_Done in Hw0. destruct Hw0 as [-> Hw0].
  destruct (isSubword (flags w0)); [unfold ret in Hr; injection Hr as <-; exact Hr0|].
  destruct (prefix_suffix_lengths (words n) (word w0)) as [lp ls].
  destruct (negb (Nat.eqb lp 0) || negb (Nat.eqb ls 0));
    [|unfold ret in Hr; injection Hr as <-; exact Hr0].
  apply checkPrefixes_settled. eapply disjoinCommon_settles. exact Hr.
Qed.

End WithSyntaxes.

Lemma factoring_is_final_witness :
  @checkPrefixes ref_syntaxes 2 a_factored = Done (tt, a_factored).
Proof.
  apply (@factoring_is_final ref_syntaxes 2 a_session a_factored).
  vm_compute. reflexivity.
Defined.

End Final.

(** ** The sweep of [treeSquash] *)

Module Sweep.

Lemma keeps_refl s : keeps_nodes s s.
Proof. split; [lia | auto]. Qed.

Lemma keeps_trans s1 s2 s3 : keeps_nodes s1 s2 -> keeps_nodes s2 s3 -> keeps_nodes s1 s3.
Proof. intros [A B] [C D]. split; [lia | auto]. Qed.

Lemma fn_bind {A B} (m : M A) (k : A -> M B) :
  frees_nothing m -> (forall a, frees_nothing (k a)) -> frees_nothing (bind m k).
Proof.
  intros Hm Hk s b s' Hr. apply bind_Done in Hr. destruct Hr as (a & s1 & H1 & H2).
  eapply keeps_trans; [eapply Hm; exact H1 | eapply Hk; exact H2].
Qed.

Lemma fn_ret {A} (a : A) : frees_nothing (ret a).
Proof. intros s b s' [= _ <-]. apply keeps_refl. Qed.

Lemma fn_raise {A} f : frees_nothing (@raise A f).
Proof. intros s b s' Hr. discriminate Hr. Qed.

Lemma fn_load p : frees_nothing (load p).
Proof. intros s n s' Hr. apply load_Done in Hr. destruct Hr as [-> _]. apply keeps_refl. Qed.

Lemma fn_store a n : frees_nothing (store a n).
Proof.
  intros s u s' Hr. apply store_Done in Hr. destruct Hr as [-> [n0 Hn0]].
  assert (Hlt : a < length (heap s)) by (eapply lookup_lt_Some; exact Hn0).
  split; cbn [heap]; [rewrite length_insert; lia|].
  intros c. apply Safety.is_node_store. exact Hlt.
Qed.

Lemma fn_word_at ws i : frees_nothing (word_at ws i).
Proof. unfold word_at. destruct (ws !! i); [apply fn_ret | apply fn_raise]. Qed.

Lemma fn_alloc n : frees_nothing (alloc n).
Proof.
  intros s a s' [= _ <-]. split; cbn [heap]; [rewrite length_app; lia|].
  intros c. apply Safety.is_node_alloc.
Qed.

Lemma fn_wordstackPush wi : frees_nothing (wordstackPush wi).
Proof.
  intros s u s'. unfold wordstackPush.
  destruct (SIZE_WORDSTACK <=? length (wordStack s)); [discriminate|].
  intros [= _ <-]. split; [cbn [heap]; reflexivity | intros c Hc; exact Hc].
Qed.

Lemma fn_mapM {A B} (f : A -> M B) l :
  (forall x, frees_nothing (f x)) -> frees_nothing (mapM f l).
Proof.
  intros Hf. induction l as [|x l IH]; simpl; [apply fn_ret|].
  apply fn_bind; [apply Hf | intros y].
  apply fn_bind; [exact IH | intros ys; apply fn_ret].
Qed.

(** Loads, stores, allocations and pushes free nothing, and so does
    whatever is composed of them. *)
Ltac fn :=
  repeat first
    [ apply fn_ret | apply fn_raise | apply fn_load | apply fn_store
    | apply fn_word_at | apply fn_alloc | apply fn_wordstackPush
    | apply fn_mapM; intros ?
    | apply fn_bind; [| intros ?]
    | match goal with
      | |- frees_nothing (if ?c then _ else _) => destruct c
      | |- frees_nothing (match ?o with Some _ => _ | None => _ end) => destruct o
      | |- frees_nothing (let '(_, _) := ?p in _) => destruct p
      end
    | progress unfold remove_prefix, remove_suffix ].

Lemma fn_squashDuplicateValues a : frees_nothing (squashDuplicateValues a).
Proof. unfold squashDuplicateValues. fn. Qed.

(** The guard of the collapse never says yes: it asks for a node without
    values and then reads the first value of that node. *)
Lemma squash_guard_outcomes hasSibling a s :
  squash_guard hasSibling a s = Done (false, s) \/
  exists f, squash_guard hasSibling a s = Fault f.
Proof.
  unfold squash_guard, bind, load.
  destruct (heap s !! a) as [[n|]|]; [| right; eexists; reflexivity ..].
  destruct hasSibling; [left; reflexivity|].
  destruct (child n) as [c|]; [|left; reflexivity].
  destruct (negb (Nat.eqb (nwords n) 0)) eqn:En; [left; reflexivity|].
  destruct (heap s !! c) as [[cn|]|]; [| right; eexists; reflexivity ..].
  destruct (notNull (sibling cn)); [left; reflexivity|].
  destruct (negb (Nat.eqb (nwords cn) 0)); [left; reflexivity|].
  apply negb_false_iff, Nat.eqb_eq in En. unfold nwords in En.
  destruct (words n); [|discriminate]. right. eexists. reflexivity.
Qed.

Section WithSyntaxes.
Context `{Syntaxes}.

Lemma fn_wordDetectSyntax wi n b : frees_nothing (wordDetectSyntax wi n b).
Proof. unfold wordDetectSyntax. fn. Qed.

Lemma fn_disjoinCommon a lp ls : frees_nothing (disjoinCommon a lp ls).
Proof.
  unfold disjoinCommon, disjoin_prefix, disjoin_suffix, logrec_newNode, logrec_addWord.
  fn; first [apply fn_wordDetectSyntax | apply fn_squashDuplicateValues].
Qed.

Lemma fn_checkPrefixes a : frees_nothing (checkPrefixes a).
Proof.
  unfold checkPrefixes.
  fn; first [apply fn_disjoinCommon | apply fn_wordDetectSyntax
            | apply fn_squashDuplicateValues].
Qed.

(** X9. The branch of [treeSquash] that combines a node with its child and
    frees the child with [logrec_delNode] is never taken: for every node, in
    every arena, a turn of the [while] loop is the guard followed by
    [checkPrefixes], the sweep of the child and the step to the sibling (or
    the fault of the guard). *)
Theorem collapse_is_unreachable fuel hasSibling a s :
  treeSquash_while (S fuel) hasSibling (Some a) s =
    (squash_guard hasSibling a ;;;
     checkPrefixes a ;;;
     let* n := load (Some a) in
     treeSquash fuel (child n) ;;;
     let* n := load (Some a) in
     treeSquash_while fuel hasSibling (sibling n)) s.
Proof.
  cbn [treeSquash_while].
  destruct (squash_guard_outcomes hasSibling a s) as [Hno | [f Hf]].
  - rewrite !(bind_step _ _ _ _ _ Hno). reflexivity.
  - rewrite !(bind_fault _ _ _ _ Hf). reflexivity.
Qed.

Lemma treeSquash_frees_nothing fuel :
  (forall p, frees_nothing (treeSquash fuel p)) /\
  (forall b p, frees_nothing (treeSquash_while fuel b p)).
Proof.
  induction fuel as [|fuel [IHs IHw]].
  - split; intros; intros s a s' Hr; discriminate Hr.
  - split.
    + intros p. cbn [treeSquash]. destruct p as [a|]; [|apply fn_ret].
      apply fn_bind; [apply fn_load | intros n; apply IHw].
    + intros b p. cbn [treeSquash_while]. destruct p as [a|]; [|apply fn_ret].
      intros s u s' Hr. apply bind_Done in Hr. destruct Hr as (g & s1 & Hg & Hr).
      destruct (squash_guard_outcomes b a s) as [Hno | [f Hf]]; [|congruence].
      rewrite Hno in Hg. injection Hg as <- <-. clear Hno.
      revert s u s' Hr.
      change (frees_nothing (checkPrefixes a ;;;
                             let* n := load (Some a) in
                             treeSquash fuel (child n) ;;;
                             let* n0 := load (Some a) in
                             treeSquash_while fuel b (sibling n0))).
      apply fn_bind; [apply fn_checkPrefixes | intros _].
      apply fn_bind; [apply fn_load | intros n].
      apply fn_bind; [apply IHs | intros _].
      apply fn_bind; [apply fn_load | intros n0].
      apply IHw.
Qed.

(** X10. [treeSquash] frees no node: when the sweep returns, the arena is
    at least as long as before and every address that held a live node
    still holds one, whatever the factoring has done to the nodes. *)
Theorem treeSquash_never_frees fuel p s s' :
  treeSquash fuel p s = Done (tt, s') ->
  length (heap s) <= length (heap s') /\
  forall a, is_node (heap s) a -> is_node (heap s') a.
Proof. intros Hr. exact (proj1 (treeSquash_frees_nothing fuel) p s tt s' Hr). Qed.

Lemma checkPrefixes_single a n s :
  heap s !! a = Some (Some n) -> nwords n = 1 -> checkPrefixes a s = Done (tt, s).
Proof.
  intros Ha Hn. unfold checkPrefixes.
  rewrite (bind_step _ _ _ _ _ (load_ok a n s Ha)), Hn. reflexivity.
Qed.

(** Fuel for the sweep from a pointer on, in an arena whose links lead
    upward. *)
Lemma treeSquash_single s fuel :
  wf (heap s) ->
  (forall a n, heap s !! a = Some (Some n) -> nwords n = 1) ->
  (forall p, ptr_node (heap s) p ->
     match p with Some a => 2 * (length (heap s) - a) + 1 | None => 1 end <= fuel ->
     treeSquash fuel p s = Done (tt, s)) /\
  (forall b p, ptr_node (heap s) p ->
     match p with Some a => 2 * (length (heap s) - a) | None => 1 end <= fuel ->
     treeSquash_while fuel b p s = Done (tt, s)).
Proof.
  intros Hwf Hone. induction fuel as [|fuel [IHs IHw]].
  - split; [intros p Hp Hf | intros b p Hp Hf]; destruct p as [a|]; try lia.
    pose proof (Safety.is_node_lt _ _ (Hp a eq_refl)). lia.
  - split.
    + intros p Hp Hf. cbn [treeSquash]. destruct p as [a|]; [|reflexivity].
      destruct (Hp a eq_refl) as [n Hn].
      rewrite (bind_step _ _ _ _ _ (load_ok a n s Hn)).
      apply IHw; [exact Hp | lia].
    + intros b p Hp Hf. cbn [treeSquash_while]. destruct p as [a|]; [|reflexivity].
      destruct (Hp a eq_refl) as [n Hn].
      assert (Hlt : a < length (heap s)) by (eapply lookup_lt_Some; exact Hn).
      destruct (Hwf a n Hn) as (Hne & Hc & Hs).
      rewrite (bind_step _ _ _ _ _ (Collapse.squash_guard_nonempty b a n s Hn Hne)).
      rewrite (bind_step _ _ _ _ _ (checkPrefixes_single a n s Hn (Hone a n Hn))).
      rewrite (bind_step _ _ _ _ _ (load_ok a n s Hn)).
      rewrite (bind_step _ _ _ _ _ (IHs (child n) (Safety.ptr_node_child _ _ _ Hwf Hn)
                                      ltac:(destruct (child n) as [c|]; simpl in *;
                                            [destruct Hc as [Hac Hcn];
                                             apply Safety.is_node_lt in Hcn|]; lia))).
      rewrite (bind_step _ _ _ _ _ (load_ok a n s Hn)).
      apply IHw; [eapply Safety.ptr_node_sibling; eauto|].
      destruct (sibling n) as [c|]; simpl in *;
        [destruct Hs as [Hac Hcn]; apply Safety.is_node_lt in Hcn|]; lia.
Qed.

(** X11. On a tree as the insertion builds it, in which every node has
    exactly one value, [treeSquash] returns and changes nothing, with fuel
    above twice the size of the arena: nothing is factored and nothing is
    combined. *)
Theorem treeSquash_keeps_single_valued_tree fuel p s :
  wf (heap s) ->
  (forall a n, heap s !! a = Some (Some n) -> nwords n = 1) ->
  ptr_node (heap s) p ->
  2 * length (heap s) < fuel ->
  treeSquash fuel p s = Done (tt, s).
Proof.
  intros Hwf Hone Hp Hf.
  apply (proj1 (treeSquash_single s fuel Hwf Hone)); [exact Hp|].
  destruct p; lia.
Qed.

End WithSyntaxes.

Lemma treeSquash_never_frees_witness :
  length (heap a_session) <= length (heap a_factored) /\
  forall a, is_node (heap a_session) a -> is_node (heap a_factored) a.
Proof.
  apply (@treeSquash_never_frees ref_syntaxes 16 (Some root) a_session a_factored).
  vm_compute. reflexivity.
Defined.

(** The tree of the three lines "a x", "b y", "a y": six nodes with one
    value each, two of them with a sibling. *)
Lemma treeSquash_keeps_single_valued_tree_witness :
  @treeSquash ref_syntaxes 16 (Some root) (after_lines three_lines) =
    Done (tt, after_lines three_lines).
Proof.
  apply (@treeSquash_keeps_single_valued_tree ref_syntaxes 16 (Some root)
           (after_lines three_lines)).
  all: let v := eval vm_compute in (heap (after_lines three_lines)) in
       change (heap (after_lines three_lines)) with v.
  - intros a n Ha.
    do 6 (destruct a as [|a];
          [simpl in Ha; injection Ha as <-;
           split; [discriminate|];
           split; simpl; try exact I; (split; [lia | eexists; reflexivity])|]).
    simpl in Ha. discriminate Ha.
  - intros a n Ha.
    do 6 (destruct a as [|a]; [simpl in Ha; injection Ha as <-; reflexivity|]).
    simpl in Ha. discriminate Ha.
  - intros c [= <-]. eexists. reflexivity.
  - simpl. lia.
Defined.

End Sweep.

(** ** The tokenizer at the edges *)

Module Scanner.
Section WithSyntaxes.
Context `{Syntaxes}.

(** X12. [getWord] always returns, on every line and with every word
    stack: it leaves the arena alone, and the stack never runs full,
    since words are pushed only when the stack is empty and at most two
    at a time. *)
Theorem getWord_never_exits ln s :
  exists r ln' s',
    getWord ln s = Done ((r, ln'), s') /\ heap s' = heap s /\
    length (wordStack s') <= Nat.max 2 (length (wordStack s)).
Proof.
  destruct s as [h st]. unfold getWord, bind, wordstackPop. cbn [wordStack heap].
  destruct st as [|top st].
  2:{ unfold ret. do 3 eexists. split; [reflexivity|]. split; [reflexivity|]. simpl. lia. }
  unfold ret.
  repeat match goal with
         | |- context [if ?c then _ else _] =>
             lazymatch c with
             | context [wordDetectSyntax] => fail
             | _ => destruct c
             end
         end;
    try (do 3 eexists; split; [reflexivity|]; split; [reflexivity | simpl; lia]).
  match goal with
  | |- context [wordDetectSyntax ?wi ?n true ?s0] =>
      destruct (Safety.wordDetectSyntax_runs wi n true s0 eq_refl)
        as (wi' & s' & Hrun & Hh & Hst); rewrite Hrun
  end.
  do 3 eexists. split; [reflexivity|]. split; [exact Hh | simpl; lia].
Qed.

(** X14. A line of white space alone has no word, and [treeAddLine]
    counts it as a line that ends at the root: the terminal count of the
    root is incremented as an [int] is (by one; from [INT_MAX] it wraps
    to [INT_MIN]) and nothing else changes. *)
Theorem blank_line_ends_at_root fuel ln s r :
  str_forall isspace ln = true ->
  wordStack s = [] ->
  heap s !! root = Some (Some r) ->
  treeAddLine (S fuel) ln s =
    Done (tt, mkSession (<[root := Some (set_nterm (int_wrap (nterm r + 1)) r)]> (heap s))
                        []).
Proof.
  intros Hsp Hst Hr. unfold treeAddLine.
  assert (Hgw : getWord ln s = Done ((None, ln), s)).
  { unfold getWord, bind, wordstackPop. rewrite Hst. unfold ret.
    destruct (Nat.eqb (strlen ln) 0); [reflexivity|].
    assert (Hb : span_while isspace ln = String.length ln).
    { pose proof (Tokens.span_while_app isspace ln "" Hsp) as Ha.
      rewrite str_append_nil in Ha. simpl in Ha. lia. }
    cbv zeta. rewrite Hb, str_drop_all by lia. simpl span_while.
    rewrite Nat.add_0_r, Nat.eqb_refl. reflexivity. }
  rewrite (bind_step _ _ _ _ _ Hgw). cbn [treeAddLine_loop].
  rewrite (bind_step _ _ _ _ _ (load_ok root r s Hr)).
  rewrite (store_ok root _ r s Hr), Hst. reflexivity.
Qed.

End WithSyntaxes.

Lemma blank_line_ends_at_root_witness :
  @treeAddLine ref_syntaxes 1 "   " with_root =
    Done (tt, mkSession [Some (set_nterm 1%Z (root_node None))] []).
Proof.
  exact (@blank_line_ends_at_root ref_syntaxes 0 "   " with_root (root_node None)
           eq_refl eq_refl eq_refl).
Defined.

End Scanner.

(** ** A word that is known *)

Module Counting.

Lemma findExisting_found fuel : forall h start l1 e l2 ne i wv prev w s,
  heap s = h -> chain h start (l1 ++ e :: l2) ->
  Forall (lacks_word h w) l1 ->
  h !! e = Some (Some ne) -> logrec_hasWord ne w = Some i -> words ne !! i = Some wv ->
  length l1 < fuel ->
  exists prev',
    findExisting fuel start prev w s =
      Done ((Some e, prev'),
            mkSession (<[e := Some (set_words
                                      (<[i := set_occurs (int_wrap (occurs wv + 1)) wv]>
                                         (words ne)) ne)]> h)
                      (wordStack s)).
Proof.
  induction fuel as [|fuel IH]; intros h start l1 e l2 ne i wv prev w s Hh Hch Hl He Hhas Hwv Hf;
    [lia|].
  destruct l1 as [|a l1]; simpl in Hch; inversion Hch as [|? n0 ? Ha Hch']; subst; cbn [findExisting].
  - rewrite (bind_step _ _ _ _ _ (load_ok e n0 s Ha)).
    assert (n0 = ne) as -> by congruence. rewrite Hhas.
    unfold word_at. rewrite Hwv. unfold bind at 1. unfold ret at 1.
    rewrite (bind_step _ _ _ _ _ (store_ok e _ ne s Ha)).
    eexists. reflexivity.
  - rewrite (bind_step _ _ _ _ _ (load_ok a n0 s Ha)).
    inversion Hl as [|? ? Hla Hl']; subst. rewrite (Hla n0 Ha).
    apply (IH (heap s) (sibling n0) l1 e l2 ne i wv); auto. simpl in Hf. lia.
Qed.

(** X15. [treeAddToLevel] with a word that a node below the level has
    among its values: the first such node of the chain is returned, the
    occurrence count of that value is incremented as an [int] is (by
    one; from [INT_MAX] it wraps to [INT_MIN]), no node is made and no
    value is added, whatever the next word is. *)
Theorem known_word_is_counted fuel s level lv l1 e l2 ne i wi nextwi :
  heap s !! level = Some (Some lv) ->
  chain (heap s) (child lv) (l1 ++ e :: l2) ->
  Forall (lacks_word (heap s) (word wi)) l1 ->
  heap s !! e = Some (Some ne) ->
  logrec_hasWord ne (word wi) = Some i ->
  length l1 < fuel ->
  exists wv,
    words ne !! i = Some wv /\
    treeAddToLevel fuel level wi nextwi s =
      Done (e, mkSession
                 (<[e := Some (set_words
                                 (<[i := set_occurs (int_wrap (occurs wv + 1)) wv]>
                                    (words ne)) ne)]>
                    (heap s))
                 (wordStack s)).
Proof.
  intros Hlv Hch Hlack He Hhas Hfuel.
  destruct (Safety.hasWord_from_lookup _ _ _ _ Hhas) as (wv & Hwv & _).
  rewrite Nat.sub_0_r in Hwv. exists wv. split; [exact Hwv|].
  unfold treeAddToLevel.
  rewrite (bind_step _ _ _ _ _ (load_ok level lv s Hlv)).
  destruct (findExisting_found fuel (heap s) (child lv) l1 e l2 ne i wv None (word wi) s
              eq_refl Hch Hlack He Hhas Hwv Hfuel) as [prev' Hfe].
  rewrite (bind_step _ _ _ _ _ Hfe). reflexivity.
Qed.

Lemma known_word_is_counted_witness :
  exists wv,
    words (mkNode (Some 1) None (Some 3) 0%Z [wordinfoNew "bob"]) !! 0 = Some wv /\
    treeAddToLevel 8 1 (wordinfoNew "bob") (Some (wordinfoNew "logout")) after_user =
      Done (2, mkSession
                 (<[2 := Some (set_words
                                 (<[0 := set_occurs (int_wrap (occurs wv + 1)) wv]>
                                    [wordinfoNew "bob"])
                                 (mkNode (Some 1) None (Some 3) 0%Z [wordinfoNew "bob"]))]>
                    (heap after_user))
                 []).
Proof.
  apply (known_word_is_counted 8 after_user 1
           (mkNode (Some 0) None (Some 2) 0%Z [set_occurs 2%Z (wordinfoNew "user")])
           [] 2 [] (mkNode (Some 1) None (Some 3) 0%Z [wordinfoNew "bob"]) 0
           (wordinfoNew "bob") (Some (wordinfoNew "logout"))).
  - reflexivity.
  - apply (chain_cons _ 2 (mkNode (Some 1) None (Some 3) 0%Z [wordinfoNew "bob"]) []);
      [reflexivity | apply chain_nil].
  - constructor.
  - reflexivity.
  - reflexivity.
  - simpl. lia.
Defined.

End Counting.

(** ** What insertion keeps *)

Module Growth.

#[local] Instance any_count_refl : Reflexive any_count.
Proof. intros x. exact I. Qed.

#[local] Instance any_count_trans : Transitive any_count.
Proof. intros x y z _ _. exact I. Qed.

#[local] Instance Zle_refl : Reflexive Z.le.
Proof. intros x. apply Z.le_refl. Qed.

#[local] Instance Zle_trans : Transitive Z.le.
Proof. intros x y z. apply Z.le_trans. Qed.

Lemma on_chain_start h p r : on_chain h p r -> p <> None.
Proof. intros Hc. destruct Hc; discriminate. Qed.

Lemma hasWord_from_texts ws : forall ws' k w,
  Forall2 (fun a b => word b = word a) ws ws' ->
  hasWord_from k ws' w = hasWord_from k ws w.
Proof.
  induction ws as [|x ws IH]; intros ws' k w Hf; inversion Hf as [|? y ? l' Hxy Hf']; subst.
  - reflexivity.
  - simpl. rewrite Hxy. destruct (streq (word x) w); [reflexivity|]. apply IH. exact Hf'.
Qed.

(** *** The relations between an arena and a later one *)

Section Relations.
Context {Rn Ro : Z -> Z -> Prop}.

Lemma on_chain_grows h h' p r : heap_rel Rn Ro h h' -> on_chain h p r -> on_chain h' p r.
Proof.
  intros [_ Hg] Hc. induction Hc as [a n Ha | a n r Ha Hc IH].
  - destruct (Hg a n Ha) as (n' & Ha' & _). eapply on_chain_here. exact Ha'.
  - destruct (Hg a n Ha) as (n' & Ha' & (_ & _ & Hs & _)).
    eapply on_chain_next; [exact Ha'|].
    rewrite Hs; [exact IH|]. eapply on_chain_start. exact Hc.
Qed.

Lemma hasWord_grows n n' w :
  node_rel Rn Ro n n' -> logrec_hasWord n w <> None -> logrec_hasWord n' w <> None.
Proof.
  intros (_ & _ & _ & _ & old & more & Hw & Hf) Hhas. unfold logrec_hasWord in *.
  rewrite Hw.
  assert (Hold : hasWord_from 0 old w = hasWord_from 0 (words n) w).
  { apply hasWord_from_texts. eapply Forall2_impl; [exact Hf|].
    intros a b (Hab & _). exact Hab. }
  clear Hw Hf. revert Hold Hhas. generalize 0.
  induction old as [|x old IH]; intros k Hold Hhas.
  - simpl in Hold. congruence.
  - simpl in *. destruct (streq (word x) w); [discriminate|].
    destruct (hasWord_from (S k) old w) eqn:E.
    + assert (hasWord_from (S k) (old ++ more) w <> None); [|assumption].
      clear -E. revert k E. induction old as [|y old IH]; intros k E; [discriminate|].
      simpl in *. destruct (streq (word y) w); [discriminate|]. apply (IH (S k)). exact E.
    + congruence.
Qed.

Lemma on_path_grows h h' a ws t :
  heap_rel Rn Ro h h' -> on_path h a ws t -> on_path h' a ws t.
Proof.
  intros Hg Hp. induction Hp as [a n Ha | a n r nr w ws t Ha Hc Hr Hw Hp IH].
  - destruct (proj2 Hg a n Ha) as (n' & Ha' & _). eapply on_path_end. exact Ha'.
  - destruct (proj2 Hg a n Ha) as (n' & Ha' & (_ & Hch & _)).
    destruct (proj2 Hg r nr Hr) as (nr' & Hr' & Hgr).
    eapply on_path_step; [exact Ha' | | exact Hr' | | exact IH].
    + rewrite Hch by (eapply on_chain_start; exact Hc).
      eapply on_chain_grows; eauto.
    + eapply hasWord_grows; eauto.
Qed.

(** A relation on the counts that holds wherever a stronger one does. *)
Lemma heap_rel_mono (Rn' Ro' : Z -> Z -> Prop) h h' :
  (forall x y, Rn x y -> Rn' x y) -> (forall x y, Ro x y -> Ro' x y) ->
  heap_rel Rn Ro h h' -> heap_rel Rn' Ro' h h'.
Proof.
  intros Hn Ho [L G]. split; [exact L|]. intros a n Ha.
  destruct (G a n Ha) as (n' & Ha' & (P & C & S & N & old & more & W & F)).
  exists n'. split; [exact Ha'|].
  split; [exact P|]. split; [exact C|]. split; [exact S|]. split; [apply Hn; exact N|].
  exists old, more. split; [exact W|].
  eapply Forall2_impl; [exact F|].
  intros x y (A & B & D). split; [exact A|]. split; [exact B|]. apply Ho. exact D.
Qed.

Context {Rn_refl : Reflexive Rn} {Ro_refl : Reflexive Ro}.

Lemma value_rel_refl w : value_rel Ro w w.
Proof. split; [reflexivity|]. split; reflexivity. Qed.

Lemma values_rel_refl ws : Forall2 (value_rel Ro) ws ws.
Proof. induction ws; constructor; auto using value_rel_refl. Qed.

(** A node whose links and counts are as before and whose values are the
    old ones, possibly with more behind. *)
Lemma node_rel_more n n' more :
  parent n' = parent n -> child n' = child n -> sibling n' = sibling n ->
  nterm n' = nterm n -> words n' = (words n ++ more)%list ->
  node_rel Rn Ro n n'.
Proof.
  intros P C S N W. split; [exact P|]. split; [intros _; exact C|].
  split; [intros _; exact S|]. split; [rewrite N; reflexivity|].
  exists (words n), more. split; [exact W | apply values_rel_refl].
Qed.

Lemma node_rel_refl n : node_rel Rn Ro n n.
Proof. apply (node_rel_more n n []); try reflexivity. rewrite app_nil_r. reflexivity. Qed.

Lemma heap_rel_refl h : heap_rel Rn Ro h h.
Proof. split; [lia|]. intros a n Ha. exists n. split; [exact Ha | apply node_rel_refl]. Qed.

Lemma store_rel a n n' s u s' :
  store a n' s = Done (u, s') -> heap s !! a = Some (Some n) -> node_rel Rn Ro n n' ->
  heap_rel Rn Ro (heap s) (heap s') /\ wordStack s' = wordStack s.
Proof.
  intros Hs Ha Hg. apply store_Done in Hs. destruct Hs as [-> _]. cbn [heap wordStack].
  assert (Hlt : a < length (heap s)) by (eapply lookup_lt_Some; exact Ha).
  split; [|reflexivity]. split; [rewrite length_insert; lia|].
  intros b m Hb. destruct (decide (a = b)) as [->|Hne].
  - rewrite Ha in Hb. injection Hb as <-. exists n'.
    split; [apply list_lookup_insert_eq; exact Hlt | exact Hg].
  - exists m. rewrite list_lookup_insert_ne by exact Hne.
    split; [exact Hb | apply node_rel_refl].
Qed.

Lemma insert_rel (h : list (option logrec_node)) a n n' :
  h !! a = Some (Some n) -> node_rel Rn Ro n n' -> heap_rel Rn Ro h (<[a := Some n']> h).
Proof.
  intros Ha Hg.
  exact (proj1 (store_rel a n n' (mkSession h []) tt _
                  (store_ok a n' n (mkSession h []) Ha) Ha Hg)).
Qed.

Lemma alloc_rel (h : list (option logrec_node)) x : heap_rel Rn Ro h (h ++ [x]).
Proof.
  split; [rewrite length_app; lia|]. intros a n Ha. exists n.
  split; [|apply node_rel_refl].
  rewrite lookup_app_l; [exact Ha|]. eapply lookup_lt_Some. exact Ha.
Qed.

Context {Rn_trans : Transitive Rn} {Ro_trans : Transitive Ro}.

Lemma value_rel_trans a b c : value_rel Ro a b -> value_rel Ro b c -> value_rel Ro a c.
Proof.
  intros (A1 & A2 & A3) (B1 & B2 & B3).
  split; [congruence|]. split; [congruence|]. etransitivity; eassumption.
Qed.

Lemma node_rel_trans a b c : node_rel Rn Ro a b -> node_rel Rn Ro b c -> node_rel Rn Ro a c.
Proof.
  intros (A1 & A2 & A3 & A4 & o1 & m1 & A5 & A6) (B1 & B2 & B3 & B4 & o2 & m2 & B5 & B6).
  split; [congruence|]. split; [|split; [|split; [etransitivity; eassumption|]]].
  - intros Hc. rewrite B2, A2; auto. rewrite A2; auto.
  - intros Hs. rewrite B3, A3; auto. rewrite A3; auto.
  - rewrite A5 in B6. apply Forall2_app_inv_l in B6.
    destruct B6 as (p1 & p2 & F1 & F2 & ->).
    exists p1, (p2 ++ m2)%list. split; [rewrite B5, app_assoc; reflexivity|].
    clear -A6 F1 Ro_trans. revert p1 F1.
    induction A6 as [|x y l l' Hxy _ IH]; intros p1 F1.
    + inversion F1. constructor.
    + inversion F1 as [|? z ? l'' Hyz F1']; subst. constructor.
      * eapply value_rel_trans; eauto.
      * apply IH. exact F1'.
Qed.

Lemma heap_rel_trans h1 h2 h3 :
  heap_rel Rn Ro h1 h2 -> heap_rel Rn Ro h2 h3 -> heap_rel Rn Ro h1 h3.
Proof.
  intros [L1 G1] [L2 G2]. split; [lia|]. intros a n Ha.
  destruct (G1 a n Ha) as (n' & Ha' & Hg). destruct (G2 a n' Ha') as (n'' & Ha'' & Hg').
  exists n''. split; [exact Ha'' | eapply node_rel_trans; eauto].
Qed.

End Relations.

Lemma heap_keeps_refl h : heap_keeps h h.
Proof. apply heap_rel_refl. Qed.

Lemma heap_keeps_trans h1 h2 h3 : heap_keeps h1 h2 -> heap_keeps h2 h3 -> heap_keeps h1 h3.
Proof. apply heap_rel_trans. Qed.

Lemma heap_grows_refl h : heap_grows h h.
Proof. apply heap_rel_refl. Qed.

Lemma heap_grows_trans h1 h2 h3 : heap_grows h1 h2 -> heap_grows h2 h3 -> heap_grows h1 h3.
Proof. apply heap_rel_trans. Qed.

Lemma heap_grows_keeps h h' : heap_grows h h' -> heap_keeps h h'.
Proof. apply heap_rel_mono; intros; exact I. Qed.

Lemma bump_ok_any h : bump_ok any_count h.
Proof. intros a n i w _ _. exact I. Qed.

(** *** One word *)

Section Steps.
Context {Ro : Z -> Z -> Prop} {Ro_refl : Reflexive Ro} {Ro_trans : Transitive Ro}.

(** The first loop of [treeAddToLevel]. *)
Lemma findExisting_post fuel : forall ex prev w s r prev' s',
  bump_ok Ro (heap s) ->
  findExisting fuel ex prev w s = Done ((r, prev'), s') ->
  heap_rel eq Ro (heap s) (heap s') /\ wordStack s' = wordStack s /\
  length (heap s') = length (heap s) /\
  match r with
  | Some e => on_chain (heap s') ex e /\
              exists ne, heap s' !! e = Some (Some ne) /\ logrec_hasWord ne w <> None
  | None => s' = s /\
            ((ex = None /\ prev' = prev) \/
             exists p np, prev' = Some p /\ on_chain (heap s) ex p /\
                          heap s !! p = Some (Some np) /\ sibling np = None)
  end.
Proof.
  induction fuel as [|fuel IH]; intros ex prev w s r prev' s' Hb Hr; [discriminate|].
  simpl in Hr. destruct ex as [e|].
  - inv Hr as n s1 Hn. inv_ld Hn.
    destruct (logrec_hasWord n w) as [i|] eqn:Hhas.
    + inv Hr as wv s2 Hw. apply Order.word_at_Done in Hw. destruct Hw as [-> Hw].
      inv Hr as u s3 Hst. unfold ret in Hr. injection Hr as <- <- <-.
      set (n' := set_words (<[i := set_occurs (int_wrap (occurs wv + 1)) wv]> (words n)) n)
        in *.
      assert (Hf : Forall2 (value_rel Ro) (words n) (words n')).
      { unfold n'. cbn [words set_words].
        apply Forall2_same_length_lookup_2; [rewrite length_insert; reflexivity|].
        intros j a b Ha Hb'. destruct (decide (i = j)) as [->|Hne].
        - rewrite list_lookup_insert_eq in Hb' by (eapply lookup_lt_Some; exact Ha).
          injection Hb' as <-. rewrite Hw in Ha. injection Ha as <-.
          split; [reflexivity|]. split; [reflexivity|]. cbn [occurs set_occurs].
          exact (Hb e n j wv Hn Hw).
        - rewrite list_lookup_insert_ne in Hb' by exact Hne.
          rewrite Ha in Hb'. injection Hb' as <-. apply value_rel_refl. }
      assert (Hg : node_rel eq Ro n n').
      { split; [reflexivity|]. split; [auto|]. split; [auto|]. split; [reflexivity|].
        exists (words n'), []. rewrite app_nil_r. split; [reflexivity | exact Hf]. }
      destruct (store_rel _ _ _ _ _ _ Hst Hn Hg) as [HG Hstk].
      split; [exact HG|]. split; [exact Hstk|].
      split; [apply store_Done in Hst; destruct Hst as [-> _]; apply length_insert|].
      destruct (proj2 HG e n Hn) as (n2 & Hn2 & Hg2).
      split; [eapply on_chain_here; exact Hn2|].
      exists n2. split; [exact Hn2|]. eapply hasWord_grows; [exact Hg2|]. congruence.
    + specialize (IH _ _ _ _ _ _ _ Hb Hr). destruct IH as (HG & Hstk & Hlen & Hpost).
      split; [exact HG|]. split; [exact Hstk|]. split; [exact Hlen|].
      destruct r as [e'|].
      * destruct Hpost as (Hc & ne & Hne & Hw). split; [|eauto].
        destruct (proj2 HG e n Hn) as (n2 & Hn2 & (_ & _ & Hs & _)).
        eapply on_chain_next; [exact Hn2|].
        rewrite Hs; [exact Hc|]. eapply on_chain_start. exact Hc.
      * destruct Hpost as (-> & Hp). split; [reflexivity|]. right.
        destruct Hp as [[Hnone ->] | (p & np & -> & Hc & Hnp & Hsib)].
        -- exists e, n. repeat split; [eapply on_chain_here; exact Hn | exact Hn | exact Hnone].
        -- exists p, np. repeat split; [eapply on_chain_next; eauto | exact Hnp | exact Hsib].
  - unfold ret in Hr. injection Hr as <- <- <-.
    split; [apply heap_rel_refl|]. split; [reflexivity|]. split; [reflexivity|].
    split; [reflexivity|]. left. split; reflexivity.
Qed.

Lemma findByNext_post fuel : forall c w s r s',
  findByNext fuel c w s = Done (r, s') ->
  s' = s /\ forall e, r = Some e -> on_chain (heap s) c e.
Proof.
  induction fuel as [|fuel IH]; intros c w s r s' Hr; [discriminate|].
  simpl in Hr. destruct c as [c|].
  - inv Hr as n s1 Hn. inv_ld Hn.
    assert (Hrec : findByNext fuel (sibling n) w s = Done (r, s') ->
                   s' = s /\ forall e, r = Some e -> on_chain (heap s) (Some c) e).
    { intros Hrec. destruct (IH _ _ _ _ _ Hrec) as [-> Hc]. split; [reflexivity|].
      intros e He. eapply on_chain_next; [exact Hn | apply Hc; exact He]. }
    destruct (child n) as [cc|]; [|exact (Hrec Hr)].
    inv Hr as cn s2 Hcn. apply load_Done in Hcn. destruct Hcn as [-> _].
    inv Hr as w0 s3 Hw. apply Order.word_at_Done in Hw. destruct Hw as [-> _].
    destruct (streq (word w0) w); [|exact (Hrec Hr)].
    unfold ret in Hr. injection Hr as <- <-. split; [reflexivity|].
    intros e [= <-]. eapply on_chain_here. exact Hn.
  - unfold ret in Hr. injection Hr as <- <-. split; [reflexivity|]. intros e He. discriminate.
Qed.

Lemma on_chain_append h start p : forall np e x,
  on_chain h start p -> h !! p = Some (Some np) -> sibling np = None ->
  e = length h ->
  on_chain (<[p := Some (set_sibling (Some e) np)]> (h ++ [Some x])%list) start e.
Proof.
  intros np e x Hc Hp Hsib ->.
  assert (Hlt : p < length h) by (eapply lookup_lt_Some; exact Hp).
  assert (Hnew : (<[p := Some (set_sibling (Some (length h)) np)]> (h ++ [Some x])%list)
                   !! length h = Some (Some x)).
  { rewrite list_lookup_insert_ne by lia. rewrite lookup_app_r by lia.
    rewrite Nat.sub_diag. reflexivity. }
  induction Hc as [a n Ha | a n r Ha Hc IH].
  - eapply on_chain_next.
    + apply list_lookup_insert_eq. rewrite length_app. simpl. lia.
    + cbn [sibling set_sibling]. eapply on_chain_here. exact Hnew.
  - destruct (decide (a = r)) as [->|Hne].
    + assert (n = np) as -> by congruence. rewrite Hsib in Hc.
      exfalso. eapply on_chain_start; [exact Hc | reflexivity].
    + eapply on_chain_next.
      * rewrite list_lookup_insert_ne by congruence.
        rewrite lookup_app_l by (eapply lookup_lt_Some; exact Ha). exact Ha.
      * apply IH; assumption.
Qed.

(** The last block of [treeAddToLevel], after the first loop has found no
    node with the word: the new node ends the chain of the level. *)
Lemma new_node_post level prev wi s lv r s' :
  heap s !! level = Some (Some lv) ->
  ((child lv = None /\ prev = None) \/
   exists p np, prev = Some p /\ on_chain (heap s) (child lv) p /\
                heap s !! p = Some (Some np) /\ sibling np = None) ->
  (let* e := logrec_newNode wi (Some level) in
   match prev with
   | None =>
       let* lv := load (Some level) in
       store level (set_child (Some e) lv)
   | Some p =>
       let* pn := load (Some p) in
       store p (set_sibling (Some e) pn)
   end ;;;
   ret e) s = Done (r, s') ->
  heap_rel eq Ro (heap s) (heap s') /\ wordStack s' = wordStack s /\
  length (heap s') = S (length (heap s)) /\
  exists lv' nr, heap s' !! level = Some (Some lv') /\ on_chain (heap s') (child lv') r /\
                 heap s' !! r = Some (Some nr) /\ logrec_hasWord nr (word wi) <> None.
Proof.
  intros Hlv Hprev Hr.
  assert (Hlt : level < length (heap s)) by (eapply lookup_lt_Some; exact Hlv).
  rewrite (bind_step _ _ _ _ _ (logrec_newNode_ok wi (Some level) s)) in Hr.
  set (nw := mkNode (Some level) None None 0%Z [set_occurs 1%Z wi]) in *.
  assert (Hnw : logrec_hasWord nw (word wi) <> None).
  { unfold logrec_hasWord. simpl. rewrite streq_refl. discriminate. }
  destruct Hprev as [[Hch ->] | (p & np & -> & Hc & Hnp & Hsib)].
  - assert (Hlv1 : (heap s ++ [Some nw])%list !! level = Some (Some lv))
      by (rewrite lookup_app_l by exact Hlt; exact Hlv).
    inv Hr as u s1 Hlink. unfold ret in Hr. injection Hr as <- <-.
    inv Hlink as lv1 s2 Hld. inv_ld Hld. cbn [heap] in Hld.
    assert (lv1 = lv) as -> by congruence.
    pose proof Hlink as Hst. apply store_Done in Hst. destruct Hst as [-> _].
    cbn [heap wordStack].
    split; [|split; [reflexivity|split; [rewrite length_insert, length_app; simpl; lia|]]].
    + eapply heap_rel_trans; [apply (alloc_rel (heap s) (Some nw))|].
      refine (proj1 (store_rel level lv _ _ _ _ Hlink Hlv1 _)).
      split; [reflexivity|]. split; [intros Hc; contradiction|]. split; [auto|].
      split; [reflexivity|]. exists (words lv), []. rewrite app_nil_r.
      split; [reflexivity | apply values_rel_refl].
    + assert (Hnew : (<[level := Some (set_child (Some (length (heap s))) lv)]>
                        (heap s ++ [Some nw])%list) !! length (heap s) = Some (Some nw)).
      { rewrite list_lookup_insert_ne by lia. rewrite lookup_app_r by lia.
        rewrite Nat.sub_diag. reflexivity. }
      exists (set_child (Some (length (heap s))) lv), nw.
      split; [apply list_lookup_insert_eq; rewrite length_app; simpl; lia|].
      split; [cbn [child set_child]; eapply on_chain_here; exact Hnew|].
      split; [exact Hnew | exact Hnw].
  - assert (Hltp : p < length (heap s)) by (eapply lookup_lt_Some; exact Hnp).
    assert (Hnp1 : (heap s ++ [Some nw])%list !! p = Some (Some np))
      by (rewrite lookup_app_l by exact Hltp; exact Hnp).
    inv Hr as u s1 Hlink. unfold ret in Hr. injection Hr as <- <-.
    inv Hlink as pn s2 Hld. inv_ld Hld. cbn [heap] in Hld.
    assert (pn = np) as -> by congruence.
    pose proof Hlink as Hst. apply store_Done in Hst. destruct Hst as [-> _].
    cbn [heap wordStack].
    assert (HG : heap_rel eq Ro (heap s)
                   (<[p := Some (set_sibling (Some (length (heap s))) np)]>
                      (heap s ++ [Some nw])%list)).
    { eapply heap_rel_trans; [apply (alloc_rel (heap s) (Some nw))|].
      refine (proj1 (store_rel p np _ _ _ _ Hlink Hnp1 _)).
      split; [reflexivity|]. split; [auto|]. split; [intros Hc'; contradiction|].
      split; [reflexivity|]. exists (words np), []. rewrite app_nil_r.
      split; [reflexivity | apply values_rel_refl]. }
    split; [exact HG|]. split; [reflexivity|].
    split; [rewrite length_insert, length_app; simpl; lia|].
    destruct (proj2 HG level lv Hlv) as (lv' & Hlv' & (_ & Hch' & _)).
    exists lv', nw. split; [exact Hlv'|]. split; [|split; [|exact Hnw]].
    + rewrite Hch' by (eapply on_chain_start; exact Hc).
      apply on_chain_append; auto.
    + rewrite list_lookup_insert_ne by lia. rewrite lookup_app_r by lia.
      rewrite Nat.sub_diag. reflexivity.
Qed.

(** Whatever branch it takes, [treeAddToLevel] only adds, leaves every
    terminal count as it is, and the node it returns is a child of the
    level that has the word. *)
Lemma treeAddToLevel_post fuel level wi nextwi s r s' :
  bump_ok Ro (heap s) ->
  treeAddToLevel fuel level wi nextwi s = Done (r, s') ->
  heap_rel eq Ro (heap s) (heap s') /\ wordStack s' = wordStack s /\
  length (heap s') <= S (length (heap s)) /\
  exists lv' nr, heap s' !! level = Some (Some lv') /\ on_chain (heap s') (child lv') r /\
                 heap s' !! r = Some (Some nr) /\ logrec_hasWord nr (word wi) <> None.
Proof.
  unfold treeAddToLevel. intros Hb Hr.
  inv Hr as lv s1 Hlv. inv_ld Hlv.
  inv Hr as ep s2 Hfe. destruct ep as [existing prev].
  apply findExisting_post in Hfe; [|exact Hb]. destruct Hfe as (HG & Hstk & Hlen & Hpost).
  inv Hr as ex s3 Hla.
  destruct existing as [e|].
  { unfold ret in Hla. injection Hla as <- <-. unfold ret in Hr. injection Hr as <- <-.
    destruct Hpost as (Hc & ne & Hne & Hw).
    split; [exact HG|]. split; [exact Hstk|]. split; [lia|].
    destruct (proj2 HG level lv Hlv) as (lv' & Hlv' & (_ & Hch & _)).
    exists lv', ne. split; [exact Hlv'|]. split; [|split; assumption].
    rewrite Hch by (eapply on_chain_start; exact Hc). exact Hc. }
  destruct Hpost as (-> & Hprev).
  assert (Hprev' : (child lv = None /\ prev = None) \/
                   exists p np, prev = Some p /\ on_chain (heap s) (child lv) p /\
                                heap s !! p = Some (Some np) /\ sibling np = None).
  { destruct Hprev as [[A B] | Hp]; [left; split; assumption | right; exact Hp]. }
  destruct nextwi as [nwi|].
  - inv Hla as lv2 s4 Hlv2. inv_ld Hlv2. assert (lv2 = lv) as -> by congruence.
    inv Hla as c s5 Hfb. apply findByNext_post in Hfb. destruct Hfb as [-> Hc].
    destruct c as [c|].
    + inv Hla as u s6 Haw. unfold ret in Hla. injection Hla as <- <-.
      unfold ret in Hr. injection Hr as <- <-.
      specialize (Hc c eq_refl).
      assert (Hcn : exists cn, heap s !! c = Some (Some cn)).
      { clear -Hc. remember (child lv) as p. clear Heqp.
        induction Hc as [a n Ha | a n r Ha Hc IH]; eauto. }
      destruct Hcn as [cn Hcn].
      rewrite (logrec_addWord_ok c cn wi s Hcn) in Haw. injection Haw as _ <-.
      cbn [heap wordStack].
      assert (HG2 : heap_rel eq Ro (heap s)
                      (<[c := Some (set_words (words cn ++ [set_occurs 1%Z wi]) cn)]> (heap s))).
      { apply (insert_rel _ c cn); [exact Hcn|].
        apply (node_rel_more cn _ [set_occurs 1%Z wi]); reflexivity. }
      split; [exact HG2|]. split; [reflexivity|].
      split; [rewrite length_insert; lia|].
      destruct (proj2 HG2 level lv Hlv) as (lv' & Hlv' & (_ & Hch & _)).
      exists lv', (set_words (words cn ++ [set_occurs 1%Z wi]) cn).
      split; [exact Hlv'|]. split; [|split].
      * rewrite Hch by (eapply on_chain_start; exact Hc).
        eapply on_chain_grows; eauto.
      * apply list_lookup_insert_eq. eapply lookup_lt_Some. exact Hcn.
      * unfold logrec_hasWord. cbn [words set_words].
        rewrite Values.hasWord_from_app.
        destruct (hasWord_from 0 (words cn) (word wi)); [discriminate|].
        cbn [word set_occurs]. rewrite streq_refl. discriminate.
    + unfold ret in Hla. injection Hla as <- <-.
      destruct (new_node_post _ _ _ _ _ _ _ Hlv Hprev' Hr) as (A & B & C & D).
      split; [exact A|]. split; [exact B|]. split; [lia | exact D].
  - unfold ret in Hla. injection Hla as <- <-.
    destruct (new_node_post _ _ _ _ _ _ _ Hlv Hprev' Hr) as (A & B & C & D).
    split; [exact A|]. split; [exact B|]. split; [lia | exact D].
Qed.

End Steps.

(** *** One line *)

Section Loop.
Context `{Syntaxes}.
Context {Ro : Z -> Z -> Prop} {Ro_refl : Reflexive Ro} {Ro_trans : Transitive Ro}.

(** What is known of the arena while [k] words are still to be inserted:
    it allows one more count, and a word inserted leaves it for [k - 1]. *)
Variable Inv : list (option logrec_node) -> nat -> Prop.
Hypothesis Inv_bump : forall h k, Inv h (S k) -> bump_ok Ro h.
Hypothesis Inv_step : forall fuel level wi nextwi s r s' k,
  Inv (heap s) (S k) ->
  treeAddToLevel fuel level wi nextwi s = Done (r, s') ->
  Inv (heap s') k.

(** The loop of [treeAddLine]: the words that [getWord] delivers are put
    on a path below the level, one node after the other, and the terminal
    count of the last node is incremented. *)
Lemma treeAddLine_loop_post fuel : forall level nextwi ln s u s',
  treeAddLine_loop fuel level nextwi ln s = Done (u, s') ->
  exists ws t h nt,
    line_tokens fuel nextwi ln (wordStack s) = Some ws /\
    length h <= length (heap s) + length ws /\
    h !! t = Some (Some nt) /\
    heap s' = <[t := Some (set_nterm (int_wrap (nterm nt + 1)) nt)]> h /\
    ((nextwi = None -> wordStack s = []) -> wordStack s' = []) /\
    (Inv (heap s) (length ws) ->
     heap_rel eq Ro (heap s) h /\ on_path h level (map word ws) t /\ Inv h 0).
Proof.
  induction fuel as [|fuel IH]; intros level nextwi ln s u s' Hr; [discriminate|].
  simpl in Hr. simpl. destruct nextwi as [wi|].
  - inv Hr as wl s1 Hgw. destruct wl as [nextwi' ln'].
    pose proof (Order.getWord_heap _ _ _ _ Hgw) as Hh.
    pose proof Hgw as Hfr. rewrite Order.getWord_frame in Hfr.
    destruct (getWord ln (mkSession [] (wordStack s))) as [[[nw0 ln0] s0]| |];
      try discriminate.
    injection Hfr as -> -> Hs1.
    assert (Hst1 : wordStack s1 = wordStack s0) by (rewrite <- Hs1; reflexivity).
    inv Hr as level' s2 Hadd.
    destruct (treeAddToLevel_post (Ro := any_count) _ _ _ _ _ _ _ (bump_ok_any _) Hadd)
      as (_ & Hst2 & Hlen2 & _).
    destruct (IH _ _ _ _ _ _ Hr) as (ws & t & h & nt & Htok & Hlen & Ht & Hs' & Hstk & Hcond).
    rewrite Hst2, Hst1 in Htok. rewrite Htok. cbn [option_map].
    exists (wi :: ws), t, h, nt. split; [reflexivity|].
    split; [rewrite <- Hh; simpl; lia|]. split; [exact Ht|]. split; [exact Hs'|].
    split.
    { intros _. apply Hstk. intros ->. rewrite Hst2. eapply Order.getWord_None. exact Hgw. }
    intros HI. cbn [length] in HI. rewrite <- Hh in HI.
    destruct (treeAddToLevel_post _ _ _ _ _ _ _ (Inv_bump _ _ HI) Hadd)
      as (HG12 & _ & _ & lv' & nr & Hlv' & Hc & Hnr & Hw).
    destruct (Hcond (Inv_step _ _ _ _ _ _ _ _ HI Hadd)) as (HG & Hp & HI0).
    split; [rewrite <- Hh; eapply heap_rel_trans; eauto|]. split; [|exact HI0].
    destruct (proj2 HG level lv' Hlv') as (lvh & Hlvh & (_ & Hch & _)).
    destruct (proj2 HG level' nr Hnr) as (nrh & Hnrh & Hgr).
    cbn [map]. eapply on_path_step; [exact Hlvh | | exact Hnrh | | exact Hp].
    + rewrite Hch by (eapply on_chain_start; exact Hc). eapply on_chain_grows; eauto.
    + eapply hasWord_grows; eauto.
  - inv Hr as lv s1 Hlv. inv_ld Hlv.
    apply store_Done in Hr. destruct Hr as [-> _]. cbn [heap wordStack].
    exists [], level, (heap s), lv. split; [reflexivity|].
    split; [simpl; lia|]. split; [exact Hlv|]. split; [reflexivity|].
    split; [intros Hemp; exact (Hemp eq_refl)|].
    intros HI. split; [apply heap_rel_refl|].
    split; [eapply on_path_end; exact Hlv | exact HI].
Qed.

(** [treeAddLine] is the loop, started at the root with the first word. *)
Lemma treeAddLine_post fuel ln s s' :
  wordStack s = [] ->
  treeAddLine fuel ln s = Done (tt, s') ->
  exists ws t h nt,
    tokens_of_line fuel ln = Some ws /\
    length h <= length (heap s) + length ws /\
    h !! t = Some (Some nt) /\
    heap s' = <[t := Some (set_nterm (int_wrap (nterm nt + 1)) nt)]> h /\
    wordStack s' = [] /\
    (Inv (heap s) (length ws) ->
     heap_rel eq Ro (heap s) h /\ on_path h root (map word ws) t /\ Inv h 0).
Proof.
  unfold treeAddLine, tokens_of_line. intros Hst Hr.
  inv Hr as wl s1 Hgw. destruct wl as [nextwi ln'].
  pose proof Hgw as Hfr. rewrite Order.getWord_frame, Hst in Hfr.
  destruct (getWord ln (mkSession [] [])) as [[[nw0 ln0] s0]| |]; try discriminate.
  injection Hfr as -> -> Hs1.
  assert (Hst1 : wordStack s1 = wordStack s0) by (rewrite <- Hs1; reflexivity).
  pose proof (Order.getWord_heap _ _ _ _ Hgw) as Hh.
  destruct (treeAddLine_loop_post _ _ _ _ _ _ _ Hr)
    as (ws & t & h & nt & Htok & Hlen & Ht & Hs' & Hstk & Hcond).
  exists ws, t, h, nt. split; [rewrite <- Hst1; exact Htok|].
  split; [rewrite <- Hh; exact Hlen|]. split; [exact Ht|]. split; [exact Hs'|].
  split; [apply Hstk; intros ->; eapply Order.getWord_None; exact Hgw|].
  rewrite <- Hh. exact Hcond.
Qed.

End Loop.

(** The number of words of a line is the length of its list of words. *)
Lemma line_words_tokens `{Syntaxes} fuel : forall nextwi ln st,
  line_words fuel nextwi ln st =
    option_map (fun ws => Z.of_nat (length ws)) (line_tokens fuel nextwi ln st).
Proof.
  induction fuel as [|fuel IH]; intros nextwi ln st; simpl; [reflexivity|].
  destruct nextwi as [wi|]; [|reflexivity].
  destruct (getWord ln (mkSession [] st)) as [[[nw ln'] s']| |]; try reflexivity.
  rewrite IH. destruct (line_tokens fuel nw ln' (wordStack s')) as [ws|]; simpl;
    [f_equal; lia | reflexivity].
Qed.

Lemma words_of_line_tokens `{Syntaxes} fuel ln ws :
  tokens_of_line fuel ln = Some ws -> words_of_line fuel ln = Z.of_nat (length ws).
Proof.
  unfold tokens_of_line, words_of_line.
  destruct (getWord ln (mkSession [] [])) as [[[nw ln'] s']| |]; try discriminate.
  rewrite line_words_tokens. intros ->. reflexivity.
Qed.

Lemma words_of_line_nonneg `{Syntaxes} fuel ln : (0 <= words_of_line fuel ln)%Z.
Proof.
  unfold words_of_line.
  destruct (getWord ln (mkSession [] [])) as [[[nw ln'] s']| |]; simpl; try lia.
  rewrite line_words_tokens.
  destruct (line_tokens fuel nw ln' (wordStack s')); simpl; lia.
Qed.

Section WithSyntaxes.
Context `{Syntaxes}.

(** What a line leaves behind, whatever the counts are. *)
Lemma treeAddLine_keeps fuel ln s s' :
  wordStack s = [] ->
  treeAddLine fuel ln s = Done (tt, s') ->
  wordStack s' = [] /\
  heap_keeps (heap s) (heap s') /\
  exists ws t nt,
    tokens_of_line fuel ln = Some ws /\
    on_path (heap s') root (map word ws) t /\
    heap s' !! t = Some (Some nt) /\
    (forall n0, heap s !! t = Some (Some n0) -> nterm nt = int_wrap (nterm n0 + 1)) /\
    length (heap s') <= length (heap s) + length ws.
Proof.
  intros Hst Hr.
  destruct (treeAddLine_post (Ro := any_count) (fun _ _ => True)
              (fun h _ _ => bump_ok_any h) (fun _ _ _ _ _ _ _ _ _ _ => I)
              fuel ln s s' Hst Hr)
    as (ws & t & h & nt & Htok & Hlen & Ht & Hs' & Hstk & Hcond).
  destruct (Hcond I) as (HG & Hp & _).
  assert (Hlt : t < length h) by (eapply lookup_lt_Some; exact Ht).
  assert (Hbump : heap_keeps h (heap s')).
  { rewrite Hs'. apply (insert_rel h t nt); [exact Ht|].
    split; [reflexivity|]. split; [auto|]. split; [auto|]. split; [exact I|].
    exists (words nt), []. rewrite app_nil_r. split; [reflexivity | apply values_rel_refl]. }
  split; [exact Hstk|]. split.
  { eapply heap_rel_trans; [|exact Hbump].
    eapply heap_rel_mono; [| |exact HG]; intros; exact I. }
  exists ws, t, (set_nterm (int_wrap (nterm nt + 1)) nt).
  split; [exact Htok|]. split; [eapply on_path_grows; [exact Hbump | exact Hp]|].
  split; [rewrite Hs'; apply list_lookup_insert_eq; exact Hlt|].
  split; [|rewrite Hs', length_insert; exact Hlen].
  intros n0 Hn0. destruct (proj2 HG t n0 Hn0) as (n' & Hn' & (_ & _ & _ & Hnt & _)).
  rewrite Ht in Hn'. injection Hn' as <-. cbn [nterm set_nterm]. rewrite Hnt. reflexivity.
Qed.

(** What a line leaves behind while no count wraps: no count is negative
    or has gone down, the terminal counts have gained one and the
    occurrence counts the number of words, and the node at the end of the
    line has a terminal count. *)
Lemma treeAddLine_counts fuel ln s s' :
  wordStack s = [] ->
  treeAddLine fuel ln s = Done (tt, s') ->
  nonneg (heap s) ->
  (total_nterm (heap s) < INT_MAX)%Z ->
  (heap_occurs (heap s) + words_of_line fuel ln <= INT_MAX)%Z ->
  nonneg (heap s') /\
  total_nterm (heap s') = (total_nterm (heap s) + 1)%Z /\
  heap_occurs (heap s') = (heap_occurs (heap s) + words_of_line fuel ln)%Z /\
  heap_grows (heap s) (heap s') /\
  line_counted fuel (heap s') ln.
Proof.
  intros Hst Hr Hnn Hbn Hbo.
  set (N := total_nterm (heap s)) in *.
  set (O := (heap_occurs (heap s) + words_of_line fuel ln)%Z) in *.
  set (Inv := fun (h : list (option logrec_node)) (k : nat) =>
                nonneg h /\ total_nterm h = N /\ (heap_occurs h + Z.of_nat k = O)%Z).
  assert (Hbump : forall h k, Inv h (S k) -> bump_ok Z.le h).
  { intros h k (A & B & C) a n i w Ha Hi.
    destruct (Order.occurs_bump_exact h a n i w A ltac:(lia) Ha Hi) as [_ E].
    rewrite E. lia. }
  assert (Hstep : forall fuel level wi nextwi s r s' k,
            Inv (heap s) (S k) ->
            treeAddToLevel fuel level wi nextwi s = Done (r, s') ->
            Inv (heap s') k).
  { intros f level wi nextwi s0 r s0' k (A & B & C) Hadd.
    destruct (Order.treeAddToLevel_grows f level wi nextwi s0 r s0' A ltac:(lia) Hadd)
      as (Gn & Go & _ & Gnn).
    split; [exact Gnn|]. split; [congruence | lia]. }
  destruct (treeAddLine_post (Ro := Z.le) Inv Hbump Hstep fuel ln s s' Hst Hr)
    as (ws & t & h & nt & Htok & Hlen & Ht & Hs' & Hstk & Hcond).
  pose proof (words_of_line_tokens fuel ln ws Htok) as Hw.
  destruct Hcond as (HG & Hp & (Hnnh & HNh & HOh)).
  { split; [exact Hnn|]. split; [reflexivity | unfold O; lia]. }
  destruct (Order.nterm_bump_exact h t nt Hnnh ltac:(lia) Ht) as [Hpos Hex].
  rewrite Hex in Hs'.
  assert (Hlt : t < length h) by (eapply lookup_lt_Some; exact Ht).
  assert (Hfin : heap_grows h (heap s')).
  { rewrite Hs'. apply (insert_rel h t nt); [exact Ht|].
    split; [reflexivity|]. split; [auto|]. split; [auto|].
    split; [cbn [nterm set_nterm]; lia|].
    exists (words nt), []. rewrite app_nil_r. split; [reflexivity | apply values_rel_refl]. }
  split.
  { rewrite Hs'. apply Order.nonneg_insert; [exact Hnnh|].
    destruct (Hnnh t nt Ht) as [A B]. split; [cbn [nterm set_nterm]; lia | exact B]. }
  split.
  { rewrite Hs', (Order.total_nterm_insert _ _ _ _ Ht). cbn [nterm set_nterm]. lia. }
  split.
  { rewrite Hs', (Order.heap_occurs_insert _ _ _ _ Ht). cbn [words set_nterm].
    unfold O in HOh. lia. }
  split.
  { eapply heap_rel_trans; [|exact Hfin].
    eapply heap_rel_mono; [| |exact HG]; [intros x y ->; lia | auto]. }
  exists ws, t, (set_nterm (nterm nt + 1)%Z nt).
  split; [exact Htok|]. split; [eapply on_path_grows; [exact Hfin | exact Hp]|].
  split; [rewrite Hs'; apply list_lookup_insert_eq; exact Hlt|].
  cbn [nterm set_nterm]. lia.
Qed.

(** X16. Inserting a line only adds to the tree: every node is still
    there with its parent, every child and sibling link that was set, and
    its values in their places with their texts and flags (new values
    come behind).  While no count wraps (no count is negative, and the
    totals leave room for the line in an [int]), no occurrence count and
    no terminal count has gone down either. *)
Theorem insertion_only_adds fuel ln s s' :
  wordStack s = [] ->
  treeAddLine fuel ln s = Done (tt, s') ->
  heap_keeps (heap s) (heap s') /\
  (nonneg (heap s) ->
   (total_nterm (heap s) < INT_MAX)%Z ->
   (heap_occurs (heap s) + words_of_line fuel ln <= INT_MAX)%Z ->
   heap_grows (heap s) (heap s')).
Proof.
  intros Hst Hr. split.
  - exact (proj1 (proj2 (treeAddLine_keeps fuel ln s s' Hst Hr))).
  - intros Hnn Hbn Hbo.
    exact (proj1 (proj2 (proj2 (proj2 (treeAddLine_counts fuel ln s s' Hst Hr Hnn Hbn Hbo))))).
Qed.

(** X17. After [treeAddLine] the line can be read off the tree: the words
    that [getWord] delivers for the line lead from the root along child
    links to a node [t], each word being a value of the node reached; the
    terminal count of [t], if [t] was there before, is the one it had,
    incremented as an [int] is; and the arena has got at most one node
    for each word. *)
Theorem inserted_line_is_on_a_path fuel ln s s' :
  wordStack s = [] ->
  treeAddLine fuel ln s = Done (tt, s') ->
  exists ws t nt,
    tokens_of_line fuel ln = Some ws /\
    on_path (heap s') root (map word ws) t /\
    heap s' !! t = Some (Some nt) /\
    (forall n0, heap s !! t = Some (Some n0) -> nterm nt = int_wrap (nterm n0 + 1)) /\
    length (heap s') <= length (heap s) + length ws.
Proof.
  intros Hst Hr. exact (proj2 (proj2 (treeAddLine_keeps fuel ln s s' Hst Hr))).
Qed.

(** Words that the tokenizer hands on as they are. *)
Lemma getWord_plain pre w rest h :
  plain_word w ->
  str_forall isspace pre = true ->
  span_while nonspace rest = 0 ->
  getWord (pre ++ (w ++ rest)) (mkSession h []) =
    Done ((Some (wordinfoNew w), rest), mkSession h []).
Proof.
  intros (Hne & Hns & Hplain) Hpre Hrest.
  rewrite (Tokens.getWord_raw pre w rest (mkSession h []) eq_refl Hpre Hne Hns Hrest).
  destruct Hplain as [Hpct | Hdet].
  - rewrite Hpct. reflexivity.
  - destruct (Ascii.eqb (char_at w 0) "%"); [reflexivity|].
    unfold bind. rewrite Order.wordDetectSyntax_frame, Hdet. reflexivity.
Qed.

Lemma getWord_blank h : getWord " " (mkSession h []) = Done ((None, " "), mkSession h []).
Proof. reflexivity. Qed.

Lemma line_tokens_join ws : forall fuel wi,
  Forall plain_word ws -> S (length ws) < fuel ->
  line_tokens fuel (Some wi) (" " ++ join_words ws) [] =
    Some (wi :: map wordinfoNew ws).
Proof.
  induction ws as [|w ws IH]; intros fuel wi Hall Hf.
  - destruct fuel as [|[|fuel]]; simpl in Hf; try lia. reflexivity.
  - destruct fuel as [|fuel]; simpl in Hf; [lia|].
    inversion Hall as [|? ? Hw Hall']; subst.
    cbn [line_tokens].
    change (join_words (w :: ws)) with (w ++ (" " ++ join_words ws))%string.
    rewrite (getWord_plain " " w (" " ++ join_words ws) [] Hw eq_refl eq_refl).
    cbn [wordStack].
    rewrite (IH fuel (wordinfoNew w) Hall') by lia. reflexivity.
Qed.

(** X13. Words without white space that the syntax detection leaves
    alone, written one after the other with a blank behind each, come
    back from the tokenizer as they were written, each with the count 1
    and no flag. *)
Theorem tokens_of_joined_words ws fuel :
  Forall plain_word ws -> length ws < fuel ->
  tokens_of_line fuel (join_words ws) = Some (map wordinfoNew ws).
Proof.
  intros Hall Hf. unfold tokens_of_line. destruct ws as [|w ws].
  - destruct fuel; [simpl in Hf; lia|]. reflexivity.
  - inversion Hall as [|? ? Hw Hall']; subst.
    change (join_words (w :: ws)) with ("" ++ (w ++ (" " ++ join_words ws)))%string.
    rewrite (getWord_plain "" w (" " ++ join_words ws) [] Hw eq_refl eq_refl).
    cbn [wordStack]. apply line_tokens_join; [exact Hall' | simpl in Hf; lia].
Qed.

End WithSyntaxes.

(** The arena after "user bob login": four nodes, no negative count. *)
Lemma nonneg_after_bob : nonneg (heap (after_lines ["user bob login"])).
Proof.
  intros a n Ha.
  do 4 (destruct a as [|a];
        [vm_compute in Ha; injection Ha as <-;
         split; [vm_compute; discriminate | repeat constructor; vm_compute; discriminate]|]).
  vm_compute in Ha. discriminate Ha.
Qed.

Lemma insertion_only_adds_witness :
  heap_keeps (heap (after_lines ["user bob login"])) (heap (after_lines user_lines)) /\
  heap_grows (heap (after_lines ["user bob login"])) (heap (after_lines user_lines)).
Proof.
  destruct (@insertion_only_adds ref_syntaxes 8 "user alice login"
              (after_lines ["user bob login"]) (after_lines user_lines)
              eq_refl ltac:(vm_compute; reflexivity)) as [HK HG].
  split; [exact HK|]. apply HG.
  - exact nonneg_after_bob.
  - vm_compute. reflexivity.
  - vm_compute. discriminate.
Defined.

Lemma inserted_line_is_on_a_path_witness :
  exists ws t nt,
    @tokens_of_line ref_syntaxes 8 "user alice login" = Some ws /\
    on_path (heap (after_lines user_lines)) root (map word ws) t /\
    heap (after_lines user_lines) !! t = Some (Some nt) /\
    (forall n0, heap (after_lines ["user bob login"]) !! t = Some (Some n0) ->
                nterm nt = int_wrap (nterm n0 + 1)) /\
    length (heap (after_lines user_lines)) <=
      length (heap (after_lines ["user bob login"])) + length ws.
Proof.
  apply (@inserted_line_is_on_a_path ref_syntaxes 8 "user alice login"
           (after_lines ["user bob login"]) (after_lines user_lines)).
  - reflexivity.
  - vm_compute. reflexivity.
Defined.

Lemma tokens_of_joined_words_witness :
  @tokens_of_line ref_syntaxes 8 "user bob %posint% " =
    Some [wordinfoNew "user"; wordinfoNew "bob"; wordinfoNew "%posint%"].
Proof.
  apply (@tokens_of_joined_words ref_syntaxes ["user"; "bob"; "%posint%"] 8).
  - repeat constructor; try discriminate; try (right; reflexivity); left; reflexivity.
  - simpl. lia.
Defined.

End Growth.

(** ** What every order of insertion keeps *)

Module Permuted.

Section WithSyntaxes.
Context `{Syntaxes}.

Lemma line_on_path_keeps fuel h h' ln :
  heap_keeps h h' -> line_on_path fuel h ln -> line_on_path fuel h' ln.
Proof.
  intros HK (ws & t & Htok & Hp). exists ws, t. split; [exact Htok|].
  eapply Growth.on_path_grows; eauto.
Qed.

Lemma line_counted_grows fuel h h' ln :
  heap_grows h h' -> line_counted fuel h ln -> line_counted fuel h' ln.
Proof.
  intros HG (ws & t & nt & Htok & Hp & Ht & Hn).
  destruct (proj2 HG t nt Ht) as (nt' & Ht' & (_ & _ & _ & Hle & _)).
  exists ws, t, nt'. split; [exact Htok|].
  split; [eapply Growth.on_path_grows; eauto|]. split; [exact Ht' | lia].
Qed.

(** Lines inserted one after the other, whatever the counts are: each of
    them is on a root path of the tree at the end, and the arena has got
    at most one node for each word. *)
Lemma treeAddLines_keeps fuel lines : forall s s',
  wordStack s = [] ->
  treeAddLines fuel lines s = Done (tt, s') ->
  wordStack s' = [] /\ heap_keeps (heap s) (heap s') /\
  (Z.of_nat (length (heap s')) <= Z.of_nat (length (heap s)) + words_of_lines fuel lines)%Z /\
  Forall (line_on_path fuel (heap s')) lines.
Proof.
  induction lines as [|ln lines IH]; intros s s' Hst Hr.
  - unfold treeAddLines, ret in Hr. injection Hr as <-.
    split; [exact Hst|]. split; [apply Growth.heap_keeps_refl|].
    split; [simpl; lia | constructor].
  - simpl in Hr. inv Hr as u s1 Hline. destruct u.
    destruct (Growth.treeAddLine_keeps fuel ln s s1 Hst Hline)
      as (Hst1 & HK1 & ws & t & nt & Htok & Hp & _ & _ & Hlen1).
    destruct (IH s1 s' Hst1 Hr) as (Hst' & HK & Hlen & Hall).
    pose proof (Growth.words_of_line_tokens fuel ln ws Htok) as Hw.
    split; [exact Hst'|]. split; [eapply Growth.heap_keeps_trans; eauto|].
    split.
    { change (words_of_lines fuel (ln :: lines))
        with (words_of_line fuel ln + words_of_lines fuel lines)%Z. lia. }
    constructor; [|exact Hall].
    apply (line_on_path_keeps fuel (heap s1)); [exact HK|]. exists ws, t. split; assumption.
Qed.

Lemma words_of_lines_nonneg fuel lines : (0 <= words_of_lines fuel lines)%Z.
Proof.
  induction lines as [|ln lines IH]; simpl; [lia|].
  pose proof (Growth.words_of_line_nonneg fuel ln). lia.
Qed.

(** The same while no count wraps: the totals are the numbers of lines
    and of words, no count has gone down, and each line ends at a node
    that has a terminal count. *)
Lemma treeAddLines_counts fuel lines : forall s s',
  wordStack s = [] ->
  treeAddLines fuel lines s = Done (tt, s') ->
  nonneg (heap s) ->
  (total_nterm (heap s) + Z.of_nat (length lines) <= INT_MAX)%Z ->
  (heap_occurs (heap s) + words_of_lines fuel lines <= INT_MAX)%Z ->
  nonneg (heap s') /\
  total_nterm (heap s') = (total_nterm (heap s) + Z.of_nat (length lines))%Z /\
  heap_occurs (heap s') = (heap_occurs (heap s) + words_of_lines fuel lines)%Z /\
  heap_grows (heap s) (heap s') /\
  Forall (line_counted fuel (heap s')) lines.
Proof.
  induction lines as [|ln lines IH]; intros s s' Hst Hr Hnn Hbn Hbo.
  - unfold treeAddLines, ret in Hr. injection Hr as <-. simpl.
    split; [exact Hnn|]. split; [lia|]. split; [lia|].
    split; [apply Growth.heap_grows_refl | constructor].
  - simpl in Hr. inv Hr as u s1 Hline. destruct u.
    pose proof (words_of_lines_nonneg fuel lines) as Hpos.
    pose proof (Growth.words_of_line_nonneg fuel ln) as Hpos1.
    cbn [length] in *.
    change (words_of_lines fuel (ln :: lines))
      with (words_of_line fuel ln + words_of_lines fuel lines)%Z in *.
    destruct (Growth.treeAddLine_counts fuel ln s s1 Hst Hline Hnn)
      as (Hnn1 & Hn1 & Ho1 & HG1 & Hc1); [lia | lia |].
    destruct (Growth.treeAddLine_keeps fuel ln s s1 Hst Hline) as (Hst1 & _).
    destruct (IH s1 s' Hst1 Hr Hnn1) as (Hnn' & Hn' & Ho' & HG & Hall); [lia | lia |].
    split; [exact Hnn'|]. split; [lia|]. split; [lia|].
    split; [eapply Growth.heap_grows_trans; eauto|].
    constructor; [apply (line_counted_grows fuel (heap s1)); assumption | exact Hall].
Qed.

(** On a well-formed arena with the root and an empty word stack the
    lines are inserted without fault, given fuel for the words they can
    hold. *)
Lemma treeAddLines_runs fuel lines : forall s,
  wf (heap s) -> is_node (heap s) root -> wordStack s = [] ->
  length (heap s) + 2 * lines_cost lines < fuel ->
  exists s', treeAddLines fuel lines s = Done (tt, s').
Proof.
  induction lines as [|ln lines IH]; intros s Hwf Hroot Hst Hfuel.
  - exists s. reflexivity.
  - rewrite Order.lines_cost_cons in Hfuel. simpl.
    destruct (Safety.treeAddLine_runs fuel ln s Hwf Hroot Hst)
      as (s1 & Hrun & Hwf1 & Hroot1 & Hlen1); [lia|].
    rewrite (bind_step _ _ _ _ _ Hrun).
    destruct (Growth.treeAddLine_keeps fuel ln s s1 Hst Hrun) as (Hst1 & _).
    apply IH; [exact Hwf1 | exact Hroot1 | exact Hst1 | lia].
Qed.

(** C5, amended. The tree depends on the order in which the lines are
    inserted: the nodes and their value sets can differ.  What every
    order keeps is this.  From a well-formed tree any two orders of the
    same lines are inserted without fault.  After either order the tree
    has all it had before (nodes, links, values in their places) and at
    most one node more for each word, and every one of the lines can be
    read off it: its words lead from the root along child links, each a
    value of the node reached.  And while
    no count wraps (no count is negative before, and the numbers of lines
    and of words fit into an [int] on top of the totals), the counts are
    those of the lines whatever the order: the terminal counts of all
    nodes have grown by the number of lines, the occurrence counts of all
    values by the number of words, no count has gone down, and the node
    at the end of each line has a terminal count. *)
Theorem insertion_order_keeps_lines fuel ls1 ls2 s :
  Permutation ls1 ls2 ->
  wf (heap s) -> is_node (heap s) root -> wordStack s = [] ->
  length (heap s) + 2 * lines_cost ls1 < fuel ->
  exists s1 s2,
    treeAddLines fuel ls1 s = Done (tt, s1) /\
    treeAddLines fuel ls2 s = Done (tt, s2) /\
    heap_keeps (heap s) (heap s1) /\ heap_keeps (heap s) (heap s2) /\
    (Z.of_nat (length (heap s1)) <= Z.of_nat (length (heap s)) + words_of_lines fuel ls1)%Z /\
    (Z.of_nat (length (heap s2)) <= Z.of_nat (length (heap s)) + words_of_lines fuel ls1)%Z /\
    Forall (fun ln => line_on_path fuel (heap s1) ln /\ line_on_path fuel (heap s2) ln) ls1 /\
    (nonneg (heap s) ->
     (total_nterm (heap s) + Z.of_nat (length ls1) <= INT_MAX)%Z ->
     (heap_occurs (heap s) + words_of_lines fuel ls1 <= INT_MAX)%Z ->
     total_nterm (heap s1) = (total_nterm (heap s) + Z.of_nat (length ls1))%Z /\
     total_nterm (heap s2) = total_nterm (heap s1) /\
     heap_occurs (heap s1) = (heap_occurs (heap s) + words_of_lines fuel ls1)%Z /\
     heap_occurs (heap s2) = heap_occurs (heap s1) /\
     heap_grows (heap s) (heap s1) /\ heap_grows (heap s) (heap s2) /\
     Forall (fun ln => line_counted fuel (heap s1) ln /\ line_counted fuel (heap s2) ln) ls1).
Proof.
  intros Hperm Hwf Hroot Hst Hfuel.
  destruct (treeAddLines_runs fuel ls1 s Hwf Hroot Hst Hfuel) as (s1 & H1).
  destruct (treeAddLines_runs fuel ls2 s Hwf Hroot Hst) as (s2 & H2).
  { rewrite <- (Order.lines_cost_perm _ _ Hperm). exact Hfuel. }
  exists s1, s2. split; [exact H1|]. split; [exact H2|].
  destruct (treeAddLines_keeps fuel ls1 s s1 Hst H1) as (_ & K1 & L1 & P1).
  destruct (treeAddLines_keeps fuel ls2 s s2 Hst H2) as (_ & K2 & L2 & P2).
  rewrite <- (Order.words_of_lines_perm fuel _ _ Hperm) in L2.
  split; [exact K1|]. split; [exact K2|]. split; [exact L1|]. split; [exact L2|]. split.
  { apply Forall_forall. intros ln Hin. split.
    - exact (proj1 (Forall_forall _ _) P1 ln Hin).
    - apply (proj1 (Forall_forall _ _) P2 ln). rewrite <- Hperm. exact Hin. }
  intros Hnn Hbn Hbo.
  destruct (treeAddLines_counts fuel ls1 s s1 Hst H1 Hnn Hbn Hbo)
    as (_ & N1 & O1 & G1 & C1).
  destruct (treeAddLines_counts fuel ls2 s s2 Hst H2 Hnn) as (_ & N2 & O2 & G2 & C2).
  { rewrite <- (Permutation_length Hperm). exact Hbn. }
  { rewrite <- (Order.words_of_lines_perm fuel _ _ Hperm). exact Hbo. }
  rewrite <- (Permutation_length Hperm) in N2.
  rewrite <- (Order.words_of_lines_perm fuel _ _ Hperm) in O2.
  split; [exact N1|]. split; [congruence|]. split; [exact O1|]. split; [congruence|].
  split; [exact G1|]. split; [exact G2|].
  apply Forall_forall. intros ln Hin. split.
  - exact (proj1 (Forall_forall _ _) C1 ln Hin).
  - apply (proj1 (Forall_forall _ _) C2 ln). rewrite <- Hperm. exact Hin.
Qed.

End WithSyntaxes.

Lemma nonneg_with_root : nonneg (heap with_root).
Proof.
  intros a n Ha. destruct a as [|a]; simpl in Ha; [|destruct a; discriminate].
  injection Ha as <-. split; simpl; [lia|]. constructor; [simpl; lia | constructor].
Qed.

(** The three lines "a x", "b y", "a y" and their reverse: three lines,
    six words and the root. *)
Lemma insertion_order_keeps_lines_witness :
  exists s1 s2,
    @treeAddLines ref_syntaxes 64 three_lines with_root = Done (tt, s1) /\
    @treeAddLines ref_syntaxes 64 (rev three_lines) with_root = Done (tt, s2) /\
    heap_keeps (heap with_root) (heap s1) /\ heap_keeps (heap with_root) (heap s2) /\
    (Z.of_nat (length (heap s1)) <= 7)%Z /\ (Z.of_nat (length (heap s2)) <= 7)%Z /\
    Forall (fun ln => @line_on_path ref_syntaxes 64 (heap s1) ln /\
                      @line_on_path ref_syntaxes 64 (heap s2) ln) three_lines /\
    total_nterm (heap s1) = 3%Z /\ total_nterm (heap s2) = 3%Z /\
    heap_occurs (heap s1) = 7%Z /\ heap_occurs (heap s2) = 7%Z /\
    Forall (fun ln => @line_counted ref_syntaxes 64 (heap s1) ln /\
                      @line_counted ref_syntaxes 64 (heap s2) ln) three_lines.
Proof.
  destruct (@insertion_order_keeps_lines ref_syntaxes 64 three_lines (rev three_lines)
              with_root (Permutation_rev three_lines) Order.wf_with_root
              (ex_intro _ (mkNode None None None 0%Z [wordinfoNew "[ROOT]"]) eq_refl)
              eq_refl ltac:(vm_compute; lia))
    as (s1 & s2 & R1 & R2 & K1 & K2 & L1 & L2 & P & C).
  destruct (C nonneg_with_root ltac:(vm_compute; discriminate)
              ltac:(vm_compute; discriminate))
    as (N1 & N2 & O1 & O2 & _ & _ & L).
  exists s1, s2. split; [exact R1|]. split; [exact R2|]. split; [exact K1|].
  split; [exact K2|]. split; [exact L1|]. split; [exact L2|]. split; [exact P|].
  split; [exact N1|]. split; [rewrite N2; exact N1|].
  split; [exact O1|]. split; [rewrite O2; exact O1 | exact L].
Defined.

(** Six words in three lines. *)
Lemma three_lines_totals :
  @words_of_lines ref_syntaxes 8 three_lines = 6%Z /\
  heap_occurs (heap (after_lines three_lines)) = 7%Z /\
  heap_occurs (heap (after_lines (rev three_lines))) = 7%Z.
Proof. repeat split. Qed.

End Permuted.

(** ** Feeding a file *)

Module Feeding.

Lemma at_least_refl {A} (m : M A) : at_least m m.
Proof. intros s r Hr. exact Hr. Qed.

Lemma at_least_bind {A B} (m m' : M A) (k k' : A -> M B) :
  at_least m m' -> (forall a, at_least (k a) (k' a)) -> at_least (bind m k) (bind m' k').
Proof.
  intros Hm Hk s [b s'] Hr. apply bind_Done in Hr. destruct Hr as (a & s1 & H1 & H2).
  rewrite (bind_step _ _ _ _ _ (Hm _ _ H1)). apply Hk. exact H2.
Qed.

Lemma findExisting_fuel f : forall f' ex prev w,
  f <= f' -> at_least (findExisting f ex prev w) (findExisting f' ex prev w).
Proof.
  induction f as [|f IH]; intros f' ex prev w Hle; [intros s r Hr; discriminate Hr|].
  destruct f' as [|f']; [lia|]. cbn [findExisting].
  destruct ex as [e|]; [|apply at_least_refl].
  apply at_least_bind; [apply at_least_refl | intros n].
  destruct (logrec_hasWord n w); [apply at_least_refl|]. apply IH. lia.
Qed.

Lemma findByNext_fuel f : forall f' c w,
  f <= f' -> at_least (findByNext f c w) (findByNext f' c w).
Proof.
  induction f as [|f IH]; intros f' c w Hle; [intros s r Hr; discriminate Hr|].
  destruct f' as [|f']; [lia|]. cbn [findByNext].
  destruct c as [c|]; [|apply at_least_refl].
  apply at_least_bind; [apply at_least_refl | intros n].
  destruct (child n); [|apply IH; lia].
  apply at_least_bind; [apply at_least_refl | intros cn].
  apply at_least_bind; [apply at_least_refl | intros w0].
  destruct (streq (word w0) w); [apply at_least_refl | apply IH; lia].
Qed.

Lemma treeAddToLevel_fuel f f' level wi nextwi :
  f <= f' -> at_least (treeAddToLevel f level wi nextwi) (treeAddToLevel f' level wi nextwi).
Proof.
  intros Hle. unfold treeAddToLevel.
  apply at_least_bind; [apply at_least_refl | intros lv].
  apply at_least_bind; [apply findExisting_fuel; exact Hle | intros [existing prev]].
  apply at_least_bind; [|intros ex; apply at_least_refl].
  destruct existing; [apply at_least_refl|].
  destruct nextwi; [|apply at_least_refl].
  apply at_least_bind; [apply at_least_refl | intros lv2].
  apply at_least_bind; [apply findByNext_fuel; exact Hle | intros c; apply at_least_refl].
Qed.

(** A line that fits the buffer is read up to its newline, which is
    consumed. *)
Lemma readLine_line l : forall count rest e,
  no_newline l = true -> String.length l < count ->
  readLine count (mkFile (l ++ nl ++ rest) e) = (l, mkFile rest e).
Proof.
  induction l as [|c l IH]; intros count rest e Hnl Hlen.
  - destruct count as [|count]; [simpl in Hlen; lia|]. reflexivity.
  - destruct count as [|count]; [simpl in Hlen; lia|].
    simpl in Hnl. apply andb_true_iff in Hnl. destruct Hnl as [Hc Hnl].
    apply negb_true_iff in Hc.
    rewrite str_append_cons. cbn [readLine fgetc pending at_eof]. rewrite Hc.
    rewrite (IH count rest e Hnl) by (simpl in Hlen; lia). reflexivity.
Qed.

Section WithSyntaxes.
Context `{Syntaxes}.

Lemma treeAddLine_loop_fuel f : forall f' level nextwi ln,
  f <= f' -> at_least (treeAddLine_loop f level nextwi ln) (treeAddLine_loop f' level nextwi ln).
Proof.
  induction f as [|f IH]; intros f' level nextwi ln Hle; [intros s r Hr; discriminate Hr|].
  destruct f' as [|f']; [lia|]. cbn [treeAddLine_loop].
  destruct nextwi as [wi|]; [|apply at_least_refl].
  apply at_least_bind; [apply at_least_refl | intros [nextwi' ln']].
  apply at_least_bind; [apply treeAddToLevel_fuel; lia | intros level'].
  apply IH. lia.
Qed.

Lemma treeAddLine_fuel f f' ln :
  f <= f' -> at_least (treeAddLine f ln) (treeAddLine f' ln).
Proof.
  intros Hle. unfold treeAddLine.
  apply at_least_bind; [apply at_least_refl | intros [nextwi ln']].
  apply treeAddLine_loop_fuel. exact Hle.
Qed.

(** X19. [processFile] on a file of newline-terminated lines that fit the
    line buffer does to the tree what preprocessing and inserting the
    lines one after the other does; empty lines are skipped, the file is
    read to its end, and the reading loop needs one turn more than there
    are lines. *)
Theorem file_is_fed_line_by_line lines : forall fuel0 fuel s s',
  Forall (fun l => no_newline l = true /\ String.length l < MAXLINE - 1) lines ->
  feed_lines fuel0 lines s = Done (tt, s') ->
  fuel0 + length lines < fuel ->
  processFile_loop fuel (lines_file lines) s = Done (mkFile EmptyString true, s').
Proof.
  induction lines as [|l lines IH]; intros fuel0 fuel s s' Hall Hfeed Hfuel.
  - destruct fuel as [|fuel]; [lia|].
    unfold feed_lines, ret in Hfeed. injection Hfeed as <-.
    unfold lines_file. cbn [foldr].
    change (processFile_loop (S fuel) (mkFile "" false) s)
      with (((ret tt) ;;; processFile_loop fuel (mkFile "" true)) s).
    unfold bind, ret. destruct fuel; reflexivity.
  - destruct fuel as [|fuel]; [lia|].
    inversion Hall as [|? ? [Hnl Hlen] Hall']; subst.
    cbn [feed_lines] in Hfeed. apply bind_Done in Hfeed.
    destruct Hfeed as ([] & s1 & Hline & Hrest).
    assert (Hread : readLine (MAXLINE - 1) (lines_file (l :: lines))
                    = (l, lines_file lines)).
    { unfold lines_file. cbn [foldr]. apply readLine_line; assumption. }
    change (processFile_loop (S fuel) (lines_file (l :: lines)))
      with (let '(lnbuf, fp') := readLine (MAXLINE - 1) (lines_file (l :: lines)) in
            (if 0 <? String.length lnbuf then
               let* lnpreproc := lift (preprocessLine lnbuf (String.length lnbuf)) in
               treeAddLine (S fuel) (c_str lnpreproc)
             else ret tt) ;;;
            processFile_loop fuel fp').
    rewrite Hread.
    assert (Hbody : (if 0 <? String.length l then
                       let* lnpreproc := lift (preprocessLine l (String.length l)) in
                       treeAddLine (S fuel) (c_str lnpreproc)
                     else ret tt) s = Done (tt, s1)).
    { revert Hline. destruct (0 <? String.length l); [|auto].
      apply at_least_bind; [apply at_least_refl | intros p].
      apply treeAddLine_fuel. simpl in Hfuel. lia. }
    rewrite (bind_step _ _ _ _ _ Hbody).
    apply (IH fuel0 fuel s1 s' Hall' Hrest). simpl in Hfuel. lia.
Qed.

(** The loop of [preprocessLine] with parsers that, where they match,
    take at least the length of the placeholder and stay inside the
    line. *)
Lemma preprocess_loop_fits buf fuel : forall i bufout,
  (forall k n, k < strlen buf -> ln_parseRFC5424Date buf (strlen buf) k = Some n ->
     strlen "%date-rfc5424%" <= n /\ k + n <= strlen buf) ->
  strlen buf - i <= fuel -> i <= strlen buf ->
  exists out, preprocess_loop fuel buf (strlen buf) i bufout = Done out /\
              strlen out + i <= strlen bufout + strlen buf.
Proof.
  induction fuel as [|fuel IH]; intros i bufout Hp Hfuel Hi.
  - simpl. replace (strlen buf <=? i) with true by (symmetry; apply Nat.leb_le; lia).
    exists bufout. split; [reflexivity | lia].
  - cbn [preprocess_loop]. destruct (strlen buf <=? i) eqn:E.
    { exists bufout. split; [reflexivity | lia]. }
    apply Nat.leb_gt in E.
    destruct (ln_parseRFC3164Date buf (strlen buf) i) as [n3|];
      destruct (ln_parseRFC5424Date buf (strlen buf) i) as [n|] eqn:E5.
    1,3: destruct (Hp i n E E5) as [Hn Hin];
         destruct (IH (i + n) (bufout ++ "%date-rfc5424%")%string Hp) as (out & Hrun & Hlen);
         [simpl in Hn; lia | lia |];
         exists out; split; [exact Hrun|];
         unfold strlen in *; rewrite str_length_app in Hlen; simpl in Hlen, Hn; lia.
    all: destruct (IH (i + 1) (bufout ++ String (char_at buf i) "")%string Hp)
           as (out & Hrun & Hlen); [lia | lia |];
         exists out; split; [exact Hrun|];
         unfold strlen in *; rewrite str_length_app in Hlen; simpl in Hlen; lia.
Qed.

(** X18. [preprocessLine] returns a line that is not longer than the
    input, and so stays inside its buffer of the same size, when the
    RFC5424 parser takes at least as many bytes as its placeholder has and
    no more than the line has left. *)
Theorem preprocessed_line_fits buf :
  (forall k n, k < strlen buf -> ln_parseRFC5424Date buf (strlen buf) k = Some n ->
     strlen "%date-rfc5424%" <= n /\ k + n <= strlen buf) ->
  exists out, preprocessLine buf (strlen buf) = Done out /\ strlen out <= strlen buf.
Proof.
  intros Hp. unfold preprocessLine.
  destruct (preprocess_loop_fits buf (strlen buf) 0 "" Hp) as (out & Hrun & Hlen); try lia.
  exists out. split; [exact Hrun|]. simpl in Hlen. lia.
Qed.

End WithSyntaxes.

Lemma file_is_fed_line_by_line_witness :
  @processFile_loop ref_syntaxes 16 (lines_file ["a x"; ""; "b y"]) with_root =
    Done (mkFile EmptyString true, after_lines ["a x"; "b y"]).
Proof.
  apply (@file_is_fed_line_by_line ref_syntaxes ["a x"; ""; "b y"] 8 16).
  - repeat (constructor; [split; [reflexivity | unfold MAXLINE; cbn [String.length]; lia]|]).
    constructor.
  - vm_compute. reflexivity.
  - simpl. lia.
Defined.

Lemma preprocessed_line_fits_witness :
  exists out,
    @preprocessLine ref_syntaxes "at 2015-01-02T10:11:12Z up" 26 = Done out /\
    strlen out <= 26.
Proof.
  apply (@preprocessed_line_fits ref_syntaxes "at 2015-01-02T10:11:12Z up").
  intros k n Hk Hn. change (strlen "at 2015-01-02T10:11:12Z up") with 26 in *.
  do 26 (destruct k as [|k];
         [vm_compute in Hn; first [discriminate Hn | injection Hn as <-; simpl; lia]|]).
  lia.
Defined.

End Feeding.

(** ** Progress counts *)

Module Progress.

(** With the option off nothing is written and nothing is counted. *)
Lemma reports_off labels : forall st,
  displayProgress st = false -> reports labels st = Done (st, EmptyString).
Proof.
  induction labels as [|l labels IH]; intros st Hoff; [reflexivity|].
  cbn [reports]. unfold reportProgress. rewrite Hoff. cbn [negb].
  rewrite (IH st Hoff). reflexivity.
Qed.

(** Calls with the label of the running phase count one each. *)
Lemma reports_same l n : forall c rest,
  (c < UINT_WRAP)%N ->
  reports (repeat (Some l) n ++ rest) (mkProgress true c (Some l)) =
    match reports rest (mkProgress true ((c + N.of_nat n) mod UINT_WRAP)%N (Some l)) with
    | Done (st, o) => Done (st, (ticks l c n ++ o)%string)
    | Fault f => Fault f
    | OutOfFuel => OutOfFuel
    end.
Proof.
  induction n as [|n IH]; intros c rest Hc.
  - cbn [repeat app ticks N.of_nat]. rewrite N.add_0_r, N.mod_small by exact Hc.
    destruct (reports rest _) as [[st o]| |]; reflexivity.
  - cbn [repeat app reports ticks]. unfold reportProgress.
    cbn [displayProgress negb lastlabel cnt]. rewrite streq_refl. cbv zeta.
    rewrite IH by (apply N.mod_upper_bound; discriminate).
    replace (((c + 1) mod UINT_WRAP + N.of_nat n) mod UINT_WRAP)%N
      with ((c + N.of_nat (S n)) mod UINT_WRAP)%N.
    2:{ rewrite N.Div0.add_mod_idemp_l. f_equal. lia. }
    destruct (reports rest _) as [[st o]| |]; try reflexivity.
    rewrite str_append_assoc. reflexivity.
Qed.

(** X20. The counts of [reportProgress]: a phase that starts the run
    reports the number of its calls, a phase that follows another one
    reports one less, since the call that changes the label closes the
    old phase and is not counted for the new one. *)
Theorem later_phase_reports_one_less l l' n m :
  l <> l' ->
  reports (repeat (Some l) (S n) ++ repeat (Some l') (S m) ++ [None])
          (mkProgress true 0 None) =
    Done (mkProgress true 0 None,
          (ticks l 0 (S n) ++ done_line l (N.of_nat (S n) mod UINT_WRAP) ++
           ticks l' 0 m ++ done_line l' (N.of_nat m mod UINT_WRAP))%string).
Proof.
  intros Hne.
  (* the first call sets the label and counts *)
  cbn [repeat app reports]. unfold reportProgress at 1.
  cbn [displayProgress negb lastlabel cnt]. rewrite streq_refl. cbv zeta.
  change ((0 + 1) mod UINT_WRAP)%N with 1%N.
  rewrite (reports_same l n 1 _ ltac:(reflexivity)).
  (* the first call of the next phase closes the phase and is not counted *)
  cbn [reports]. unfold reportProgress at 1.
  cbn [displayProgress negb lastlabel cnt].
  rewrite (streq_neq l' l) by congruence.
  rewrite (reports_same l' m 0 _ ltac:(reflexivity)).
  cbn [reports]. unfold reportProgress at 1.
  cbn [displayProgress negb lastlabel cnt].
  replace (1 + N.of_nat n)%N with (N.of_nat (S n)) by lia.
  rewrite N.add_0_l.
  cbn [ticks]. change ((0 + 1) mod UINT_WRAP)%N with 1%N.
  rewrite !str_append_nil, !str_append_assoc. reflexivity.
Qed.

Lemma later_phase_reports_one_less_witness :
  reports [Some "reading"; Some "reading"; Some "print"; Some "print"; Some "print"; None]
          (mkProgress true 0 None) =
    Done (mkProgress true 0 None,
          (done_line "reading" 2 ++ done_line "print" 2)%string).
Proof.
  exact (later_phase_reports_one_less "reading" "print" 1 2 ltac:(discriminate)).
Defined.

End Progress.

(** ** The printed tree *)

Module Printing.

Lemma flatten_cons x l : flatten (x :: l) = (x ++ flatten l)%string.
Proof. reflexivity. Qed.

Lemma flatten_app l1 l2 : flatten (l1 ++ l2) = (flatten l1 ++ flatten l2)%string.
Proof.
  induction l1 as [|x l1 IH]; simpl; [reflexivity|].
  rewrite IH, str_append_assoc. reflexivity.
Qed.

(** [String.concat] without a separator. *)
Lemma concat_flatten l : String.concat "" l = flatten l.
Proof.
  induction l as [|x l IH]; [reflexivity|].
  destruct l as [|y l].
  - simpl. rewrite str_append_nil. reflexivity.
  - change (String.concat "" (x :: y :: l))
      with (x ++ ("" ++ String.concat "" (y :: l)))%string.
    rewrite IH. reflexivity.
Qed.

Lemma flatten_blanks k : flatten (repeat " " k) = blanks k.
Proof. induction k as [|k IH]; simpl; [reflexivity | rewrite IH; reflexivity]. Qed.

Lemma flatten_indent k : flatten (repeat "   " k) = blanks (3 * k).
Proof.
  induction k as [|k IH]; [reflexivity|].
  replace (3 * S k) with (S (S (S (3 * k)))) by lia.
  simpl repeat. simpl flatten. rewrite IH. reflexivity.
Qed.

Lemma treePrintIndent_shown level c :
  treePrintIndent level c = show_indent level c.
Proof.
  unfold treePrintIndent, show_indent, pad2, itoa, decimal.
  rewrite !concat_flatten, flatten_blanks, flatten_indent, !str_append_assoc. reflexivity.
Qed.

Lemma treePrintWordinfo_shown wi : treePrintWordinfo wi = show_value wi.
Proof. reflexivity. Qed.

(** The lines of one node. *)
Lemma print_values_shown level nt w0 ws :
  print_values level nt w0 ws =
    flatten (map show_line
               (mkLine level true w0 nt :: map (fun w => mkLine level false w nt) ws)).
Proof.
  unfold print_values. rewrite concat_flatten, treePrintIndent_shown.
  cbn [map flatten]. unfold show_line at 1.
  cbn [pl_level pl_first pl_value pl_nterm andb].
  rewrite ?str_append_assoc.
  assert (Hnt : (if (nt =? 0)%Z then "" else " [nterm " ++ itoa nt ++ "]")%string =
                (if negb (nt =? 0)%Z then " [nterm " ++ decimal nt ++ "]" else "")%string)
    by (destruct (nt =? 0)%Z; reflexivity).
  rewrite Hnt.
  assert (Hv : map (fun wi => (treePrintIndent level "v" ++ treePrintWordinfo wi ++
                               String NEWLINE "")%string) ws =
               map show_line (map (fun w => mkLine level false w nt) ws)).
  { rewrite map_map. apply map_ext. intros wi. rewrite treePrintIndent_shown.
    unfold show_line. cbn [pl_level pl_first pl_value pl_nterm andb].
    rewrite ?str_append_assoc. reflexivity. }
  rewrite Hv, flatten_cons, ?str_append_assoc. reflexivity.
Qed.

(** X21. What [treePrint] writes, line by line.  Whenever it returns, the
    tree can be read out from the same node, and the text has one line
    for each value of each node, nodes in preorder, a child one level
    below its parent and a sibling at the level of its node.  A line is
    the level in two columns, [l] for the first value of a node and [v]
    for a further one, a colon, three blanks for each level, the text of
    the value, [{subword}] if it is one, its count in braces if it is
    above 1, and on the [l] line the terminal count of the node if it is
    not 0. *)
Theorem treePrint_shows_the_view fuel : forall h node level out,
  treePrint fuel h node level = Done out ->
  exists t, treeView fuel h node = Some t /\
            out = flatten (map show_line (tree_lines level t)).
Proof.
  induction fuel as [|fuel IH]; intros h node level out Hr; [discriminate|].
  cbn [treePrint treeView] in *. destruct node as [a|].
  - destruct (h !! a) as [[n|]|]; try discriminate. cbn [mjoin option_join mbind option_bind].
    destruct (words n) as [|w0 ws] eqn:Hw; [discriminate|].
    destruct (treePrint fuel h (child n) (level + 1)) as [below| |] eqn:Hc; try discriminate.
    destruct (treePrint fuel h (sibling n) level) as [beside| |] eqn:Hs; try discriminate.
    injection Hr as <-.
    destruct (IH _ _ _ _ Hc) as (tc & Hvc & ->).
    destruct (IH _ _ _ _ Hs) as (ts & Hvs & ->).
    rewrite Hvc, Hvs. cbn [mbind option_bind].
    eexists. split; [reflexivity|].
    cbn [tree_lines]. rewrite !map_app, !flatten_app, <- print_values_shown. reflexivity.
  - injection Hr as <-. exists TNil. split; reflexivity.
Qed.

(** The tree of two lines that share a slot and of an address with a
    mask: a [v] line, counts, subwords and terminal counts. *)
Lemma treePrint_shows_the_view_witness :
  exists t, treeView 16 (heap (after_lines printed_lines)) (Some root) = Some t /\
            (" 0l:[ROOT]" ++ nl ++
             " 1l:   user {2}" ++ nl ++
             " 2l:      bob" ++ nl ++
             " 2v:      alice" ++ nl ++
             " 3l:         login {2} [nterm 2]" ++ nl ++
             " 1l:   %ipv4% {subword}" ++ nl ++
             " 2l:      / {subword}" ++ nl ++
             " 3l:         %posint% {subword} [nterm 1]" ++ nl)%string =
            flatten (map show_line (tree_lines 0 t)).
Proof.
  apply (treePrint_shows_the_view 16 (heap (after_lines printed_lines)) (Some root) 0).
  vm_compute. reflexivity.
Defined.

End Printing.
